(** * Editor / author relationship graph: a shallow embedding of [main.py]

    The pipeline of [main.py] is modelled function by function:
    [load_and_merge_data], [normalize_name], [build_partially_directed_graph],
    [detect_suspicious_patterns], [score_suspicion] and
    [find_coauthor_clusters_directed].

    Python dictionaries iterate in insertion order and the detector's output
    order depends on it, so every dictionary is an association list whose
    [set] keeps the position of an existing key and appends a new one. *)

From Stdlib Require Import List String Ascii Bool Arith ZArith Lia.
From Stdlib Require Import Permutation Sorted Relations OrderedTypeEx.
From Stdlib Require Import DecimalString.
Import ListNotations.
Open Scope string_scope.
Open Scope list_scope.
Open Scope nat_scope.

(** ** Keys with a decidable equality *)

Class Key (K : Type) := { keqb : K -> K -> bool }.

Class KeyLaws (K : Type) `{Key K} := {
  keqb_spec : forall a b : K, reflect (a = b) (keqb a b)
}.

#[export] Instance string_Key : Key string := {| keqb := String.eqb |}.

#[export] Instance pair_Key {A B} `{Key A} `{Key B} : Key (A * B) :=
  {| keqb := fun p q => keqb (fst p) (fst q) && keqb (snd p) (snd q) |}.

(** ** Insertion-ordered dictionaries *)

Module Dict.
Abbreviation t K V := (list (K * V)) (only parsing).

Section Ops.
Context {K V : Type} `{Key K}.
Abbreviation t := (list (K * V)) (only parsing).

(** [d.get(k)] *)
Fixpoint get (k : K) (d : t) : option V :=
  match d with
  | [] => None
  | (k', v) :: d' => if keqb k k' then Some v else get k d'
  end.

(** [k in d] *)
Definition mem (k : K) (d : t) : bool :=
  match get k d with Some _ => true | None => false end.

(** [d[k] = v]: an existing key keeps its position, a new key goes last. *)
Fixpoint set (k : K) (v : V) (d : t) : t :=
  match d with
  | [] => [(k, v)]
  | (k', v') :: d' =>
      if keqb k k' then (k', v) :: d' else (k', v') :: set k v d'
  end.

(** [d.get(k, dflt)] *)
Definition get_or (k : K) (dflt : V) (d : t) : V :=
  match get k d with Some v => v | None => dflt end.

Definition keys (d : t) : list K := map fst d.
End Ops.
End Dict.

(** ** Strings *)

(** [needle in hay] on Python strings. *)
Fixpoint contains (needle hay : string) : bool :=
  match hay with
  | EmptyString => String.prefix needle EmptyString
  | String _ rest => String.prefix needle hay || contains needle rest
  end.

(** Number of positions of [hay] at which [needle] starts. *)
Fixpoint occurrences (needle hay : string) : nat :=
  match hay with
  | EmptyString => 0
  | String _ rest =>
      (if String.prefix needle hay then 1 else 0) + occurrences needle rest
  end.

(** Names are modelled as byte strings; [strip] and [lower] act on the ASCII
    range, where Python's whitespace is 9-13, 28-32. *)
Definition is_space (c : ascii) : bool :=
  let n := nat_of_ascii c in
  (((9 <=? n) && (n <=? 13)) || ((28 <=? n) && (n <=? 32)))%nat.

Fixpoint lstrip (s : string) : string :=
  match s with
  | EmptyString => EmptyString
  | String c rest => if is_space c then lstrip rest else s
  end.

Fixpoint rstrip (s : string) : string :=
  match s with
  | EmptyString => EmptyString
  | String c rest =>
      match rstrip rest with
      | EmptyString => if is_space c then EmptyString else String c EmptyString
      | r => String c r
      end
  end.

Definition strip (s : string) : string := rstrip (lstrip s).

Definition lower_ascii (c : ascii) : ascii :=
  let n := nat_of_ascii c in
  if ((65 <=? n) && (n <=? 90))%nat then ascii_of_nat (n + 32) else c.

Fixpoint lower (s : string) : string :=
  match s with
  | EmptyString => EmptyString
  | String c rest => String (lower_ascii c) (lower rest)
  end.

(** [normalize_name]: [name.strip().lower()] *)
Definition normalize_name (name : string) : string := lower (strip name).

(** ** Article records *)

(** A record is a JSON object; every field is read with [entry.get(key, dflt)],
    so each may be absent. *)
Record entry := {
  title : option string;
  journal : option string;
  special_issue : option string;
  editors : option (list string);
  authors : option (list string)
}.

Definition or_default {A} (dflt : A) (o : option A) : A :=
  match o with Some a => a | None => dflt end.

Definition entry_title (e : entry) : string := or_default "" (title e).

(** [f"{journal} :: {special_issue}"] *)
Definition issue_id (e : entry) : string :=
  (or_default "" (journal e) ++ " :: " ++ or_default "" (special_issue e))%string.

Definition entry_editors (e : entry) : list string :=
  map normalize_name (or_default [] (editors e)).

Definition entry_authors (e : entry) : list string :=
  map normalize_name (or_default [] (authors e)).

(** ** 1. Loading *)

(** What the file system holds at a path, as the loader can tell it apart:
    [os.path.exists] is false; the file exists but [open] raises (a directory,
    no read permission); [json.load] or [extend] raises; or the content is a
    JSON array of records, the format of the corpus (other JSON values that
    [extend] accepts are left out). *)
Inductive source :=
| Missing
| Unopenable
| Unparseable
| Readable (data : list entry).

Inductive message :=
| File_not_found (fpath : string)
| Error_reading (fpath : string).

(** The loader either returns, with what it printed, or lets an exception
    escape. *)
Inductive load_result :=
| Loaded (printed : list message) (all_data : list entry)
| Raised (fpath : string).

Fixpoint load_loop (fs : string -> source) (file_paths : list string)
    (printed : list message) (all_data : list entry) : load_result :=
  match file_paths with
  | [] => Loaded printed all_data
  | fpath :: rest =>
      match fs fpath with
      | Missing => load_loop fs rest (printed ++ [File_not_found fpath]) all_data
      | Unopenable => Raised fpath
      | Unparseable => load_loop fs rest (printed ++ [Error_reading fpath]) all_data
      | Readable data => load_loop fs rest printed (all_data ++ data)
      end
  end.

Definition load_and_merge_data (fs : string -> source)
    (file_paths : list string) : load_result :=
  load_loop fs file_paths [] [].

(** ** The directed graph ([networkx.DiGraph]) *)

Record node_attr := {
  name : string;
  editor_count : Z;
  author_count : Z
}.

Record edge_attr := {
  relationship : string;
  issues : list string;
  titles : list string
}.

(** [_node] maps a node to its attributes, [_adj] a node to its successors and
    the data of the edge to each. *)
Record DiGraph := {
  nodes : Dict.t string node_attr;
  adj : Dict.t string (Dict.t string edge_attr)
}.

Definition empty_graph : DiGraph := {| nodes := []; adj := [] |}.

Definition has_node (n : string) (G : DiGraph) : bool := Dict.mem n (nodes G).

(** [G[u][v]] when the edge exists *)
Definition edge_at (u v : string) (G : DiGraph) : option edge_attr :=
  match Dict.get u (adj G) with
  | Some nbrs => Dict.get v nbrs
  | None => None
  end.

Definition has_edge (u v : string) (G : DiGraph) : bool :=
  match edge_at u v G with Some _ => true | None => false end.

(** [G.add_node(n, **attr)]: a new node gets an empty adjacency, an existing
    one only has its attributes replaced. *)
Definition add_node (n : string) (a : node_attr) (G : DiGraph) : DiGraph :=
  if has_node n G
  then {| nodes := Dict.set n a (nodes G); adj := adj G |}
  else {| nodes := Dict.set n a (nodes G); adj := Dict.set n [] (adj G) |}.

(** [G.add_edge(u, v, **d)] for an absent edge, and the write [G[u][v] = d].
    Every call site in the program has both endpoints among the nodes already
    (lemma [build_wf]), so the branch of networkx that would create them is
    not reached. *)
Definition add_edge (u v : string) (d : edge_attr) (G : DiGraph) : DiGraph :=
  {| nodes := nodes G;
     adj := Dict.set u (Dict.set v d (Dict.get_or u [] (adj G))) (adj G) |}.

(** [G.edges(data=True)] *)
Definition edges (G : DiGraph) : list (string * string * edge_attr) :=
  flat_map (fun '(u, nbrs) => map (fun '(v, d) => (u, v, d)) nbrs) (adj G).

Definition EDITOR_TO_AUTHOR : string := "editor_to_author".
Definition CO_AUTHOR : string := "co_author".

(** ** 2. Building the partially directed graph *)

(** [G.nodes[n][field] += 1]; the node is always present where the program
    does this, the line before having created it when needed. *)
Definition incr_editor (n : string) (G : DiGraph) : DiGraph :=
  match Dict.get n (nodes G) with
  | Some a =>
      {| nodes := Dict.set n {| name := name a;
                                editor_count := (editor_count a + 1)%Z;
                                author_count := author_count a |} (nodes G);
         adj := adj G |}
  | None => G
  end.

Definition incr_author (n : string) (G : DiGraph) : DiGraph :=
  match Dict.get n (nodes G) with
  | Some a =>
      {| nodes := Dict.set n {| name := name a;
                                editor_count := editor_count a;
                                author_count := (author_count a + 1)%Z |} (nodes G);
         adj := adj G |}
  | None => G
  end.

Definition ensure_node (n : string) (G : DiGraph) : DiGraph :=
  if has_node n G then G
  else add_node n {| name := n; editor_count := 0%Z; author_count := 0%Z |} G.

(** Body of [for ed in editors] (lines 64-67). *)
Definition count_editor (G : DiGraph) (ed : string) : DiGraph :=
  incr_editor ed (ensure_node ed G).

(** Body of [for au in authors] (lines 69-72). *)
Definition count_author (G : DiGraph) (au : string) : DiGraph :=
  incr_author au (ensure_node au G).

(** The update of an existing edge's data (lines 85-89, 103-107, 116-120). *)
Definition merge_edge (kind issue ttl : string) (d : edge_attr) : edge_attr :=
  {| relationship :=
       if negb (contains kind (relationship d))
       then (relationship d ++ "," ++ kind)%string
       else relationship d;
     issues := issues d ++ [issue];
     titles := titles d ++ [ttl] |}.

Definition fresh_edge (kind issue ttl : string) : edge_attr :=
  {| relationship := kind; issues := [issue]; titles := [ttl] |}.

(** The create-or-update block the source writes three times, once per
    relationship kind and direction. *)
Definition link (kind issue ttl : string) (u v : string) (G : DiGraph)
  : DiGraph :=
  match edge_at u v G with
  | None => add_edge u v (fresh_edge kind issue ttl) G
  | Some d => add_edge u v (merge_edge kind issue ttl d) G
  end.

(** Lines 75-89: [for ed in editors: for au in authors]. *)
Definition editor_loop (issue ttl : string) (eds aus : list string)
    (G : DiGraph) : DiGraph :=
  fold_left
    (fun G ed =>
       fold_left (fun G au => link EDITOR_TO_AUTHOR issue ttl ed au G) aus G)
    eds G.

(** Lines 92-120: [for i in range(len(authors)): for j in range(i+1, len(authors))]. *)
Definition coauthor_loop (issue ttl : string) (aus : list string)
    (G : DiGraph) : DiGraph :=
  fold_left
    (fun G i =>
       fold_left
         (fun G j =>
            let a1 := nth i aus "" in
            let a2 := nth j aus "" in
            link CO_AUTHOR issue ttl a2 a1 (link CO_AUTHOR issue ttl a1 a2 G))
         (seq (i + 1) (List.length aus - (i + 1))) G)
    (seq 0 (List.length aus)) G.

(** One iteration of [for entry in articles]. *)
Definition add_entry (G : DiGraph) (e : entry) : DiGraph :=
  let ttl := entry_title e in
  let issue := issue_id e in
  let eds := entry_editors e in
  let aus := entry_authors e in
  let G1 := fold_left count_editor eds G in
  let G2 := fold_left count_author aus G1 in
  let G3 := editor_loop issue ttl eds aus G2 in
  coauthor_loop issue ttl aus G3.

Definition build_from (G : DiGraph) (articles : list entry) : DiGraph :=
  fold_left add_entry articles G.

Definition build_partially_directed_graph (articles : list entry) : DiGraph :=
  build_from empty_graph articles.

(** ** 3. Suspicious patterns *)

Inductive role := Editor | Author.

Definition role_eqb (a b : role) : bool :=
  match a, b with
  | Editor, Editor | Author, Author => true
  | _, _ => false
  end.

(** A Python [set] of role names. *)
Abbreviation role_set := (list role).

Definition role_in (r : role) (s : role_set) : bool := existsb (role_eqb r) s.

Definition role_add (r : role) (s : role_set) : role_set :=
  if role_in r s then s else s ++ [r].

Abbreviation roles_map := (Dict.t string (Dict.t string role_set)).

(** [m.setdefault(p, {}).setdefault(iss, set()).add(r)] *)
Definition add_role (p iss : string) (r : role) (m : roles_map) : roles_map :=
  let inner := Dict.get_or p [] m in
  let rs := Dict.get_or iss [] inner in
  Dict.set p (Dict.set iss (role_add r rs) inner) m.

Definition is_editor_edge (d : edge_attr) : bool :=
  contains EDITOR_TO_AUTHOR (relationship d).

Definition is_coauthor_edge (d : edge_attr) : bool :=
  contains CO_AUTHOR (relationship d).

(** Lines 142-146. *)
Definition person_issue_roles (G : DiGraph) : roles_map :=
  fold_left
    (fun m '(u, v, d) =>
       if is_editor_edge d
       then fold_left
              (fun m iss => add_role v iss Author (add_role u iss Editor m))
              (issues d) m
       else m)
    (edges G) [].

Record self_overlap_rec := { person : string; issue : string }.

(** Lines 149-155. *)
Definition self_overlaps (m : roles_map) : list self_overlap_rec :=
  flat_map
    (fun '(p, per_issue) =>
       flat_map
         (fun '(iss, rs) =>
            if role_in Editor rs && role_in Author rs
            then [{| person := p; issue := iss |}] else [])
         per_issue)
    m.

Abbreviation pair_map := (Dict.t (string * string) (list string)).

(** Lines 159-163: [ed_au_map.setdefault((u, v), []).append(iss)]. *)
Definition ed_au_map (G : DiGraph) : pair_map :=
  fold_left
    (fun m '(u, v, d) =>
       if is_editor_edge d
       then fold_left
              (fun m iss => Dict.set (u, v) (Dict.get_or (u, v) [] m ++ [iss]) m)
              (issues d) m
       else m)
    (edges G) [].

Record reciprocal_rec := {
  personA : string;
  personB : string;
  issues_A_ed_B_auth : list string;
  issues_B_ed_A_auth : list string
}.

(** Lines 166-174. *)
Definition reciprocals (m : pair_map) : list reciprocal_rec :=
  flat_map
    (fun '((u, v), issues_uv) =>
       match Dict.get (v, u) m with
       | Some issues_vu =>
           [{| personA := u; personB := v;
               issues_A_ed_B_auth := issues_uv;
               issues_B_ed_A_auth := issues_vu |}]
       | None => []
       end)
    m.

Record suspicions := {
  self_overlap : list self_overlap_rec;
  reciprocal : list reciprocal_rec
}.

Definition detect_suspicious_patterns (G : DiGraph) : suspicions :=
  {| self_overlap := self_overlaps (person_issue_roles G);
     reciprocal := reciprocals (ed_au_map G) |}.

(** ** 4. Scoring *)

Abbreviation score_map := (Dict.t string Z).

(** [score_map[p] = score_map.get(p, 0) + k] *)
Definition bump (k : Z) (p : string) (m : score_map) : score_map :=
  Dict.set p (Dict.get_or p 0%Z m + k)%Z m.

Definition score_self (m : score_map) (s : self_overlap_rec) : score_map :=
  bump 3%Z (person s) m.

Definition score_recip (m : score_map) (r : reciprocal_rec) : score_map :=
  bump 2%Z (personB r) (bump 2%Z (personA r) m).

Definition score_suspicion (s : suspicions) : score_map :=
  fold_left score_recip (reciprocal s) (fold_left score_self (self_overlap s) []).

(** ** 5. Co-author clusters *)

Definition str_in (x : string) (l : list string) : bool :=
  existsb (String.eqb x) l.

(** Lines 216-219. *)
Definition co_edges (G : DiGraph) : list (string * string) :=
  flat_map
    (fun '(u, v, d) => if is_coauthor_edge d then [(u, v)] else [])
    (edges G).

(** Nodes of [G.edge_subgraph(co_edges)]: the endpoints of the kept edges. *)
Definition endpoint_of (es : list (string * string)) (n : string) : bool :=
  existsb (fun '(u, v) => String.eqb n u || String.eqb n v) es.

Definition co_nodes (G : DiGraph) : list string :=
  filter (endpoint_of (co_edges G)) (Dict.keys (nodes G)).

(** Adjacency of [to_undirected()]: successors and predecessors alike. *)
Definition neighbours (es : list (string * string)) (n : string) : list string :=
  flat_map
    (fun '(u, v) =>
       (if String.eqb n u then [v] else []) ++
       (if String.eqb n v then [u] else []))
    es.

(** One level of networkx's breadth-first search: every unseen neighbour of
    the current level joins [seen] and the next level. *)
Definition visit (acc : list string * list string) (w : string)
  : list string * list string :=
  let '(seen, next) := acc in
  if str_in w seen then acc else (seen ++ [w], next ++ [w]).

Definition bfs_level (es : list (string * string)) (seen level : list string)
  : list string * list string :=
  fold_left (fun acc v => fold_left visit (neighbours es v) acc) level (seen, []).

(** The [while nextlevel] loop; a component has at most [fuel] nodes, which
    bounds the number of levels (lemma [plain_bfs_closed]). *)
Fixpoint plain_bfs (fuel : nat) (es : list (string * string))
    (seen level : list string) : list string :=
  match fuel with
  | 0 => seen
  | S fuel' =>
      match level with
      | [] => seen
      | _ => let '(seen', next) := bfs_level es seen level in
             plain_bfs fuel' es seen' next
      end
  end.

(** [nx.connected_components]: the nodes are scanned in [order]; networkx
    leaves that order to the iteration of a node set, so it is a parameter. *)
Fixpoint components (fuel : nat) (es : list (string * string))
    (order seen : list string) : list (list string) :=
  match order with
  | [] => []
  | v :: rest =>
      if str_in v seen then components fuel es rest seen
      else let c := plain_bfs fuel es [v] [v] in
           c :: components fuel es rest (seen ++ c)
  end.

(** [sorted] on strings: Python compares code points, here bytes. *)
Fixpoint insert_sorted (x : string) (l : list string) : list string :=
  match l with
  | [] => [x]
  | y :: l' => if String.leb x y then x :: l else y :: insert_sorted x l'
  end.

Definition sorted (l : list string) : list string :=
  fold_right insert_sorted [] l.

(** Lines 226-231. *)
Definition clusters_of (comps : list (list string)) : list (list string) :=
  flat_map
    (fun comp => let comp_list := sorted comp in
                 if 2 <? List.length comp_list then [comp_list] else [])
    comps.

Definition clusters_in_order (order : list string) (G : DiGraph)
  : list (list string) :=
  clusters_of (components (List.length order) (co_edges G) order []).

Definition find_coauthor_clusters_directed (G : DiGraph) : list (list string) :=
  clusters_in_order (co_nodes G) G.

(** ** Well-formed graphs *)

(** What networkx guarantees of a [DiGraph]: dictionary keys are unique, every
    node has an adjacency entry only if it is a node, and edges end in nodes. *)
Record graph_wf (G : DiGraph) : Prop := {
  wf_nodes : NoDup (Dict.keys (nodes G));
  wf_adj : NoDup (Dict.keys (adj G));
  wf_nbrs : forall u nbrs, In (u, nbrs) (adj G) -> NoDup (Dict.keys nbrs);
  wf_src : forall n, has_node n G = false -> Dict.get n (adj G) = None;
  wf_dst : forall u v, has_edge u v G = true -> has_node v G = true
}.
Arguments wf_nodes {G}.
Arguments wf_adj {G}.
Arguments wf_nbrs {G}.
Arguments wf_src {G}.
Arguments wf_dst {G}.

(** ** Contributions of the records to an ordered pair *)

Definition count {K} `{Key K} (k : K) (l : list K) : nat :=
  List.length (filter (keqb k) l).

(** The pairs [(authors[i], authors[j])] with [i < j], in loop order. *)
Fixpoint pairs (l : list string) : list (string * string) :=
  match l with
  | [] => []
  | a :: rest => map (pair a) rest ++ pairs rest
  end.

(** How often a record makes [u] an editor of [v]: once per occurrence of [u]
    among its editors and of [v] among its authors. *)
Definition ed_contrib (u v : string) (e : entry) : nat :=
  count u (entry_editors e) * count v (entry_authors e).

(** How often a record makes [u] and [v] co-authors on the edge [u -> v]: each
    pair of positions [i < j] holding the two names counts once for each
    direction in which it matches. *)
Definition co_contrib (u v : string) (e : entry) : nat :=
  count (u, v) (pairs (entry_authors e)) + count (v, u) (pairs (entry_authors e)).

Definition total (f : entry -> nat) (articles : list entry) : nat :=
  list_sum (map f articles).

(** Occurrences of a name in the editor and author lists. *)
Definition editor_occ (n : string) (e : entry) : nat := count n (entry_editors e).
Definition author_occ (n : string) (e : entry) : nat := count n (entry_authors e).

(** ** What an edge of a built graph looks like *)

(** The label after [ne] editor and [nc] co-author contributions to a pair:
    each kind is named once, in the order in which the kinds first arrived. *)
Definition label_ok (ne nc : nat) (r : string) : Prop :=
  (0 < ne /\ nc = 0 /\ r = "editor_to_author") \/
  (ne = 0 /\ 0 < nc /\ r = "co_author") \/
  (0 < ne /\ 0 < nc /\
   (r = "editor_to_author,co_author" \/ r = "co_author,editor_to_author")).

Definition edge_ok (ne nc : nat) (o : option edge_attr) : Prop :=
  match o with
  | None => ne = 0 /\ nc = 0
  | Some d => label_ok ne nc (relationship d) /\
              List.length (issues d) = ne + nc /\
              List.length (titles d) = ne + nc
  end.

(** The edge [u -> v] exists and its label names [kind]. *)
Definition labelled (kind u v : string) (G : DiGraph) : Prop :=
  exists d, edge_at u v G = Some d /\ contains kind (relationship d) = true.

(** The edge [u -> v] exists and lists the venue [iss]. *)
Definition has_issue (iss u v : string) (G : DiGraph) : Prop :=
  exists d, edge_at u v G = Some d /\ In iss (issues d).

Definition node_at (n : string) (G : DiGraph) : option node_attr :=
  Dict.get n (nodes G).

(** A node exists once its name has occurred, and its counters are the
    numbers of occurrences. *)
Definition node_ok (n : string) (ce ca : nat) (o : option node_attr) : Prop :=
  match o with
  | None => ce = 0 /\ ca = 0
  | Some a => name a = n /\ editor_count a = Z.of_nat ce /\
              author_count a = Z.of_nat ca /\ 0 < ce + ca
  end.

(** The state of the graph after the records [articles], pair by pair and
    node by node. *)
Record built (articles : list entry) (G : DiGraph) : Prop := {
  built_wf : graph_wf G;
  built_edge : forall u v,
    edge_ok (total (ed_contrib u v) articles) (total (co_contrib u v) articles)
            (edge_at u v G);
  built_node : forall n,
    node_ok n (total (editor_occ n) articles) (total (author_occ n) articles)
            (node_at n G)
}.


(** ** Sample records *)

Definition article (t j s : string) (eds aus : list string) : entry :=
  {| title := Some t; journal := Some j; special_issue := Some s;
     editors := Some eds; authors := Some aus |}.

(** An editor who is also the first of two authors of the same article. *)
Definition editor_among_authors : list entry :=
  [article "T1" "J" "S" ["a"] ["a"; "b"]].


(** ** What the detector should find, read off the edge list *)

(** The roles recorded for [p] at venue [iss]. *)
Definition roles_at (p iss : string) (m : roles_map) : role_set :=
  Dict.get_or iss [] (Dict.get_or p [] m).

(** Some edge labelled [editor_to_author] leaves [p] and lists [iss]. *)
Definition edits_at (G : DiGraph) (p iss : string) : bool :=
  existsb
    (fun e => is_editor_edge (snd e) && String.eqb (fst (fst e)) p &&
              str_in iss (issues (snd e)))
    (edges G).

(** Some edge labelled [editor_to_author] enters [p] and lists [iss]. *)
Definition authors_at (G : DiGraph) (p iss : string) : bool :=
  existsb
    (fun e => is_editor_edge (snd e) && String.eqb (snd (fst e)) p &&
              str_in iss (issues (snd e)))
    (edges G).

(** The rows of a dictionary of dictionaries, in iteration order. *)
Definition flatten {V} (m : Dict.t string (Dict.t string V))
  : list (string * string * V) :=
  flat_map (fun '(u, inner) => map (fun '(v, x) => (u, v, x)) inner) m.

Definition nested_wf {V} (m : Dict.t string (Dict.t string V)) : Prop :=
  NoDup (Dict.keys m) /\
  forall u inner, In (u, inner) m -> NoDup (Dict.keys inner).

(** Self-overlap records naming [p] and [iss]. *)
Definition self_overlaps_of (p iss : string) (l : list self_overlap_rec)
  : list self_overlap_rec :=
  filter (fun s => keqb (person s, issue s) (p, iss)) l.

(** Reciprocal records with [personA = a] and [personB = b]. *)
Definition reciprocals_of (a b : string) (l : list reciprocal_rec)
  : list reciprocal_rec :=
  filter (fun r => keqb (personA r, personB r) (a, b)) l.

(** Two people who each edit an article of the other, at different venues. *)
Definition mutual_editors : list entry :=
  [article "T1" "J" "V1" ["a"] ["b"]; article "T2" "J" "V2" ["b"] ["a"]].

(** [a] edits an article of [b]; later the two write one together, which has
    no editor at all. *)
Definition edited_then : list entry := [article "T1" "J" "V1" ["a"] ["b"]].

Definition coauthored : entry :=
  {| title := Some "T2"; journal := Some "J"; special_issue := Some "V2";
     editors := None; authors := Some ["a"; "b"] |}.

(** Two mutual editors who also write one article together, at a venue
    [V3] where nobody edits anything. *)
Definition mutual_then_coauthored : list entry :=
  mutual_editors ++
  [{| title := Some "T3"; journal := Some "J"; special_issue := Some "V3";
      editors := None; authors := Some ["a"; "b"] |}].

(** Records implicating [p] among the reciprocal ones. *)
Definition implicates (p : string) (r : reciprocal_rec) : bool :=
  String.eqb (personA r) p || String.eqb (personB r) p.

(** One self-overlap and one reciprocal record, both about the same person. *)
Definition own_editor : suspicions :=
  {| self_overlap := [{| person := "a"; issue := "J :: S" |}];
     reciprocal := [{| personA := "a"; personB := "a";
                       issues_A_ed_B_auth := ["J :: S"];
                       issues_B_ed_A_auth := ["J :: S"] |}] |}.

(** ** What a tolerant loader would return *)

(** The records a source contributes when it is usable. *)
Definition contents (fs : string -> source) (fpath : string) : list entry :=
  match fs fpath with Readable data => data | _ => [] end.

(** The line a source makes the loader print when it is skipped. *)
Definition complaint (fs : string -> source) (fpath : string) : list message :=
  match fs fpath with
  | Missing => [File_not_found fpath]
  | Unparseable => [Error_reading fpath]
  | _ => []
  end.

(** A file system in which the path [.] is the only thing that exists: a
    directory, which [open] refuses. *)
Definition only_a_directory (fpath : string) : source :=
  if String.eqb fpath "." then Unopenable else Missing.

(** ** Co-authorship as an undirected relation *)

(** Two names joined by an edge of [es], in either direction. *)
Definition adjacent (es : list (string * string)) (x y : string) : Prop :=
  In (x, y) es \/ In (y, x) es.

Definition connected (es : list (string * string)) : string -> string -> Prop :=
  clos_refl_trans string (adjacent es).

(** [x] and [y] are joined by an edge of [G] whose label names [co_author]. *)
Definition co_adjacent (G : DiGraph) (x y : string) : Prop :=
  labelled CO_AUTHOR x y G \/ labelled CO_AUTHOR y x G.

Definition co_connected (G : DiGraph) : string -> string -> Prop :=
  clos_refl_trans string (co_adjacent G).

(** The component of [v] has at least three members. *)
Definition roomy (G : DiGraph) (v : string) : Prop :=
  exists x y, x <> y /\ x <> v /\ y <> v /\
              co_connected G v x /\ co_connected G v y.

Definition str_lt (a b : string) : Prop := String.ltb a b = true.
Definition str_le (a b : string) : Prop := String.leb a b = true.

(** An order in which the component scan may meet the nodes: any list
    holding every endpoint of a co-author edge. *)
Definition scan_order (G : DiGraph) (order : list string) : Prop :=
  forall x y, co_adjacent G x y -> In y order.

(** One article by three authors, and one by two. *)
Definition trio : entry := article "T3" "J" "S" ["ed"] ["zoe"; "yan"; "xia"].
Definition duo : entry := article "T2" "J" "S" ["ed"] ["zoe"; "yan"].

(** ** Auxiliary definitions used to state the lemmas *)

(** What [link] leaves at a key: the created or merged data at its own key,
    the old data elsewhere. *)
Definition upsert (kind iss ttl : string) (o : option edge_attr) : edge_attr :=
  match o with
  | None => fresh_edge kind iss ttl
  | Some d => merge_edge kind iss ttl d
  end.

Definition link_op (iss ttl : string) (G : DiGraph)
    (op : string * (string * string)) : DiGraph :=
  link (fst op) iss ttl (fst (snd op)) (snd (snd op)) G.

Definition apply_ops (iss ttl : string) (ops : list (string * (string * string)))
    (G : DiGraph) : DiGraph :=
  fold_left (link_op iss ttl) ops G.

Definition ed_ops (eds aus : list string) : list (string * (string * string)) :=
  flat_map (fun ed => map (fun au => (EDITOR_TO_AUTHOR, (ed, au))) aus) eds.

Definition co_ops (aus : list string) : list (string * (string * string)) :=
  flat_map (fun p => [(CO_AUTHOR, p); (CO_AUTHOR, (snd p, fst p))]) (pairs aus).

Definition entry_ops (e : entry) : list (string * (string * string)) :=
  ed_ops (entry_editors e) (entry_authors e) ++ co_ops (entry_authors e).

Definition op_kind_ok (op : string * (string * string)) : Prop :=
  fst op = EDITOR_TO_AUTHOR \/ fst op = CO_AUTHOR.

Definition op_in_nodes (G : DiGraph) (op : string * (string * string)) : Prop :=
  has_node (fst (snd op)) G = true /\ has_node (snd (snd op)) G = true.

(** The two roles one venue of one edge records. *)
Definition record_roles (u v : string) (m : roles_map) (iss : string) : roles_map :=
  add_role v iss Author (add_role u iss Editor m).

Definition roles_step (m : roles_map) (e : string * string * edge_attr) : roles_map :=
  let '(u, v, d) := e in
  if is_editor_edge d then fold_left (record_roles u v) (issues d) m else m.

Definition role_end (r : role) (e : string * string * edge_attr) : string :=
  match r with Editor => fst (fst e) | Author => snd (fst e) end.

Definition overlap_row (e : string * string * role_set) : list self_overlap_rec :=
  let '(p, iss, rs) := e in
  if role_in Editor rs && role_in Author rs
  then [{| person := p; issue := iss |}] else [].

Definition add_issue (k : string * string) (m : pair_map) (iss : string) : pair_map :=
  Dict.set k (Dict.get_or k [] m ++ [iss]) m.

Definition ed_au_step (m : pair_map) (e : string * string * edge_attr) : pair_map :=
  let '(u, v, d) := e in
  if is_editor_edge d then fold_left (add_issue (u, v)) (issues d) m else m.

Definition editor_issues (o : option edge_attr) : option (list string) :=
  match o with
  | Some d =>
      if is_editor_edge d
      then match issues d with [] => None | _ => Some (issues d) end
      else None
  | None => None
  end.

Definition recip_row (m : pair_map) (kv : string * string * list string)
  : list reciprocal_rec :=
  let '((u, v), issues_uv) := kv in
  match Dict.get (v, u) m with
  | Some issues_vu =>
      [{| personA := u; personB := v;
          issues_A_ed_B_auth := issues_uv;
          issues_B_ed_A_auth := issues_vu |}]
  | None => []
  end.

(** ** Further notions used by the additional properties *)

(** [d'] is [d] with more appended: the label, the venues and the titles of
    [d] are kept in front. *)
Definition extends (d d' : edge_attr) : Prop :=
  exists r i t,
    relationship d' = (relationship d ++ r)%string /\
    issues d' = issues d ++ i /\
    titles d' = titles d ++ t.

(** The venues and titles of an edge are aligned and every aligned pair
    satisfies [Q]. *)
Definition sourced (Q : string -> string -> Prop) (o : option edge_attr) : Prop :=
  match o with
  | None => True
  | Some d =>
      List.length (issues d) = List.length (titles d) /\
      forall i t, In (i, t) (combine (issues d) (titles d)) -> Q i t
  end.

(** Some record of [articles] relates [u] to [v] and has this venue and
    title. *)
Definition from_record (articles : list entry) (u v i t : string) : Prop :=
  exists e, In e articles /\ i = issue_id e /\ t = entry_title e /\
            0 < ed_contrib u v e + co_contrib u v e.

(** A corpus with a missing file, a file that does not parse and two usable
    files. *)
Definition patchy_files (fpath : string) : source :=
  if String.eqb fpath "a.json" then Readable edited_then
  else if String.eqb fpath "b.json" then Unparseable
  else if String.eqb fpath "c.json" then Readable [coauthored]
  else Missing.

(** The reciprocal record read from the other person's side. *)
Definition mirror (r : reciprocal_rec) : reciprocal_rec :=
  {| personA := personB r; personB := personA r;
     issues_A_ed_B_auth := issues_B_ed_A_auth r;
     issues_B_ed_A_auth := issues_A_ed_B_auth r |}.

(** The sum of all scores of a score map. *)
Definition sum_scores (m : score_map) : Z :=
  fold_right (fun kv acc => (snd kv + acc)%Z) 0%Z m.

Definition swap_pair (k : string * string) : string * string := (snd k, fst k).

Definition pair_of (r : reciprocal_rec) : string * string := (personA r, personB r).

(** ** 6. Visualization: what each node and edge is drawn with *)

(** Lines 255-257. *)
Definition node_colour (sc : Z) : string :=
  if (0 <? sc)%Z then (if (sc <? 5)%Z then "#ff9900" else "#ff0000")
  else "#00ff00".

(** [f"{sc}"] for an integer. *)
Definition show_int (z : Z) : string := NilZero.string_of_int (Z.to_int z).

Record drawn_node := {
  node_id : string;
  node_label : string;
  node_title : string;
  node_color : string
}.

(** Lines 253-258: one [net.add_node] per node, in node order. *)
Definition drawn_nodes (G : DiGraph) (scores : score_map) : list drawn_node :=
  map (fun node =>
         let sc := Dict.get_or node 0%Z scores in
         {| node_id := node; node_label := node;
            node_title := ("Suspicion: " ++ show_int sc)%string;
            node_color := node_colour sc |})
      (Dict.keys (nodes G)).

(** Lines 264-279: the [label] of the [net.add_edge] call for an edge with
    label [rel]; [arrows] is ['to'] in all three branches.  The tooltip, which
    prints the venue list the way Python prints a list, is not modelled. *)
Definition edge_label (rel : string) : string :=
  if contains EDITOR_TO_AUTHOR rel then "editor->author"
  else if contains CO_AUTHOR rel then "co_author"
  else rel.

Definition drawn_edges (G : DiGraph) : list (string * string * string) :=
  map (fun e => (fst (fst e), snd (fst e), edge_label (relationship (snd e))))
      (edges G).

(** ** The score listing of [main] *)

(** Line 324: [sorted(scores.items(), key=lambda x: -x[1])], a stable sort. *)
Fixpoint insert_by_score (x : string * Z) (l : list (string * Z))
  : list (string * Z) :=
  match l with
  | [] => [x]
  | y :: l' =>
      if (- snd x <=? - snd y)%Z then x :: l else y :: insert_by_score x l'
  end.

Definition by_score_desc (items : list (string * Z)) : list (string * Z) :=
  fold_right insert_by_score [] items.

(** ** The scraper: journal and year of a search result *)

(** [s.split(sep)] for a one-character separator. *)
Fixpoint split_on (sep : ascii) (s : string) : list string :=
  match s with
  | EmptyString => [EmptyString]
  | String c rest =>
      if Ascii.eqb c sep then EmptyString :: split_on sep rest
      else match split_on sep rest with
           | w :: ws => String c w :: ws
           | [] => [String c EmptyString]
           end
  end.

(** [s.replace(old, new)] for a non-empty [old]: occurrences are replaced
    from the left and do not overlap; [skip] counts the characters of an
    occurrence still to be passed over. *)
Fixpoint replace_from (skip : nat) (old new s : string) : string :=
  match s with
  | EmptyString => EmptyString
  | String c rest =>
      match skip with
      | S k => replace_from k old new rest
      | 0 =>
          if String.prefix old s
          then (new ++ replace_from (String.length old - 1) old new rest)%string
          else String c (replace_from 0 old new rest)
      end
  end.

Definition replace (old new s : string) : string := replace_from 0 old new s.

(** [scrape_mdpi_articles], lines 88-91, from the text of the grey line of a
    search result: [None] stands for the [IndexError] of [journal_parts[1]],
    which nothing catches. *)
Definition journal_and_year (text : string) : option (string * string) :=
  let journal_text := strip text in
  let journal_parts := split_on "," journal_text in
  match journal_parts with
  | j :: y :: _ =>
      Some (replace "</em>" "" (replace "<em>" "" (strip j)), strip y)
  | _ => None
  end.

Fixpoint has_char (c : ascii) (s : string) : bool :=
  match s with
  | EmptyString => false
  | String x rest => Ascii.eqb x c || has_char c rest
  end.

Fixpoint all_space (s : string) : bool :=
  match s with
  | EmptyString => true
  | String c rest => is_space c && all_space rest
  end.

(** [str.isascii]: every character lies in the ASCII range 0-127, the range
    on which [is_space] and [lower_ascii] are Python's [str.strip] and
    [str.lower]. *)
Fixpoint isascii (s : string) : bool :=
  match s with
  | EmptyString => true
  | String c rest => (nat_of_ascii c <? 128)%nat && isascii rest
  end.

(** The string is empty or begins with a character that is not a space. *)
Definition no_lead (s : string) : Prop :=
  match s with
  | EmptyString => True
  | String c _ => is_space c = false
  end.

(** * Properties *)

(** ** Keys *)

#[export] Instance string_KeyLaws : KeyLaws string.
Proof. constructor. exact String.eqb_spec. Qed.

#[export] Instance pair_KeyLaws {A B} `{KeyLaws A} `{KeyLaws B} : KeyLaws (A * B).
Proof.
  constructor. intros [a b] [c d]. simpl.
  destruct (keqb_spec a c); simpl.
  - destruct (keqb_spec b d); constructor; congruence.
  - constructor; congruence.
Qed.

Lemma keqb_refl {K} `{KeyLaws K} (a : K) : keqb a a = true.
Proof. destruct (keqb_spec a a); congruence. Qed.

Lemma keqb_eq {K} `{KeyLaws K} (a b : K) : keqb a b = true <-> a = b.
Proof. destruct (keqb_spec a b); split; congruence. Qed.

Lemma keqb_neq {K} `{KeyLaws K} (a b : K) : keqb a b = false <-> a <> b.
Proof. destruct (keqb_spec a b); split; congruence. Qed.

Lemma keqb_sym {K} `{KeyLaws K} (a b : K) : keqb a b = keqb b a.
Proof. destruct (keqb_spec a b), (keqb_spec b a); congruence. Qed.

Ltac key_cases a b :=
  let E := fresh "E" in
  destruct (keqb_spec a b) as [E | E]; [try subst | idtac]; simpl.

(** ** Dictionaries *)

Section DictFacts.
Context {K V : Type} `{KeyLaws K}.
Implicit Types (d : Dict.t K V) (k : K) (v : V).

Lemma get_set k' k v d :
  Dict.get k' (Dict.set k v d) = if keqb k' k then Some v else Dict.get k' d.
Proof.
  induction d as [| [k0 v0] d IH]; simpl.
  - reflexivity.
  - key_cases k k0.
    + key_cases k' k0; reflexivity.
    + rewrite IH. key_cases k' k0; [| reflexivity].
      destruct (keqb_spec k0 k); congruence.
Qed.

Lemma get_set_same k v d : Dict.get k (Dict.set k v d) = Some v.
Proof. rewrite get_set, keqb_refl. reflexivity. Qed.

Lemma get_set_other k' k v d :
  k' <> k -> Dict.get k' (Dict.set k v d) = Dict.get k' d.
Proof. intros N. rewrite get_set. apply keqb_neq in N. now rewrite N. Qed.

Lemma mem_set k' k v d :
  Dict.mem k' (Dict.set k v d) = keqb k' k || Dict.mem k' d.
Proof.
  unfold Dict.mem. rewrite get_set. destruct (keqb k' k); reflexivity.
Qed.

Lemma get_None_keys k d : Dict.get k d = None <-> ~ In k (Dict.keys d).
Proof.
  induction d as [| [k0 v0] d IH]; simpl.
  - tauto.
  - key_cases k k0.
    + split; [discriminate | intros N; exfalso; apply N; now left].
    + rewrite IH. split; [intros N [F | F]; congruence | tauto].
Qed.

Lemma mem_keys k d : Dict.mem k d = true <-> In k (Dict.keys d).
Proof.
  unfold Dict.mem. destruct (Dict.get k d) eqn:G.
  - split; [intros _ | reflexivity].
    destruct (in_dec (fun a b => reflect_dec _ _ (keqb_spec a b)) k (Dict.keys d))
      as [I | N]; [exact I |].
    apply get_None_keys in N. congruence.
  - apply get_None_keys in G. split; [discriminate | tauto].
Qed.

Lemma keys_set k v d :
  Dict.keys (Dict.set k v d) =
  if Dict.mem k d then Dict.keys d else Dict.keys d ++ [k].
Proof.
  unfold Dict.mem.
  induction d as [| [k0 v0] d IH]; simpl.
  - reflexivity.
  - key_cases k k0; [reflexivity |].
    unfold Dict.keys in *. rewrite IH.
    destruct (Dict.get k d); reflexivity.
Qed.

Lemma NoDup_keys_set k v d :
  NoDup (Dict.keys d) -> NoDup (Dict.keys (Dict.set k v d)).
Proof.
  intros N. rewrite keys_set. destruct (Dict.mem k d) eqn:M; [exact N |].
  apply NoDup_app; [exact N | repeat constructor; simpl; tauto |].
  intros x I [<- | []]. apply mem_keys in I. congruence.
Qed.

Lemma get_In k v d : Dict.get k d = Some v -> In (k, v) d.
Proof.
  induction d as [| [k0 v0] d IH]; simpl; [discriminate |].
  key_cases k k0.
  - intros [= ->]. now left.
  - intros G. right. auto.
Qed.

Lemma In_get k v d : NoDup (Dict.keys d) -> In (k, v) d -> Dict.get k d = Some v.
Proof.
  induction d as [| [k0 v0] d IH]; simpl; [tauto |].
  intros N [E | I].
  - injection E as -> ->. now rewrite keqb_refl.
  - inversion N as [| ? ? N1 N2]; subst.
    key_cases k k0.
    + exfalso. apply N1. change k0 with (fst (k0, v)). now apply in_map.
    + auto.
Qed.

Lemma In_iff_get k v d :
  NoDup (Dict.keys d) -> (In (k, v) d <-> Dict.get k d = Some v).
Proof. intros N. split; [now apply In_get | apply get_In]. Qed.

Lemma get_or_set k' k v dflt d :
  Dict.get_or k' dflt (Dict.set k v d) =
  if keqb k' k then v else Dict.get_or k' dflt d.
Proof. unfold Dict.get_or. rewrite get_set. destruct (keqb k' k); reflexivity. Qed.
End DictFacts.

(** ** Graph operations *)

Ltac norm_keys := cbn [keqb string_Key pair_Key fst snd] in *.

Ltac str_cases a b :=
  let E := fresh "E" in
  norm_keys; destruct (String.eqb_spec a b) as [E | E]; [try subst | idtac];
  cbn [andb orb].

Lemma edge_at_add_edge u' v' u v d G :
  edge_at u' v' (add_edge u v d G) =
  if keqb (u', v') (u, v) then Some d else edge_at u' v' G.
Proof.
  unfold edge_at, add_edge; cbn [adj]. rewrite get_set.
  str_cases u' u; [| reflexivity].
  rewrite get_set. str_cases v' v; [reflexivity |].
  unfold Dict.get_or. destruct (Dict.get u (adj G)); reflexivity.
Qed.

Lemma nodes_add_edge u v d G : nodes (add_edge u v d G) = nodes G.
Proof. reflexivity. Qed.

Lemma nodes_link k iss t u v G : nodes (link k iss t u v G) = nodes G.
Proof. unfold link. destruct (edge_at u v G); reflexivity. Qed.

Lemma has_node_link k iss t u v G n :
  has_node n (link k iss t u v G) = has_node n G.
Proof. unfold has_node. now rewrite nodes_link. Qed.

Lemma edge_at_link u' v' k iss t u v G :
  edge_at u' v' (link k iss t u v G) =
  if keqb (u', v') (u, v) then Some (upsert k iss t (edge_at u v G))
  else edge_at u' v' G.
Proof.
  unfold link. destruct (edge_at u v G) eqn:E; rewrite edge_at_add_edge; reflexivity.
Qed.

Lemma edge_at_link_same k iss t u v G :
  edge_at u v (link k iss t u v G) = Some (upsert k iss t (edge_at u v G)).
Proof. rewrite edge_at_link, keqb_refl. reflexivity. Qed.

Lemma edge_at_link_other u' v' k iss t u v G :
  (u', v') <> (u, v) ->
  edge_at u' v' (link k iss t u v G) = edge_at u' v' G.
Proof. intros N. rewrite edge_at_link. apply keqb_neq in N. now rewrite N. Qed.

Lemma has_node_ensure n m G :
  has_node n (ensure_node m G) = String.eqb n m || has_node n G.
Proof.
  unfold ensure_node. destruct (has_node m G) eqn:M.
  - destruct (String.eqb_spec n m); subst; simpl; [now rewrite M | reflexivity].
  - unfold add_node. rewrite M. unfold has_node; simpl. now rewrite mem_set.
Qed.

Lemma adj_incr_editor n G : adj (incr_editor n G) = adj G.
Proof. unfold incr_editor. destruct (Dict.get n (nodes G)); reflexivity. Qed.

Lemma adj_incr_author n G : adj (incr_author n G) = adj G.
Proof. unfold incr_author. destruct (Dict.get n (nodes G)); reflexivity. Qed.

Lemma has_node_incr_editor n m G :
  has_node n (incr_editor m G) = has_node n G.
Proof.
  unfold incr_editor, has_node. destruct (Dict.get m (nodes G)) eqn:E; [| reflexivity].
  simpl. rewrite mem_set. str_cases n m; [| reflexivity].
  unfold Dict.mem. now rewrite E.
Qed.

Lemma has_node_incr_author n m G :
  has_node n (incr_author m G) = has_node n G.
Proof.
  unfold incr_author, has_node. destruct (Dict.get m (nodes G)) eqn:E; [| reflexivity].
  simpl. rewrite mem_set. str_cases n m; [| reflexivity].
  unfold Dict.mem. now rewrite E.
Qed.

Lemma edge_at_ensure u v n G :
  graph_wf G -> edge_at u v (ensure_node n G) = edge_at u v G.
Proof.
  intros W. unfold ensure_node. destruct (has_node n G) eqn:M; [reflexivity |].
  unfold add_node. rewrite M. unfold edge_at; simpl. rewrite get_set.
  str_cases u n; [| reflexivity].
  now rewrite (wf_src W _ M).
Qed.

Lemma graph_wf_empty : graph_wf empty_graph.
Proof.
  constructor; simpl; try constructor; try tauto; try discriminate.
Qed.

Lemma graph_wf_ensure n G : graph_wf G -> graph_wf (ensure_node n G).
Proof.
  intros W. unfold ensure_node. destruct (has_node n G) eqn:M; [exact W |].
  pose proof (wf_src W _ M) as A.
  unfold add_node. rewrite M.
  constructor; simpl.
  - apply NoDup_keys_set, W.
  - apply NoDup_keys_set, W.
  - intros u nbrs I. apply In_iff_get in I; [| apply NoDup_keys_set, W].
    rewrite get_set in I. str_cases u n.
    + injection I as <-. constructor.
    + apply get_In in I. eapply wf_nbrs; eauto.
  - intros m. unfold has_node; simpl. rewrite mem_set, get_set.
    str_cases m n; [discriminate |]. apply (wf_src W).
  - intros u v. unfold has_edge, edge_at, has_node; simpl.
    rewrite get_set, mem_set. str_cases u n.
    + discriminate.
    + intros E1. apply orb_true_iff. right.
      apply (wf_dst W u v). unfold has_edge, edge_at. exact E1.
Qed.

Lemma graph_wf_incr_editor n G : graph_wf G -> graph_wf (incr_editor n G).
Proof.
  intros W. unfold incr_editor. destruct (Dict.get n (nodes G)) eqn:E; [| exact W].
  assert (M : forall m a, Dict.mem m (Dict.set n a (nodes G)) = Dict.mem m (nodes G)).
  { intros m a. rewrite mem_set. str_cases m n; [| reflexivity].
    unfold Dict.mem. now rewrite E. }
  constructor; simpl; try apply W.
  - apply NoDup_keys_set, W.
  - intros m. unfold has_node; simpl. rewrite M. apply (wf_src W).
  - intros u v. unfold has_node; simpl. rewrite M. apply (wf_dst W).
Qed.

Lemma graph_wf_incr_author n G : graph_wf G -> graph_wf (incr_author n G).
Proof.
  intros W. unfold incr_author. destruct (Dict.get n (nodes G)) eqn:E; [| exact W].
  assert (M : forall m a, Dict.mem m (Dict.set n a (nodes G)) = Dict.mem m (nodes G)).
  { intros m a. rewrite mem_set. str_cases m n; [| reflexivity].
    unfold Dict.mem. now rewrite E. }
  constructor; simpl; try apply W.
  - apply NoDup_keys_set, W.
  - intros m. unfold has_node; simpl. rewrite M. apply (wf_src W).
  - intros u v. unfold has_node; simpl. rewrite M. apply (wf_dst W).
Qed.

Lemma graph_wf_add_edge u v d G :
  graph_wf G -> has_node u G = true -> has_node v G = true ->
  graph_wf (add_edge u v d G).
Proof.
  intros W Hu Hv. constructor; simpl.
  - apply W.
  - apply NoDup_keys_set, W.
  - intros x nbrs I. apply In_iff_get in I; [| apply NoDup_keys_set, W].
    rewrite get_set in I. str_cases x u.
    + injection I as <-. apply NoDup_keys_set.
      unfold Dict.get_or. destruct (Dict.get u (adj G)) eqn:E; [| constructor].
      apply get_In in E. eapply wf_nbrs; eauto.
    + apply get_In in I. eapply wf_nbrs; eauto.
  - intros n Hn. rewrite get_set. str_cases n u.
    + unfold has_node in *; simpl in *. congruence.
    + apply (wf_src W). exact Hn.
  - intros x y. unfold has_edge. rewrite edge_at_add_edge.
    change (has_node y (add_edge u v d G)) with (has_node y G).
    destruct (keqb_spec (x, y) (u, v)) as [E | E].
    + injection E as -> ->. auto.
    + apply (wf_dst W).
Qed.

Lemma graph_wf_link k iss t u v G :
  graph_wf G -> has_node u G = true -> has_node v G = true ->
  graph_wf (link k iss t u v G).
Proof.
  intros W Hu Hv. unfold link.
  destruct (edge_at u v G); now apply graph_wf_add_edge.
Qed.

(** ** The loops of the builder as a sequence of [link] operations *)

Lemma fold_left_flat_map {A B C} (f : A -> C -> A) (g : B -> list C) l a :
  fold_left f (flat_map g l) a = fold_left (fun a b => fold_left f (g b) a) l a.
Proof.
  revert a. induction l as [| b l IH]; intros a; simpl; [reflexivity |].
  now rewrite fold_left_app, IH.
Qed.

Lemma fold_left_map {A B C} (f : A -> C -> A) (g : B -> C) l a :
  fold_left f (map g l) a = fold_left (fun a b => f a (g b)) l a.
Proof. revert a. induction l; intros; simpl; auto. Qed.

Lemma fold_left_ext_in {A B} (f g : A -> B -> A) l a :
  (forall a b, In b l -> f a b = g a b) -> fold_left f l a = fold_left g l a.
Proof.
  revert a. induction l as [| b l IH]; intros a E; simpl; [reflexivity |].
  rewrite E by now left. apply IH. intros; apply E; now right.
Qed.

Lemma editor_loop_ops iss ttl eds aus G :
  editor_loop iss ttl eds aus G = apply_ops iss ttl (ed_ops eds aus) G.
Proof.
  unfold editor_loop, apply_ops, ed_ops. rewrite fold_left_flat_map.
  apply fold_left_ext_in. intros a ed _. now rewrite fold_left_map.
Qed.

(** Reading the list by index over a range is reading it in order. *)
Lemma fold_left_nth_seq {A} (f : A -> string -> A) pre l a :
  fold_left (fun a j => f a (nth j (pre ++ l) "")) (seq (List.length pre) (List.length l)) a
  = fold_left f l a.
Proof.
  revert pre a. induction l as [| x l IH]; intros pre a; simpl; [reflexivity |].
  rewrite app_nth2, Nat.sub_diag by lia. simpl.
  specialize (IH (pre ++ [x]) (f a x)).
  rewrite <- app_assoc in IH. cbn [app] in IH.
  replace (List.length (pre ++ [x])) with (S (List.length pre)) in IH
    by (rewrite length_app; simpl; lia).
  exact IH.
Qed.

Lemma coauthor_loop_from iss ttl pre l G :
  fold_left
    (fun G i =>
       fold_left
         (fun G j =>
            let a1 := nth i (pre ++ l) "" in
            let a2 := nth j (pre ++ l) "" in
            link CO_AUTHOR iss ttl a2 a1 (link CO_AUTHOR iss ttl a1 a2 G))
         (seq (i + 1) (List.length (pre ++ l) - (i + 1))) G)
    (seq (List.length pre) (List.length l)) G
  = apply_ops iss ttl (co_ops l) G.
Proof.
  revert pre G. induction l as [| a l IH]; intros pre G; [reflexivity |].
  cbn [List.length seq fold_left].
  specialize (IH (pre ++ [a])).
  rewrite <- app_assoc in IH. cbn [app] in IH.
  replace (List.length (pre ++ [a])) with (S (List.length pre)) in IH
    by (rewrite length_app; simpl; lia).
  rewrite IH. clear IH.
  unfold co_ops, apply_ops. cbn [pairs].
  rewrite flat_map_app, fold_left_app. f_equal.
  rewrite flat_map_concat_map, map_map, <- flat_map_concat_map.
  rewrite fold_left_flat_map. cbn [fst snd fold_left link_op].
  rewrite app_nth2, Nat.sub_diag by lia. cbn [nth].
  replace (List.length (pre ++ a :: l) - (List.length pre + 1)) with (List.length l)
    by (rewrite length_app; simpl; lia).
  pose proof (fold_left_nth_seq
                (fun G a2 => link CO_AUTHOR iss ttl a2 a (link CO_AUTHOR iss ttl a a2 G))
                (pre ++ [a]) l G) as F.
  rewrite <- app_assoc in F. cbn [app] in F.
  replace (List.length (pre ++ [a])) with (List.length pre + 1) in F
    by (rewrite length_app; simpl; lia).
  exact F.
Qed.

Lemma coauthor_loop_ops iss ttl aus G :
  coauthor_loop iss ttl aus G = apply_ops iss ttl (co_ops aus) G.
Proof. exact (coauthor_loop_from iss ttl [] aus G). Qed.

Lemma add_entry_ops G e :
  add_entry G e =
  apply_ops (issue_id e) (entry_title e) (entry_ops e)
    (fold_left count_author (entry_authors e)
       (fold_left count_editor (entry_editors e) G)).
Proof.
  unfold add_entry, entry_ops, apply_ops. rewrite fold_left_app.
  now rewrite editor_loop_ops, coauthor_loop_ops.
Qed.

(** ** Counting *)

Lemma count_cons {K} `{Key K} (k x : K) l :
  count k (x :: l) = (if keqb k x then 1 else 0) + count k l.
Proof. unfold count; simpl. destruct (keqb k x); reflexivity. Qed.

Lemma count_app {K} `{Key K} (k : K) l1 l2 :
  count k (l1 ++ l2) = count k l1 + count k l2.
Proof. unfold count. now rewrite filter_app, length_app. Qed.

Lemma count_nil {K} `{Key K} (k : K) : count k [] = 0.
Proof. reflexivity. Qed.

Lemma count_pos_In {K} `{KeyLaws K} (k : K) l : 0 < count k l <-> In k l.
Proof.
  induction l as [| x l IH]; simpl.
  - unfold count; simpl. lia.
  - rewrite count_cons. destruct (keqb_spec k x) as [-> | N].
    + split; [now left | lia].
    + simpl. rewrite IH. split; [now right | intros [E | I]; congruence].
Qed.

Lemma total_app f l1 l2 : total f (l1 ++ l2) = total f l1 + total f l2.
Proof. unfold total. now rewrite map_app, list_sum_app. Qed.

Lemma total_cons f e l : total f (e :: l) = f e + total f l.
Proof. reflexivity. Qed.

Lemma total_single f e : total f [e] = f e.
Proof. unfold total; simpl. lia. Qed.

Lemma total_pos f l : 0 < total f l <-> exists e, In e l /\ 0 < f e.
Proof.
  induction l as [| e l IH].
  - unfold total; simpl. split; [lia | intros (? & [] & _)].
  - rewrite total_cons. split.
    + intros P. destruct (Nat.eq_dec (f e) 0) as [Z | NZ].
      * destruct IH as [IH _]. destruct IH as (e' & I & P'); [lia |].
        exists e'. split; [now right | exact P'].
      * exists e. split; [now left | lia].
    + intros (e' & [<- | I] & P); [lia |].
      assert (0 < total f l) by (apply IH; eauto). lia.
Qed.

(** ** Node attributes along the two counting loops *)

Lemma node_at_ensure n m G :
  node_at n (ensure_node m G) =
  if String.eqb n m
  then match node_at m G with
       | Some a => Some a
       | None => Some {| name := m; editor_count := 0; author_count := 0 |}
       end
  else node_at n G.
Proof.
  unfold ensure_node, has_node, Dict.mem, node_at.
  destruct (Dict.get m (nodes G)) eqn:E.
  - str_cases n m; [exact E | reflexivity].
  - unfold add_node, has_node, Dict.mem. rewrite E. cbn [nodes].
    rewrite get_set. str_cases n m; reflexivity.
Qed.

Lemma node_at_incr_editor n m G :
  node_at n (incr_editor m G) =
  if String.eqb n m
  then match node_at m G with
       | Some a => Some {| name := name a;
                           editor_count := editor_count a + 1;
                           author_count := author_count a |}
       | None => None
       end
  else node_at n G.
Proof.
  unfold incr_editor, node_at. destruct (Dict.get m (nodes G)) eqn:E.
  - cbn [nodes]. rewrite get_set. str_cases n m; reflexivity.
  - str_cases n m; [exact E | reflexivity].
Qed.

Lemma node_at_incr_author n m G :
  node_at n (incr_author m G) =
  if String.eqb n m
  then match node_at m G with
       | Some a => Some {| name := name a;
                           editor_count := editor_count a;
                           author_count := author_count a + 1 |}
       | None => None
       end
  else node_at n G.
Proof.
  unfold incr_author, node_at. destruct (Dict.get m (nodes G)) eqn:E.
  - cbn [nodes]. rewrite get_set. str_cases n m; reflexivity.
  - str_cases n m; [exact E | reflexivity].
Qed.

Lemma node_ok_count_editor n ce ca m G :
  node_ok n ce ca (node_at n G) ->
  node_ok n (ce + count n [m]) ca (node_at n (count_editor G m)).
Proof.
  unfold count_editor. rewrite node_at_incr_editor, count_cons, count_nil.
  norm_keys. destruct (String.eqb_spec n m) as [-> | N].
  - rewrite node_at_ensure, String.eqb_refl.
    destruct (node_at m G) as [a |]; simpl; intros O.
    + destruct O as (? & ? & ? & ?). repeat split; try assumption; lia.
    + destruct O as [-> ->]. repeat split; simpl; lia.
  - rewrite node_at_ensure. apply String.eqb_neq in N. rewrite N.
    now rewrite !Nat.add_0_r.
Qed.

Lemma node_ok_count_author n ce ca m G :
  node_ok n ce ca (node_at n G) ->
  node_ok n ce (ca + count n [m]) (node_at n (count_author G m)).
Proof.
  unfold count_author. rewrite node_at_incr_author, count_cons, count_nil.
  norm_keys. destruct (String.eqb_spec n m) as [-> | N].
  - rewrite node_at_ensure, String.eqb_refl.
    destruct (node_at m G) as [a |]; simpl; intros O.
    + destruct O as (? & ? & ? & ?). repeat split; try assumption; lia.
    + destruct O as [-> ->]. repeat split; simpl; lia.
  - rewrite node_at_ensure. apply String.eqb_neq in N. rewrite N.
    now rewrite !Nat.add_0_r.
Qed.

Lemma node_ok_editors n ce ca eds G :
  node_ok n ce ca (node_at n G) ->
  node_ok n (ce + count n eds) ca (node_at n (fold_left count_editor eds G)).
Proof.
  revert ce G. induction eds as [| m eds IH]; intros ce G O; simpl.
  - now rewrite count_nil, Nat.add_0_r.
  - apply node_ok_count_editor with (m := m) in O. apply IH in O.
    rewrite count_cons in *. rewrite count_nil in O.
    now replace (ce + ((if keqb n m then 1 else 0) + count n eds))
      with (ce + ((if keqb n m then 1 else 0) + 0) + count n eds) by lia.
Qed.

Lemma node_ok_authors n ce ca aus G :
  node_ok n ce ca (node_at n G) ->
  node_ok n ce (ca + count n aus) (node_at n (fold_left count_author aus G)).
Proof.
  revert ca G. induction aus as [| m aus IH]; intros ca G O; simpl.
  - now rewrite count_nil, Nat.add_0_r.
  - apply node_ok_count_author with (m := m) in O. apply IH in O.
    rewrite count_cons in *. rewrite count_nil in O.
    now replace (ca + ((if keqb n m then 1 else 0) + count n aus))
      with (ca + ((if keqb n m then 1 else 0) + 0) + count n aus) by lia.
Qed.

(** The counting loops keep the graph well formed and leave the edges alone. *)
Lemma count_editor_wf G m : graph_wf G -> graph_wf (count_editor G m).
Proof. intros W. now apply graph_wf_incr_editor, graph_wf_ensure. Qed.

Lemma count_author_wf G m : graph_wf G -> graph_wf (count_author G m).
Proof. intros W. now apply graph_wf_incr_author, graph_wf_ensure. Qed.

Lemma edge_at_incr_editor u v m G : edge_at u v (incr_editor m G) = edge_at u v G.
Proof. unfold edge_at. now rewrite adj_incr_editor. Qed.

Lemma edge_at_incr_author u v m G : edge_at u v (incr_author m G) = edge_at u v G.
Proof. unfold edge_at. now rewrite adj_incr_author. Qed.

Lemma editors_counted eds G :
  graph_wf G ->
  let G' := fold_left count_editor eds G in
  graph_wf G' /\
  (forall u v, edge_at u v G' = edge_at u v G) /\
  (forall n, has_node n G' = str_in n eds || has_node n G).
Proof.
  revert G. induction eds as [| m eds IH]; intros G W; simpl.
  - auto.
  - destruct (IH (count_editor G m) (count_editor_wf G m W)) as (W' & E & N).
    split; [exact W' |]. split.
    + intros u v. rewrite E. unfold count_editor.
      rewrite edge_at_incr_editor. now apply edge_at_ensure.
    + intros n. rewrite N. unfold count_editor.
      rewrite has_node_incr_editor, has_node_ensure.
      now rewrite orb_assoc, (orb_comm (str_in n eds)).
Qed.

Lemma authors_counted aus G :
  graph_wf G ->
  let G' := fold_left count_author aus G in
  graph_wf G' /\
  (forall u v, edge_at u v G' = edge_at u v G) /\
  (forall n, has_node n G' = str_in n aus || has_node n G).
Proof.
  revert G. induction aus as [| m aus IH]; intros G W; simpl.
  - auto.
  - destruct (IH (count_author G m) (count_author_wf G m W)) as (W' & E & N).
    split; [exact W' |]. split.
    + intros u v. rewrite E. unfold count_author.
      rewrite edge_at_incr_author. now apply edge_at_ensure.
    + intros n. rewrite N. unfold count_author.
      rewrite has_node_incr_author, has_node_ensure.
      now rewrite orb_assoc, (orb_comm (str_in n aus)).
Qed.

(** ** Substrings *)

Lemma prefix_empty s : String.prefix "" s = true.
Proof. destruct s; reflexivity. Qed.

Lemma prefix_refl s : String.prefix s s = true.
Proof.
  induction s as [| c s IH]; simpl; [reflexivity |].
  destruct (ascii_dec c c); [exact IH | congruence].
Qed.

Lemma prefix_app p s x :
  String.prefix p s = true -> String.prefix p (s ++ x)%string = true.
Proof.
  revert s. induction p as [| c p IH]; intros s; [intros _; apply prefix_empty |].
  destruct s as [| c' s]; simpl; [discriminate |].
  destruct (ascii_dec c c'); [apply IH | discriminate].
Qed.

Lemma contains_refl k : contains k k = true.
Proof.
  destruct k as [| c k]; [reflexivity |].
  cbn [contains]. now rewrite prefix_refl.
Qed.

Lemma contains_empty s : contains "" s = true.
Proof. destruct s; reflexivity. Qed.

Lemma contains_app_l k r s :
  contains k r = true -> contains k (r ++ s)%string = true.
Proof.
  induction r as [| c r IH]; simpl.
  - destruct k; [| discriminate]. intros _. apply contains_empty.
  - intros C. apply orb_true_iff in C. apply orb_true_iff. destruct C as [P | C].
    + left. now apply (prefix_app k (String c r) s).
    + right. auto.
Qed.

Lemma contains_app_r k r s :
  contains k s = true -> contains k (r ++ s)%string = true.
Proof.
  intros C. induction r as [| c r IH]; simpl; [exact C |].
  rewrite IH. apply orb_true_r.
Qed.

Lemma contains_merge k iss t d :
  contains k (relationship (merge_edge k iss t d)) = true.
Proof.
  unfold merge_edge; cbn [relationship].
  destruct (contains k (relationship d)) eqn:C; simpl; [exact C |].
  apply contains_app_r. apply (contains_app_r k "," k), contains_refl.
Qed.

Lemma contains_merge_mono k' k iss t d :
  contains k' (relationship d) = true ->
  contains k' (relationship (merge_edge k iss t d)) = true.
Proof.
  intros C. unfold merge_edge; cbn [relationship].
  destruct (contains k (relationship d)); simpl; [exact C |].
  now apply contains_app_l.
Qed.

Lemma contains_upsert k iss t o :
  contains k (relationship (upsert k iss t o)) = true.
Proof.
  destruct o; cbn [upsert]; [apply contains_merge | apply contains_refl].
Qed.

Lemma In_issues_upsert k iss t o : In iss (issues (upsert k iss t o)).
Proof.
  destruct o; simpl; [apply in_or_app; right |]; now left.
Qed.

Example normalize_name_example :
  normalize_name "  Jane Doe " = "jane doe" /\
  normalize_name "jane doe" = "jane doe".
Proof. split; reflexivity. Qed.

(** ** Labels and list lengths under [upsert] *)

Lemma upsert_editor ne nc iss t o :
  edge_ok ne nc o -> edge_ok (S ne) nc (Some (upsert EDITOR_TO_AUTHOR iss t o)).
Proof.
  destruct o as [d |]; simpl.
  - intros (L & I & T). rewrite !length_app, I, T. simpl.
    split; [| lia].
    destruct L as [(? & ? & ->) | [(? & ? & ->) | (? & ? & [-> | ->])]];
      vm_compute; intuition lia.
  - intros [-> ->]. vm_compute. intuition lia.
Qed.

Lemma upsert_coauthor ne nc iss t o :
  edge_ok ne nc o -> edge_ok ne (S nc) (Some (upsert CO_AUTHOR iss t o)).
Proof.
  destruct o as [d |]; simpl.
  - intros (L & I & T). rewrite !length_app, I, T. simpl.
    split; [| lia].
    destruct L as [(? & ? & ->) | [(? & ? & ->) | (? & ? & [-> | ->])]];
      vm_compute; intuition lia.
  - intros [-> ->]. vm_compute. intuition lia.
Qed.

(** ** Sequences of [link] operations *)

Lemma apply_ops_nodes iss t ops G : nodes (apply_ops iss t ops G) = nodes G.
Proof.
  revert G. induction ops as [| op ops IH]; intros G; simpl; [reflexivity |].
  unfold apply_ops in *; simpl. rewrite IH. apply nodes_link.
Qed.

Lemma apply_ops_wf iss t ops G :
  graph_wf G -> Forall (op_in_nodes G) ops -> graph_wf (apply_ops iss t ops G).
Proof.
  revert G. induction ops as [| op ops IH]; intros G W F; [exact W |].
  inversion F as [| ? ? [Hu Hv] F']; subst.
  unfold apply_ops; simpl. apply IH.
  - now apply graph_wf_link.
  - eapply Forall_impl; [| exact F'].
    intros op' [A B]. unfold op_in_nodes, link_op. now rewrite !has_node_link.
Qed.

Lemma link_op_edge_ok iss t op u v ne nc G :
  op_kind_ok op ->
  edge_ok ne nc (edge_at u v G) ->
  edge_ok (ne + count (EDITOR_TO_AUTHOR, (u, v)) [op])
          (nc + count (CO_AUTHOR, (u, v)) [op])
          (edge_at u v (link_op iss t G op)).
Proof.
  destruct op as [k [a b]]. unfold op_kind_ok, link_op; cbn [fst snd].
  intros K O. rewrite edge_at_link, !count_cons, !count_nil. norm_keys.
  destruct (String.eqb_spec u a) as [-> | Na]; cbn [andb].
  - destruct (String.eqb_spec v b) as [-> | Nb]; cbn [andb].
    + destruct K as [-> | ->]; cbn.
      * rewrite Nat.add_1_r, Nat.add_0_r. now apply upsert_editor.
      * rewrite Nat.add_1_r, Nat.add_0_r. now apply upsert_coauthor.
    + now rewrite !andb_false_r, !Nat.add_0_r.
  - now rewrite !andb_false_r, !Nat.add_0_r.
Qed.

Lemma apply_ops_edge_ok iss t ops u v ne nc G :
  Forall op_kind_ok ops ->
  edge_ok ne nc (edge_at u v G) ->
  edge_ok (ne + count (EDITOR_TO_AUTHOR, (u, v)) ops)
          (nc + count (CO_AUTHOR, (u, v)) ops)
          (edge_at u v (apply_ops iss t ops G)).
Proof.
  revert ne nc G. induction ops as [| op ops IH]; intros ne nc G F O.
  - now rewrite !count_nil, !Nat.add_0_r.
  - inversion F as [| ? ? K F']; subst.
    apply (link_op_edge_ok iss t op) in O; [| exact K].
    apply IH in O; [| exact F'].
    rewrite !count_cons in *. rewrite !count_nil in O.
    unfold apply_ops; simpl. rewrite !Nat.add_0_r, <- !Nat.add_assoc in O. exact O.
Qed.

Lemma labelled_link k' u' v' k iss t u v G :
  labelled k' u' v' G -> labelled k' u' v' (link k iss t u v G).
Proof.
  intros (d & E & C). unfold labelled. rewrite edge_at_link.
  destruct (keqb_spec (u', v') (u, v)) as [Q | _]; [| eauto].
  injection Q as -> ->. rewrite E. eexists. split; [reflexivity |].
  now apply contains_merge_mono.
Qed.

Lemma has_issue_link i' u' v' k iss t u v G :
  has_issue i' u' v' G -> has_issue i' u' v' (link k iss t u v G).
Proof.
  intros (d & E & I). unfold has_issue. rewrite edge_at_link.
  destruct (keqb_spec (u', v') (u, v)) as [Q | _]; [| eauto].
  injection Q as -> ->. rewrite E. eexists. split; [reflexivity |].
  simpl. apply in_or_app. now left.
Qed.

Lemma link_establishes k iss t u v G :
  labelled k u v (link k iss t u v G) /\ has_issue iss u v (link k iss t u v G).
Proof.
  unfold labelled, has_issue. rewrite edge_at_link_same. split; eexists; split;
    try reflexivity; [apply contains_upsert | apply In_issues_upsert].
Qed.

Lemma apply_ops_labelled k' u' v' iss t ops G :
  labelled k' u' v' G -> labelled k' u' v' (apply_ops iss t ops G).
Proof.
  revert G. induction ops as [| op ops IH]; intros G L; [exact L |].
  unfold apply_ops; simpl. apply IH. now apply labelled_link.
Qed.

Lemma apply_ops_has_issue i' u' v' iss t ops G :
  has_issue i' u' v' G -> has_issue i' u' v' (apply_ops iss t ops G).
Proof.
  revert G. induction ops as [| op ops IH]; intros G L; [exact L |].
  unfold apply_ops; simpl. apply IH. now apply has_issue_link.
Qed.

Lemma apply_ops_establishes k u v iss t ops G :
  In (k, (u, v)) ops ->
  labelled k u v (apply_ops iss t ops G) /\ has_issue iss u v (apply_ops iss t ops G).
Proof.
  revert G. induction ops as [| op ops IH]; intros G I; [destruct I |].
  destruct I as [-> | I].
  - unfold apply_ops; simpl. unfold link_op at 2 4; cbn [fst snd].
    destruct (link_establishes k iss t u v G) as [L I].
    split; [now apply apply_ops_labelled | now apply apply_ops_has_issue].
  - unfold apply_ops; simpl. now apply IH.
Qed.

(** ** The operations of one record *)

Lemma ed_ops_kind eds aus : Forall op_kind_ok (ed_ops eds aus).
Proof.
  apply Forall_forall. intros op I. unfold ed_ops in I.
  apply in_flat_map in I. destruct I as (ed & _ & I).
  apply in_map_iff in I. destruct I as (au & <- & _). now left.
Qed.

Lemma co_ops_kind aus : Forall op_kind_ok (co_ops aus).
Proof.
  apply Forall_forall. intros op I. unfold co_ops in I.
  apply in_flat_map in I. destruct I as (p & _ & [<- | [<- | []]]); now right.
Qed.

Lemma entry_ops_kind e : Forall op_kind_ok (entry_ops e).
Proof. apply Forall_app. split; [apply ed_ops_kind | apply co_ops_kind]. Qed.

Lemma count_ed_ops_editor u v eds aus :
  count (EDITOR_TO_AUTHOR, (u, v)) (ed_ops eds aus) = count u eds * count v aus.
Proof.
  induction eds as [| ed eds IH]; [reflexivity |].
  unfold ed_ops in *. cbn [flat_map]. rewrite count_app, IH, count_cons.
  assert (E : count (EDITOR_TO_AUTHOR, (u, v))
                (map (fun au => (EDITOR_TO_AUTHOR, (ed, au))) aus)
              = (if keqb u ed then 1 else 0) * count v aus).
  { clear IH. induction aus as [| au aus IH]; [now rewrite Nat.mul_0_r |].
    cbn [map]. rewrite !count_cons, IH. norm_keys.
    destruct (String.eqb u ed), (String.eqb v au); cbn; lia. }
  rewrite E. lia.
Qed.

Lemma count_ed_ops_coauthor u v eds aus :
  count (CO_AUTHOR, (u, v)) (ed_ops eds aus) = 0.
Proof.
  induction eds as [| ed eds IH]; [reflexivity |].
  unfold ed_ops in *. cbn [flat_map]. rewrite count_app, IH, Nat.add_0_r.
  clear IH. induction aus as [| au aus IH]; [reflexivity |].
  cbn [map]. rewrite count_cons, IH. norm_keys.
  change (String.eqb CO_AUTHOR EDITOR_TO_AUTHOR) with false. reflexivity.
Qed.

Lemma count_co_ops_editor u v aus :
  count (EDITOR_TO_AUTHOR, (u, v)) (co_ops aus) = 0.
Proof.
  unfold co_ops. induction (pairs aus) as [| p ps IH]; [reflexivity |].
  cbn [flat_map app]. rewrite !count_cons, IH. norm_keys.
  change (String.eqb EDITOR_TO_AUTHOR CO_AUTHOR) with false. reflexivity.
Qed.

Lemma count_co_ops_coauthor u v aus :
  count (CO_AUTHOR, (u, v)) (co_ops aus) =
  count (u, v) (pairs aus) + count (v, u) (pairs aus).
Proof.
  unfold co_ops. induction (pairs aus) as [| [a b] ps IH]; [reflexivity |].
  cbn [flat_map app]. rewrite !count_cons, IH. norm_keys.
  rewrite String.eqb_refl. cbn [andb].
  rewrite (andb_comm (String.eqb v a) (String.eqb u b)). lia.
Qed.

Lemma count_entry_ops_editor u v e :
  count (EDITOR_TO_AUTHOR, (u, v)) (entry_ops e) = ed_contrib u v e.
Proof.
  unfold entry_ops, ed_contrib.
  now rewrite count_app, count_ed_ops_editor, count_co_ops_editor, Nat.add_0_r.
Qed.

Lemma count_entry_ops_coauthor u v e :
  count (CO_AUTHOR, (u, v)) (entry_ops e) = co_contrib u v e.
Proof.
  unfold entry_ops, co_contrib.
  now rewrite count_app, count_ed_ops_coauthor, count_co_ops_coauthor.
Qed.

(** ** The invariant of the builder *)

Lemma str_in_In x l : str_in x l = true <-> In x l.
Proof.
  unfold str_in. rewrite existsb_exists. split.
  - intros (y & I & E). apply String.eqb_eq in E. now subst.
  - intros I. exists x. split; [exact I | apply String.eqb_refl].
Qed.

Lemma In_pairs a b l : In (a, b) (pairs l) -> In a l /\ In b l.
Proof.
  induction l as [| x l IH]; simpl; [tauto |].
  intros I. apply in_app_or in I. destruct I as [I | I].
  - apply in_map_iff in I. destruct I as (y & [= <- <-] & I). auto.
  - destruct (IH I). auto.
Qed.

Lemma entry_ops_in_nodes e G :
  (forall n, In n (entry_editors e) \/ In n (entry_authors e) -> has_node n G = true) ->
  Forall (op_in_nodes G) (entry_ops e).
Proof.
  intros N. apply Forall_forall. intros op I. unfold entry_ops in I.
  apply in_app_or in I. destruct I as [I | I].
  - unfold ed_ops in I. apply in_flat_map in I. destruct I as (ed & Ie & I).
    apply in_map_iff in I. destruct I as (au & <- & Ia).
    split; cbn [fst snd]; apply N; auto.
  - unfold co_ops in I. apply in_flat_map in I. destruct I as ([a b] & Ip & I).
    apply In_pairs in Ip. destruct Ip as [Ia Ib].
    destruct I as [<- | [<- | []]]; split; cbn [fst snd]; apply N; auto.
Qed.

Lemma add_entry_counted G e :
  graph_wf G ->
  let G2 := fold_left count_author (entry_authors e)
              (fold_left count_editor (entry_editors e) G) in
  graph_wf G2 /\
  (forall u v, edge_at u v G2 = edge_at u v G) /\
  Forall (op_in_nodes G2) (entry_ops e).
Proof.
  intros W.
  destruct (editors_counted (entry_editors e) G W) as (W1 & E1 & N1).
  destruct (authors_counted (entry_authors e) _ W1) as (W2 & E2 & N2).
  split; [exact W2 |]. split.
  - intros u v. now rewrite E2, E1.
  - apply entry_ops_in_nodes. intros n I. rewrite N2, N1.
    destruct I as [I | I]; apply str_in_In in I; rewrite I;
      [apply orb_true_iff; right |]; reflexivity.
Qed.

Lemma built_step articles G e :
  built articles G -> built (articles ++ [e]) (add_entry G e).
Proof.
  intros [W E N]. rewrite add_entry_ops.
  destruct (add_entry_counted G e W) as (W2 & E2 & F). cbv zeta in *.
  constructor.
  - now apply apply_ops_wf.
  - intros u v. rewrite !total_app, !total_single.
    rewrite <- count_entry_ops_editor, <- count_entry_ops_coauthor.
    apply apply_ops_edge_ok; [apply entry_ops_kind |].
    rewrite E2. apply E.
  - intros n. unfold node_at. rewrite apply_ops_nodes, !total_app, !total_single.
    apply (node_ok_authors n), (node_ok_editors n), N.
Qed.

Lemma built_from articles pre G :
  built pre G -> built (pre ++ articles) (build_from G articles).
Proof.
  revert pre G. induction articles as [| e articles IH]; intros pre G B.
  - now rewrite app_nil_r.
  - simpl. replace (pre ++ e :: articles) with ((pre ++ [e]) ++ articles)
      by now rewrite <- app_assoc.
    apply IH. now apply built_step.
Qed.

Lemma built_empty : built [] empty_graph.
Proof.
  constructor; [apply graph_wf_empty | |]; intros; simpl; auto.
Qed.

Lemma build_built articles :
  built articles (build_partially_directed_graph articles).
Proof. exact (built_from articles [] empty_graph built_empty). Qed.

Lemma build_wf articles : graph_wf (build_partially_directed_graph articles).
Proof. apply (built_wf _ _ (build_built articles)). Qed.

(** ** The edge list of a well-formed graph *)

Section DictCount.
Context {K V : Type} `{KeyLaws K}.

Lemma key_count_absent (k : K) (d : Dict.t K V) :
  Dict.get k d = None -> filter (fun kv => keqb (fst kv) k) d = [].
Proof.
  induction d as [| [k0 v0] d IH]; simpl; [reflexivity |].
  rewrite (keqb_sym k0 k). destruct (keqb k k0); [discriminate | exact IH].
Qed.

End DictCount.

Lemma In_edges u v d G :
  graph_wf G -> (In (u, v, d) (edges G) <-> edge_at u v G = Some d).
Proof.
  intros W. unfold edges, edge_at. rewrite in_flat_map. split.
  - intros ([a nbrs] & Ia & I). apply in_map_iff in I.
    destruct I as ([b d'] & [= -> -> ->] & Ib).
    rewrite (In_get _ _ _ (wf_adj W) Ia).
    apply In_get; [eapply wf_nbrs; eauto | exact Ib].
  - destruct (Dict.get u (adj G)) as [nbrs |] eqn:E; [| discriminate].
    intros I. exists (u, nbrs). split; [now apply get_In |].
    apply in_map_iff. exists (v, d). split; [reflexivity | now apply get_In].
Qed.



(** ** Reading a label *)

Lemma label_ok_reads ne nc r :
  label_ok ne nc r ->
  contains EDITOR_TO_AUTHOR r = (0 <? ne) /\
  contains CO_AUTHOR r = (0 <? nc) /\
  occurrences EDITOR_TO_AUTHOR r = (if 0 <? ne then 1 else 0) /\
  occurrences CO_AUTHOR r = (if 0 <? nc then 1 else 0).
Proof.
  intros [(P & -> & ->) | [(-> & P & ->) | (P & Q & [-> | ->])]];
    repeat match goal with
           | H : 0 < _ |- _ => apply Nat.ltb_lt in H; rewrite H; clear H
           end;
    repeat split; reflexivity.
Qed.

Lemma label_ok_pos ne nc r : label_ok ne nc r -> 0 < ne + nc.
Proof. intros [(? & ? & _) | [(? & ? & _) | (? & ? & _)]]; lia. Qed.


Lemma built_labelled articles G u v :
  built articles G ->
  (labelled EDITOR_TO_AUTHOR u v G <-> 0 < total (ed_contrib u v) articles) /\
  (labelled CO_AUTHOR u v G <-> 0 < total (co_contrib u v) articles).
Proof.
  intros B. pose proof (built_edge _ _ B u v) as O. unfold labelled.
  destruct (edge_at u v G) as [d |]; simpl in O.
  - destruct O as (L & _). apply label_ok_reads in L.
    destruct L as (E & C & _). split; split.
    + intros (d' & [= <-] & X). rewrite E in X. now apply Nat.ltb_lt.
    + intros P. exists d. split; [reflexivity |]. rewrite E. now apply Nat.ltb_lt.
    + intros (d' & [= <-] & X). rewrite C in X. now apply Nat.ltb_lt.
    + intros P. exists d. split; [reflexivity |]. rewrite C. now apply Nat.ltb_lt.
  - destruct O as [-> ->]. split; split; try lia; intros (? & ? & _); discriminate.
Qed.



Lemma ed_contrib_pos u v e :
  0 < ed_contrib u v e <-> In u (entry_editors e) /\ In v (entry_authors e).
Proof.
  unfold ed_contrib. rewrite <- !count_pos_In. nia.
Qed.



Lemma total_ge f l e : In e l -> f e <= total f l.
Proof.
  induction l as [| x l IH]; intros I; [destruct I |].
  rewrite total_cons. destruct I as [-> | I]; [lia |].
  specialize (IH I). lia.
Qed.

Lemma filter_or_disjoint {A} (P Q : A -> bool) l :
  (forall x, P x && Q x = false) ->
  List.length (filter (fun x => P x || Q x) l) =
  List.length (filter P l) + List.length (filter Q l).
Proof.
  intros D. induction l as [| x l IH]; [reflexivity |].
  cbn [filter]. specialize (D x).
  destruct (P x), (Q x); cbn [orb List.length] in *; try discriminate; lia.
Qed.

(** * The builder: edges per ordered pair *)





(** * The builder: co-authors in both directions *)




(** * The builder: ingesting the records twice *)

(** C7.  Building from [articles ++ articles] gives the same nodes and the
    same edge keys as building from [articles]; every node's two counters and
    every edge's two lists are twice as large, and the kinds named by each
    edge's label are the same. *)
Theorem build_twice_doubles (articles : list entry) :
  let G1 := build_partially_directed_graph articles in
  let G2 := build_partially_directed_graph (articles ++ articles) in
  (forall n, has_node n G2 = has_node n G1) /\
  (forall u v, has_edge u v G2 = has_edge u v G1) /\
  (forall n a1, node_at n G1 = Some a1 ->
     exists a2, node_at n G2 = Some a2 /\
       editor_count a2 = (2 * editor_count a1)%Z /\
       author_count a2 = (2 * author_count a1)%Z) /\
  (forall u v d1, edge_at u v G1 = Some d1 ->
     exists d2, edge_at u v G2 = Some d2 /\
       List.length (issues d2) = 2 * List.length (issues d1) /\
       List.length (titles d2) = 2 * List.length (titles d1) /\
       is_editor_edge d2 = is_editor_edge d1 /\
       is_coauthor_edge d2 = is_coauthor_edge d1).
Proof.
  intros G1 G2.
  pose proof (build_built articles) as B1. fold G1 in B1.
  pose proof (build_built (articles ++ articles)) as B2. fold G2 in B2.
  assert (N : forall n, node_at n G1 = None <-> node_at n G2 = None).
  { intros n. pose proof (built_node _ _ B1 n) as O1.
    pose proof (built_node _ _ B2 n) as O2. rewrite !total_app in O2.
    destruct (node_at n G1), (node_at n G2); simpl in *; split;
      try discriminate; try reflexivity; intros _; exfalso;
      repeat match goal with H : _ /\ _ |- _ => destruct H end; lia. }
  assert (E : forall u v, edge_at u v G1 = None <-> edge_at u v G2 = None).
  { intros u v. pose proof (built_edge _ _ B1 u v) as O1.
    pose proof (built_edge _ _ B2 u v) as O2. rewrite !total_app in O2.
    destruct (edge_at u v G1), (edge_at u v G2); simpl in *; split;
      try discriminate; try reflexivity; intros _; exfalso.
    - destruct O1 as (L & _). apply label_ok_pos in L. lia.
    - destruct O2 as (L & _). apply label_ok_pos in L. lia. }
  split; [| split; [| split]].
  - intros n. unfold has_node, Dict.mem. specialize (N n). unfold node_at in N.
    destruct (Dict.get n (nodes G1)), (Dict.get n (nodes G2)); try reflexivity;
      destruct N as [N1 N2]; try (now discriminate N1); now discriminate N2.
  - intros u v. unfold has_edge. specialize (E u v).
    destruct (edge_at u v G1), (edge_at u v G2); try reflexivity;
      destruct E as [E1 E2]; try (now discriminate E1); now discriminate E2.
  - intros n a1 H. pose proof (built_node _ _ B1 n) as O1.
    pose proof (built_node _ _ B2 n) as O2. rewrite !total_app in O2.
    rewrite H in O1. destruct (node_at n G2) as [a2 |] eqn:H2.
    + exists a2. split; [reflexivity |]. unfold node_ok in O1, O2.
      destruct O1 as (_ & -> & -> & _), O2 as (_ & -> & -> & _). split; lia.
    + apply N in H2. congruence.
  - intros u v d1 H. pose proof (built_edge _ _ B1 u v) as O1.
    pose proof (built_edge _ _ B2 u v) as O2. rewrite !total_app in O2.
    rewrite H in O1. destruct (edge_at u v G2) as [d2 |] eqn:H2.
    + exists d2. split; [reflexivity |]. simpl in *.
      destruct O1 as (L1 & -> & ->), O2 as (L2 & -> & ->).
      apply label_ok_reads in L1, L2. unfold is_editor_edge, is_coauthor_edge.
      destruct L1 as (-> & -> & _), L2 as (-> & -> & _).
      repeat split; try lia.
      * destruct (total (ed_contrib u v) articles); reflexivity.
      * destruct (total (co_contrib u v) articles); reflexivity.
    + apply E in H2. congruence.
Qed.

(** * The detector *)

(** ** Rows of nested dictionaries *)

Section DictFilter.
Context {K V : Type} `{KeyLaws K}.

Lemma filter_key (k : K) (d : Dict.t K V) :
  NoDup (Dict.keys d) ->
  filter (fun kv => keqb (fst kv) k) d =
  match Dict.get k d with Some x => [(k, x)] | None => [] end.
Proof.
  induction d as [| [k0 v0] d IH]; simpl; [reflexivity |].
  intros N. inversion N as [| ? ? N1 N2]; subst.
  rewrite (keqb_sym k0 k). destruct (keqb_spec k k0) as [-> | Ne].
  - rewrite key_count_absent; [reflexivity | now apply get_None_keys].
  - now apply IH.
Qed.
End DictFilter.

Lemma flatten_row {V} a u v (inner : Dict.t string V) :
  filter (fun e => keqb (fst e) (u, v)) (map (fun '(b, x) => (a, b, x)) inner) =
  if String.eqb a u
  then map (fun '(b, x) => (a, b, x)) (filter (fun kv => keqb (fst kv) v) inner)
  else [].
Proof.
  induction inner as [| [b x] inner IH]; cbn [map filter fst].
  - now destruct (String.eqb a u).
  - norm_keys. destruct (String.eqb a u); cbn [andb]; [| exact IH].
    destruct (String.eqb b v); cbn [map]; congruence.
Qed.

Lemma flatten_filter {V} (m : Dict.t string (Dict.t string V)) u v :
  nested_wf m ->
  filter (fun e => keqb (fst e) (u, v)) (flatten m) =
  match Dict.get u m with
  | Some inner =>
      match Dict.get v inner with Some x => [(u, v, x)] | None => [] end
  | None => []
  end.
Proof.
  intros [NA NN]. unfold flatten.
  induction m as [| [a inner] m IH]; [reflexivity |].
  cbn [flat_map]. rewrite filter_app, flatten_row.
  inversion NA as [| ? ? N1 N2]; subst.
  assert (IH' := IH N2 (fun x nb I => NN x nb (or_intror I))). clear IH.
  pose proof (filter_key v inner (NN a inner (or_introl eq_refl))) as FK.
  cbn [Dict.get]. norm_keys. rewrite (String.eqb_sym u a).
  destruct (String.eqb_spec a u) as [-> | Ne].
  - rewrite FK, IH'. cbn [Dict.keys map fst] in N1.
    apply get_None_keys in N1. rewrite N1, app_nil_r.
    destruct (Dict.get v inner); reflexivity.
  - exact IH'.
Qed.

Lemma edges_flatten G : edges G = flatten (adj G).
Proof. reflexivity. Qed.

Lemma graph_nested_wf G : graph_wf G -> nested_wf (adj G).
Proof. intros W. split; [apply W | apply (wf_nbrs W)]. Qed.

Lemma edges_filter G u v :
  graph_wf G ->
  filter (fun e => keqb (fst e) (u, v)) (edges G) =
  match edge_at u v G with Some d => [(u, v, d)] | None => [] end.
Proof.
  intros W. rewrite edges_flatten, (flatten_filter (adj G) u v (graph_nested_wf G W)).
  unfold edge_at. destruct (Dict.get u (adj G)); reflexivity.
Qed.

(** ** Roles *)

Lemma role_in_add r r' s : role_in r (role_add r' s) = role_eqb r r' || role_in r s.
Proof.
  unfold role_add. destruct (role_in r' s) eqn:E.
  - destruct r, r'; simpl; try reflexivity; now rewrite E.
  - unfold role_in. rewrite existsb_app. simpl.
    rewrite orb_false_r. apply orb_comm.
Qed.

Lemma roles_at_add_role p iss p' iss' r m :
  roles_at p iss (add_role p' iss' r m) =
  if keqb (p, iss) (p', iss') then role_add r (roles_at p' iss' m)
  else roles_at p iss m.
Proof.
  unfold roles_at, add_role. rewrite get_or_set. norm_keys.
  destruct (String.eqb_spec p p') as [-> | Np]; cbn [andb]; [| reflexivity].
  rewrite get_or_set. norm_keys. reflexivity.
Qed.

Lemma nested_wf_add_role p iss r m : nested_wf m -> nested_wf (add_role p iss r m).
Proof.
  intros [NA NN]. unfold add_role. split.
  - now apply NoDup_keys_set.
  - intros u inner I. apply In_iff_get in I; [| now apply NoDup_keys_set].
    rewrite get_set in I. norm_keys.
    destruct (String.eqb_spec u p) as [-> | Ne].
    + injection I as <-. apply NoDup_keys_set. unfold Dict.get_or.
      destruct (Dict.get p m) eqn:E; [| constructor].
      apply get_In in E. eauto.
    + apply get_In in I. eauto.
Qed.

Lemma role_in_record_roles r p iss u v m i :
  role_in r (roles_at p iss (record_roles u v m i)) =
  role_in r (roles_at p iss m) ||
  (String.eqb iss i &&
   match r with Editor => String.eqb p u | Author => String.eqb p v end).
Proof.
  unfold record_roles. rewrite roles_at_add_role. norm_keys.
  destruct (String.eqb_spec p v) as [-> | Nv]; cbn [andb].
  - destruct (String.eqb_spec iss i) as [-> | Ni].
    + rewrite role_in_add, roles_at_add_role. norm_keys.
      destruct (String.eqb_spec v u) as [-> | Nu]; cbn [andb].
      * rewrite String.eqb_refl, role_in_add.
        destruct r; simpl; rewrite ?orb_true_r; reflexivity.
      * destruct r; simpl; rewrite ?orb_true_r, ?orb_false_r; reflexivity.
    + rewrite roles_at_add_role. norm_keys.
      apply String.eqb_neq in Ni. rewrite Ni, andb_false_r.
      now rewrite orb_false_r.
  - rewrite roles_at_add_role. norm_keys.
    destruct (String.eqb_spec p u) as [-> | Nu]; cbn [andb].
    + destruct (String.eqb_spec iss i) as [-> | Ni].
      * rewrite role_in_add. destruct r; simpl; rewrite ?orb_true_r, ?orb_false_r;
          reflexivity.
      * now rewrite orb_false_r.
    + destruct r; now rewrite andb_false_r, orb_false_r.
Qed.

Lemma role_in_edge_roles r p iss u v vs m :
  role_in r (roles_at p iss (fold_left (record_roles u v) vs m)) =
  role_in r (roles_at p iss m) ||
  (str_in iss vs &&
   match r with Editor => String.eqb p u | Author => String.eqb p v end).
Proof.
  revert m. induction vs as [| i vs IH]; intros m; cbn [fold_left].
  - simpl. now rewrite orb_false_r.
  - rewrite IH, role_in_record_roles. cbn [str_in existsb].
    rewrite andb_orb_distrib_l, orb_assoc. reflexivity.
Qed.

Lemma nested_wf_edge_roles u v vs m :
  nested_wf m -> nested_wf (fold_left (record_roles u v) vs m).
Proof.
  revert m. induction vs as [| i vs IH]; intros m W; [exact W |].
  apply IH. unfold record_roles. now apply nested_wf_add_role, nested_wf_add_role.
Qed.

Lemma person_issue_roles_fold G :
  person_issue_roles G = fold_left roles_step (edges G) [].
Proof. reflexivity. Qed.

Lemma roles_fold r p iss es m :
  role_in r (roles_at p iss (fold_left roles_step es m)) =
  role_in r (roles_at p iss m) ||
  existsb (fun e => is_editor_edge (snd e) && String.eqb (role_end r e) p &&
                    str_in iss (issues (snd e))) es.
Proof.
  revert m. induction es as [| [[u v] d] es IH]; intros m; cbn [fold_left existsb].
  - now rewrite orb_false_r.
  - rewrite IH. cbn [roles_step snd fst]. rewrite orb_assoc. f_equal.
    destruct (is_editor_edge d); cbn [andb]; [| now rewrite orb_false_r].
    rewrite role_in_edge_roles. f_equal. rewrite andb_comm. f_equal.
    destruct r; apply String.eqb_sym.
Qed.

Lemma roles_fold_wf es m : nested_wf m -> nested_wf (fold_left roles_step es m).
Proof.
  revert m. induction es as [| [[u v] d] es IH]; intros m W; [exact W |].
  cbn [fold_left]. apply IH. cbn [roles_step].
  destruct (is_editor_edge d); [now apply nested_wf_edge_roles | exact W].
Qed.

Lemma nested_wf_nil {V} : nested_wf (@nil (string * Dict.t string V)).
Proof. split; [constructor | intros ? ? []]. Qed.

Lemma person_issue_roles_wf G : nested_wf (person_issue_roles G).
Proof. rewrite person_issue_roles_fold. apply roles_fold_wf, nested_wf_nil. Qed.

Lemma person_issue_roles_editor G p iss :
  role_in Editor (roles_at p iss (person_issue_roles G)) = edits_at G p iss.
Proof. rewrite person_issue_roles_fold, roles_fold. reflexivity. Qed.

Lemma person_issue_roles_author G p iss :
  role_in Author (roles_at p iss (person_issue_roles G)) = authors_at G p iss.
Proof. rewrite person_issue_roles_fold, roles_fold. reflexivity. Qed.

(** ** Self-overlap records *)

Lemma self_overlaps_flatten m : self_overlaps m = flat_map overlap_row (flatten m).
Proof.
  unfold self_overlaps, flatten.
  induction m as [| [p inner] m IH]; [reflexivity |].
  cbn [flat_map]. rewrite flat_map_app, IH. f_equal.
  clear IH. induction inner as [| [iss rs] inner IH]; [reflexivity |].
  cbn [flat_map map]. now rewrite IH.
Qed.

Lemma self_overlaps_of_rows p iss rows :
  self_overlaps_of p iss (flat_map overlap_row rows) =
  flat_map overlap_row (filter (fun e => keqb (fst e) (p, iss)) rows).
Proof.
  unfold self_overlaps_of.
  induction rows as [| [[q i] rs] rows IH]; [reflexivity |].
  cbn [flat_map filter fst]. rewrite filter_app, IH.
  destruct (keqb (q, i) (p, iss)) eqn:E; cbn [flat_map overlap_row].
  - f_equal. destruct (role_in Editor rs && role_in Author rs); [| reflexivity].
    cbn [filter person issue]. now rewrite E.
  - destruct (role_in Editor rs && role_in Author rs); [| reflexivity].
    cbn [filter person issue app]. now rewrite E.
Qed.

Lemma self_overlaps_of_spec m p iss :
  nested_wf m ->
  self_overlaps_of p iss (self_overlaps m) =
  if role_in Editor (roles_at p iss m) && role_in Author (roles_at p iss m)
  then [{| person := p; issue := iss |}] else [].
Proof.
  intros W. rewrite self_overlaps_flatten, self_overlaps_of_rows.
  rewrite (flatten_filter m p iss W). unfold roles_at, Dict.get_or.
  destruct (Dict.get p m) as [inner |]; [| reflexivity].
  destruct (Dict.get iss inner) as [rs |]; [| reflexivity].
  cbn [flat_map overlap_row]. now rewrite app_nil_r.
Qed.

(** ** The editor-to-author map *)

Lemma ed_au_map_fold G : ed_au_map G = fold_left ed_au_step (edges G) [].
Proof. reflexivity. Qed.

Lemma get_add_issues k k' vs m :
  Dict.get k' (fold_left (add_issue k) vs m) =
  match vs with
  | [] => Dict.get k' m
  | _ => if keqb k' k then Some (Dict.get_or k [] m ++ vs) else Dict.get k' m
  end.
Proof.
  revert m. induction vs as [| i vs IH]; intros m; [reflexivity |].
  cbn [fold_left]. rewrite IH. unfold add_issue.
  destruct vs as [| j vs].
  - rewrite get_set. reflexivity.
  - rewrite get_set, get_or_set, keqb_refl.
    destruct (keqb k' k); [| reflexivity].
    now rewrite <- app_assoc.
Qed.

Lemma ed_au_step_other k m e :
  keqb (fst e) k = false -> Dict.get k (ed_au_step m e) = Dict.get k m.
Proof.
  destruct e as [[u v] d]. cbn [fst ed_au_step]. intros N.
  destruct (is_editor_edge d); [| reflexivity].
  rewrite get_add_issues. rewrite (keqb_sym k (u, v)), N.
  destruct (issues d); reflexivity.
Qed.

Lemma ed_au_fold_absent k es m :
  filter (fun e => keqb (fst e) k) es = [] ->
  Dict.get k (fold_left ed_au_step es m) = Dict.get k m.
Proof.
  revert m. induction es as [| e es IH]; intros m F; [reflexivity |].
  cbn [filter] in F. destruct (keqb (fst e) k) eqn:E; [discriminate |].
  cbn [fold_left]. rewrite IH by exact F. now apply ed_au_step_other.
Qed.

Lemma ed_au_map_get G u v :
  graph_wf G ->
  Dict.get (u, v) (ed_au_map G) = editor_issues (edge_at u v G).
Proof.
  intros W. rewrite ed_au_map_fold.
  pose proof (edges_filter G u v W) as F.
  assert (Gen : forall es (m : pair_map),
             Dict.get (u, v) m = None ->
             filter (fun e => keqb (fst e) (u, v)) es =
               match edge_at u v G with Some d => [(u, v, d)] | None => [] end ->
             Dict.get (u, v) (fold_left ed_au_step es m) =
               editor_issues (edge_at u v G)).
  { clear F. induction es as [| e es IH]; intros m M F.
    - cbn [filter] in F. destruct (edge_at u v G); [discriminate | exact M].
    - cbn [filter] in F. cbn [fold_left].
      destruct (keqb (fst e) (u, v)) eqn:E.
      + destruct (edge_at u v G) as [d |]; [| discriminate].
        injection F as -> F. rewrite ed_au_fold_absent by exact F.
        cbn [ed_au_step editor_issues].
        destruct (is_editor_edge d); [| exact M].
        rewrite get_add_issues, keqb_refl. unfold Dict.get_or. rewrite M.
        destruct (issues d); reflexivity.
      + apply IH; [| exact F]. rewrite ed_au_step_other by exact E. exact M. }
  apply Gen; [reflexivity | exact F].
Qed.

Lemma ed_au_map_NoDup G : NoDup (Dict.keys (ed_au_map G)).
Proof.
  rewrite ed_au_map_fold.
  assert (Gen : forall es (m : pair_map),
             NoDup (Dict.keys m) -> NoDup (Dict.keys (fold_left ed_au_step es m))).
  { induction es as [| [[u v] d] es IH]; intros m N; [exact N |].
    cbn [fold_left]. apply IH. cbn [ed_au_step].
    destruct (is_editor_edge d); [| exact N].
    revert m N. induction (issues d) as [| i vs IHv]; intros m N; [exact N |].
    cbn [fold_left]. apply IHv. unfold add_issue. now apply NoDup_keys_set. }
  apply Gen. constructor.
Qed.

(** ** Reciprocal records *)

Lemma reciprocals_rows m : reciprocals m = flat_map (recip_row m) m.
Proof. reflexivity. Qed.

Lemma reciprocals_of_rows a b m part :
  reciprocals_of a b (flat_map (recip_row m) part) =
  flat_map (recip_row m) (filter (fun kv => keqb (fst kv) (a, b)) part).
Proof.
  unfold reciprocals_of.
  induction part as [| [[u v] l] part IH]; [reflexivity |].
  cbn [flat_map filter fst]. rewrite filter_app, IH.
  destruct (keqb (u, v) (a, b)) eqn:E; cbn [flat_map recip_row].
  - f_equal. destruct (Dict.get (v, u) m); [| reflexivity].
    cbn [filter personA personB]. now rewrite E.
  - destruct (Dict.get (v, u) m); [| reflexivity].
    cbn [filter personA personB app]. now rewrite E.
Qed.

Lemma reciprocals_of_spec m a b :
  NoDup (Dict.keys m) ->
  reciprocals_of a b (reciprocals m) =
  match Dict.get (a, b) m, Dict.get (b, a) m with
  | Some l1, Some l2 =>
      [{| personA := a; personB := b;
          issues_A_ed_B_auth := l1; issues_B_ed_A_auth := l2 |}]
  | _, _ => []
  end.
Proof.
  intros N. rewrite reciprocals_rows, reciprocals_of_rows, (filter_key (a, b) m N).
  destruct (Dict.get (a, b) m) as [l1 |]; [| reflexivity].
  cbn [flat_map recip_row]. rewrite app_nil_r.
  destruct (Dict.get (b, a) m); reflexivity.
Qed.

Lemma detect_reciprocals_of G a b :
  graph_wf G ->
  reciprocals_of a b (reciprocal (detect_suspicious_patterns G)) =
  match editor_issues (edge_at a b G), editor_issues (edge_at b a G) with
  | Some l1, Some l2 =>
      [{| personA := a; personB := b;
          issues_A_ed_B_auth := l1; issues_B_ed_A_auth := l2 |}]
  | _, _ => []
  end.
Proof.
  intros W. cbn [detect_suspicious_patterns reciprocal].
  rewrite (reciprocals_of_spec _ a b (ed_au_map_NoDup G)).
  now rewrite !(ed_au_map_get G) by exact W.
Qed.

(** ** What a record leaves on the edges it touches *)

Lemma add_entry_wf G e : graph_wf G -> graph_wf (add_entry G e).
Proof.
  intros W. rewrite add_entry_ops.
  destruct (add_entry_counted G e W) as (W2 & _ & F). now apply apply_ops_wf.
Qed.

Lemma add_entry_labelled k u v G e :
  graph_wf G -> labelled k u v G -> labelled k u v (add_entry G e).
Proof.
  intros W L. rewrite add_entry_ops.
  destruct (add_entry_counted G e W) as (_ & E & _).
  apply apply_ops_labelled. unfold labelled in *. now rewrite E.
Qed.

Lemma add_entry_has_issue i u v G e :
  graph_wf G -> has_issue i u v G -> has_issue i u v (add_entry G e).
Proof.
  intros W L. rewrite add_entry_ops.
  destruct (add_entry_counted G e W) as (_ & E & _).
  apply apply_ops_has_issue. unfold has_issue in *. now rewrite E.
Qed.

Lemma add_entry_establishes k u v G e :
  In (k, (u, v)) (entry_ops e) ->
  labelled k u v (add_entry G e) /\ has_issue (issue_id e) u v (add_entry G e).
Proof. intros I. rewrite add_entry_ops. now apply apply_ops_establishes. Qed.

Lemma build_from_wf articles G : graph_wf G -> graph_wf (build_from G articles).
Proof.
  revert G. induction articles as [| e l IH]; intros G W; [exact W |].
  simpl. now apply IH, add_entry_wf.
Qed.

Lemma build_from_keeps articles G k i u v :
  graph_wf G ->
  (labelled k u v G -> labelled k u v (build_from G articles)) /\
  (has_issue i u v G -> has_issue i u v (build_from G articles)).
Proof.
  revert G. induction articles as [| e l IH]; intros G W; [tauto |].
  simpl. destruct (IH (add_entry G e) (add_entry_wf G e W)) as [A B].
  split; intros H; [apply A; now apply add_entry_labelled
                   | apply B; now apply add_entry_has_issue].
Qed.

Lemma build_from_app G l1 l2 :
  build_from G (l1 ++ l2) = build_from (build_from G l1) l2.
Proof. apply fold_left_app. Qed.

Lemma build_establishes articles e k u v :
  In e articles -> In (k, (u, v)) (entry_ops e) ->
  labelled k u v (build_partially_directed_graph articles) /\
  has_issue (issue_id e) u v (build_partially_directed_graph articles).
Proof.
  intros I O. apply in_split in I. destruct I as (l1 & l2 & ->).
  unfold build_partially_directed_graph.
  rewrite build_from_app. cbn [build_from fold_left].
  fold (build_from (add_entry (build_from empty_graph l1) e) l2).
  destruct (add_entry_establishes k u v (build_from empty_graph l1) e O) as [L H].
  assert (W : graph_wf (add_entry (build_from empty_graph l1) e))
    by apply add_entry_wf, build_from_wf, graph_wf_empty.
  destruct (build_from_keeps l2 _ k (issue_id e) u v W) as [A B]. auto.
Qed.

Lemma In_ed_ops u v eds aus :
  In u eds -> In v aus -> In (EDITOR_TO_AUTHOR, (u, v)) (ed_ops eds aus).
Proof.
  intros Iu Iv. unfold ed_ops. apply in_flat_map. exists u. split; [exact Iu |].
  apply in_map_iff. exists v. auto.
Qed.


(** An edge that names [editor_to_author] and lists a venue gives its source
    the editor role and its target the author role at that venue. *)
Lemma edge_gives_roles G u v d iss :
  graph_wf G -> edge_at u v G = Some d -> is_editor_edge d = true ->
  In iss (issues d) ->
  edits_at G u iss = true /\ authors_at G v iss = true.
Proof.
  intros W E L I. apply (In_edges u v d G W) in E. apply str_in_In in I.
  unfold edits_at, authors_at.
  split; apply existsb_exists; exists (u, v, d); (split; [exact E |]);
    cbn [fst snd]; now rewrite L, I, String.eqb_refl.
Qed.

(** ** Scores *)

Lemma get_or_bump q k p m :
  Dict.get_or q 0%Z (bump k p m) =
  (Dict.get_or q 0 m + (if String.eqb q p then k else 0))%Z.
Proof.
  unfold bump. rewrite get_or_set. norm_keys.
  destruct (String.eqb_spec q p) as [-> | N]; [reflexivity | lia].
Qed.

Lemma mem_bump q k p m : Dict.mem q (bump k p m) = String.eqb q p || Dict.mem q m.
Proof. unfold bump. now rewrite mem_set. Qed.

(** * The detector: self-overlap *)

(** C3.  The self-overlap records naming a person and a venue are exactly one
    record when some [editor_to_author] edge leaving the person and some
    [editor_to_author] edge entering the person both list the venue, and none
    otherwise, whatever the number of edges or list items that say so. *)
Theorem self_overlap_reported_once (G : DiGraph) (p iss : string) :
  self_overlaps_of p iss (self_overlap (detect_suspicious_patterns G)) =
  if edits_at G p iss && authors_at G p iss
  then [{| person := p; issue := iss |}] else [].
Proof.
  cbn [detect_suspicious_patterns self_overlap].
  rewrite (self_overlaps_of_spec _ p iss (person_issue_roles_wf G)).
  now rewrite person_issue_roles_editor, person_issue_roles_author.
Qed.

(** X10.  The same on records: a name among both the editors and the authors of
    some record is reported once for that record's venue, however many
    records of the input share the venue. *)
Lemma overlapping_record_reported_once articles e p :
  In e articles -> In p (entry_editors e) -> In p (entry_authors e) ->
  self_overlaps_of p (issue_id e)
    (self_overlap (detect_suspicious_patterns
                     (build_partially_directed_graph articles))) =
  [{| person := p; issue := issue_id e |}].
Proof.
  intros I Ie Ia. cbn [detect_suspicious_patterns self_overlap].
  rewrite (self_overlaps_of_spec _ p (issue_id e) (person_issue_roles_wf _)).
  rewrite person_issue_roles_editor, person_issue_roles_author.
  destruct (build_establishes articles e EDITOR_TO_AUTHOR p p I) as [L H].
  { unfold entry_ops. apply in_or_app. left. now apply In_ed_ops. }
  destruct L as (d & E & C), H as (d' & E' & H).
  rewrite E in E'. injection E' as <-.
  destruct (edge_gives_roles _ p p d (issue_id e) (build_wf articles) E C H) as [-> ->].
  reflexivity.
Qed.

Lemma overlapping_record_twice :
  self_overlaps_of "a" "J :: S"
    (self_overlap (detect_suspicious_patterns
       (build_partially_directed_graph (editor_among_authors ++ editor_among_authors))))
  = [{| person := "a"; issue := "J :: S" |}].
Proof.
  apply (overlapping_record_reported_once
           (editor_among_authors ++ editor_among_authors)
           (article "T1" "J" "S" ["a"] ["a"; "b"]) "a");
    vm_compute; auto.
Defined.

(** * The detector: reciprocal editing *)

(** C4.  When two distinct people each have an [editor_to_author] edge to the
    other, the detector emits one record for each order of the pair, each
    carrying the venue list of its own direction first, and no other record
    between the two: two records for the unordered pair. *)
Theorem reciprocal_both_orders (G : DiGraph) (A B : string) (dAB dBA : edge_attr) :
  graph_wf G -> A <> B ->
  edge_at A B G = Some dAB -> is_editor_edge dAB = true -> issues dAB <> [] ->
  edge_at B A G = Some dBA -> is_editor_edge dBA = true -> issues dBA <> [] ->
  reciprocals_of A B (reciprocal (detect_suspicious_patterns G)) =
    [{| personA := A; personB := B;
        issues_A_ed_B_auth := issues dAB; issues_B_ed_A_auth := issues dBA |}] /\
  reciprocals_of B A (reciprocal (detect_suspicious_patterns G)) =
    [{| personA := B; personB := A;
        issues_A_ed_B_auth := issues dBA; issues_B_ed_A_auth := issues dAB |}] /\
  List.length
    (filter (fun r => keqb (personA r, personB r) (A, B) ||
                      keqb (personA r, personB r) (B, A))
            (reciprocal (detect_suspicious_patterns G))) = 2.
Proof.
  intros W N EAB LAB IAB EBA LBA IBA.
  assert (RAB : editor_issues (edge_at A B G) = Some (issues dAB)).
  { rewrite EAB. cbn [editor_issues]. rewrite LAB. now destruct (issues dAB). }
  assert (RBA : editor_issues (edge_at B A G) = Some (issues dBA)).
  { rewrite EBA. cbn [editor_issues]. rewrite LBA. now destruct (issues dBA). }
  pose proof (detect_reciprocals_of G A B W) as X. rewrite RAB, RBA in X.
  pose proof (detect_reciprocals_of G B A W) as Y. rewrite RAB, RBA in Y.
  split; [exact X |]. split; [exact Y |].
  rewrite filter_or_disjoint.
  - unfold reciprocals_of in X, Y. now rewrite X, Y.
  - intros r. norm_keys.
    destruct (String.eqb_spec (personA r) A) as [-> | _]; cbn [andb]; [| reflexivity].
    destruct (String.eqb_spec (personB r) B) as [-> | _]; cbn [andb]; [| reflexivity].
    apply String.eqb_neq in N. now rewrite N.
Qed.

Lemma reciprocal_both_orders_witness :
  reciprocals_of "a" "b"
    (reciprocal (detect_suspicious_patterns
                   (build_partially_directed_graph mutual_editors))) =
    [{| personA := "a"; personB := "b";
        issues_A_ed_B_auth := ["J :: V1"]; issues_B_ed_A_auth := ["J :: V2"] |}] /\
  reciprocals_of "b" "a"
    (reciprocal (detect_suspicious_patterns
                   (build_partially_directed_graph mutual_editors))) =
    [{| personA := "b"; personB := "a";
        issues_A_ed_B_auth := ["J :: V2"]; issues_B_ed_A_auth := ["J :: V1"] |}] /\
  List.length
    (filter (fun r => keqb (personA r, personB r) ("a", "b") ||
                      keqb (personA r, personB r) ("b", "a"))
            (reciprocal (detect_suspicious_patterns
                           (build_partially_directed_graph mutual_editors)))) = 2.
Proof.
  apply (reciprocal_both_orders
           (build_partially_directed_graph mutual_editors) "a" "b"
           {| relationship := "editor_to_author";
              issues := ["J :: V1"]; titles := ["T1"] |}
           {| relationship := "editor_to_author";
              issues := ["J :: V2"]; titles := ["T2"] |});
    try reflexivity; try discriminate.
  apply build_wf.
Defined.

(** * The detector and the scorer on a self-loop *)



(** * One list of venues for both kinds of relation *)



(** The venue [V3] of [mutual_then_coauthored] has no editor, yet both
    authors are reported as overlapping with themselves there, and [V3] is
    listed in both directions of their reciprocal records. *)
Example coauthor_venue_reported :
  detect_suspicious_patterns
    (build_partially_directed_graph mutual_then_coauthored) =
  {| self_overlap := [{| person := "a"; issue := "J :: V3" |};
                      {| person := "b"; issue := "J :: V3" |}];
     reciprocal :=
       [{| personA := "a"; personB := "b";
           issues_A_ed_B_auth := ["J :: V1"; "J :: V3"];
           issues_B_ed_A_auth := ["J :: V2"; "J :: V3"] |};
        {| personA := "b"; personB := "a";
           issues_A_ed_B_auth := ["J :: V2"; "J :: V3"];
           issues_B_ed_A_auth := ["J :: V1"; "J :: V3"] |}] |}.
Proof. reflexivity. Qed.

(** * The scorer *)

Lemma get_mem_get_or (q : string) (m : score_map) :
  Dict.get q m = if Dict.mem q m then Some (Dict.get_or q 0%Z m) else None.
Proof. unfold Dict.mem, Dict.get_or. destruct (Dict.get q m); reflexivity. Qed.

Ltac bool_ltb :=
  repeat match goal with
         | |- context [Dict.mem ?q ?m] => destruct (Dict.mem q m); cbn [orb]
         | |- context [0 <? ?n] => destruct (Nat.ltb_spec 0 n)
         end;
  try reflexivity; lia.

Lemma score_self_fold q l m :
  Dict.get_or q 0%Z (fold_left score_self l m) =
    (Dict.get_or q 0 m + 3 * Z.of_nat (count q (map person l)))%Z /\
  Dict.mem q (fold_left score_self l m) =
    Dict.mem q m || (0 <? count q (map person l)).
Proof.
  revert m. induction l as [| s l IH]; intros m; cbn [fold_left map].
  - rewrite count_nil. split; [lia | now rewrite orb_false_r].
  - destruct (IH (score_self m s)) as [-> ->]. unfold score_self.
    rewrite get_or_bump, mem_bump, count_cons. norm_keys.
    destruct (String.eqb q (person s)); cbn [orb]; split; try lia; bool_ltb.
Qed.

Lemma score_recip_fold q l m :
  Dict.get_or q 0%Z (fold_left score_recip l m) =
    (Dict.get_or q 0 m + 2 * Z.of_nat (count q (map personA l))
                       + 2 * Z.of_nat (count q (map personB l)))%Z /\
  Dict.mem q (fold_left score_recip l m) =
    Dict.mem q m ||
    (0 <? count q (map personA l) + count q (map personB l)).
Proof.
  revert m. induction l as [| r l IH]; intros m; cbn [fold_left map].
  - rewrite !count_nil. split; [lia | now rewrite orb_false_r].
  - destruct (IH (score_recip m r)) as [-> ->]. unfold score_recip.
    rewrite !get_or_bump, !mem_bump, !count_cons. norm_keys.
    destruct (String.eqb q (personA r)), (String.eqb q (personB r));
      cbn [orb]; split; try lia; bool_ltb.
Qed.

Lemma score_suspicion_get s p :
  Dict.get p (score_suspicion s) =
  if count p (map person (self_overlap s)) +
     count p (map personA (reciprocal s)) +
     count p (map personB (reciprocal s)) =? 0
  then None
  else Some (3 * Z.of_nat (count p (map person (self_overlap s))) +
             2 * Z.of_nat (count p (map personA (reciprocal s))) +
             2 * Z.of_nat (count p (map personB (reciprocal s))))%Z.
Proof.
  rewrite get_mem_get_or. unfold score_suspicion.
  destruct (score_recip_fold p (reciprocal s)
              (fold_left score_self (self_overlap s) [])) as [-> ->].
  destruct (score_self_fold p (self_overlap s) []) as [-> ->].
  cbn [Dict.mem Dict.get Dict.get_or orb].
  set (ns := count p (map person (self_overlap s))).
  set (na := count p (map personA (reciprocal s))).
  set (nb := count p (map personB (reciprocal s))).
  destruct (Nat.eqb_spec (ns + na + nb) 0) as [Z | NZ];
    destruct (Nat.ltb_spec 0 ns), (Nat.ltb_spec 0 (na + nb)); cbn [orb];
    try reflexivity; try (exfalso; lia); f_equal; lia.
Qed.

Lemma count_personA_implicated p l :
  count p (map personA l) = count p (map personA (filter (implicates p) l)) /\
  count p (map personB l) = count p (map personB (filter (implicates p) l)).
Proof.
  induction l as [| r l [IHa IHb]]; [split; reflexivity |].
  cbn [map filter]. destruct (implicates p r) eqn:I; cbn [map];
    rewrite !count_cons; norm_keys; [split; lia |].
  unfold implicates in I. apply orb_false_iff in I. destruct I as [Ea Eb].
  rewrite (String.eqb_sym p (personA r)), (String.eqb_sym p (personB r)), Ea, Eb.
  split; lia.
Qed.

(** C5, as the code has it.  A person's score is three times the number of
    self-overlap entries naming them plus two for every reciprocal entry in
    which they are [personA] and two for every one in which they are
    [personB]; a person named by no entry has no score.  So with exactly one
    self-overlap entry and one reciprocal entry [r] implicating them the
    score is 5 when the two people of [r] differ and 7 when they are the same
    person. *)
Theorem score_weighs_entries (s : suspicions) (p : string) :
  Dict.get p (score_suspicion s) =
    (if count p (map person (self_overlap s)) +
        count p (map personA (reciprocal s)) +
        count p (map personB (reciprocal s)) =? 0
     then None
     else Some (3 * Z.of_nat (count p (map person (self_overlap s))) +
                2 * Z.of_nat (count p (map personA (reciprocal s))) +
                2 * Z.of_nat (count p (map personB (reciprocal s))))%Z) /\
  (forall r,
     count p (map person (self_overlap s)) = 1 ->
     filter (implicates p) (reciprocal s) = [r] ->
     Dict.get p (score_suspicion s) =
       Some (if String.eqb (personA r) (personB r) then 7 else 5)%Z).
Proof.
  split; [apply score_suspicion_get |].
  intros r S F. rewrite score_suspicion_get.
  destruct (count_personA_implicated p (reciprocal s)) as [-> ->].
  rewrite F, S. cbn [map]. rewrite !count_cons, !count_nil. norm_keys.
  assert (I : implicates p r = true).
  { assert (X : In r (filter (implicates p) (reciprocal s))) by (rewrite F; now left).
    now apply filter_In in X. }
  unfold implicates in I.
  rewrite (String.eqb_sym (personA r) p), (String.eqb_sym (personB r) p) in I.
  destruct (String.eqb p (personA r)) eqn:Ea, (String.eqb p (personB r)) eqn:Eb;
    try discriminate;
    rewrite ?String.eqb_eq, ?String.eqb_neq in Ea, Eb;
    destruct (String.eqb_spec (personA r) (personB r));
    try reflexivity; congruence.
Qed.

Lemma score_weighs_entries_witness :
  Dict.get "a" (score_suspicion own_editor) = Some 7%Z.
Proof.
  apply (proj2 (score_weighs_entries own_editor "a")
           {| personA := "a"; personB := "a";
              issues_A_ed_B_auth := ["J :: S"];
              issues_B_ed_A_auth := ["J :: S"] |});
    reflexivity.
Defined.

(** C5 as worded fails: [own_editor] is what the detector reports for the
    one record [editor_among_authors]; it holds exactly one self-overlap entry
    and exactly one reciprocal entry, both about [a], and [a] scores 7. *)
Lemma one_overlap_one_reciprocal_scores_seven :
  detect_suspicious_patterns (build_partially_directed_graph editor_among_authors)
    = own_editor /\
  List.length (self_overlap own_editor) = 1 /\
  List.length (reciprocal own_editor) = 1 /\
  score_suspicion own_editor = [("a", 7%Z)] /\
  Dict.get "a" (score_suspicion own_editor) <> Some 5%Z.
Proof. repeat split; try reflexivity. discriminate. Qed.

(** * The loader *)

Lemma load_loop_tolerant fs file_paths printed all_data :
  Forall (fun fpath => fs fpath <> Unopenable) file_paths ->
  load_loop fs file_paths printed all_data =
  Loaded (printed ++ flat_map (complaint fs) file_paths)
         (all_data ++ flat_map (contents fs) file_paths).
Proof.
  intros F. revert printed all_data.
  induction F as [| fpath rest N _ IH]; intros printed all_data; cbn [load_loop flat_map].
  - now rewrite !app_nil_r.
  - unfold complaint at 1, contents at 1.
    destruct (fs fpath); try congruence; rewrite IH;
      now rewrite <- ?app_assoc, ?app_nil_r.
Qed.

(** Sources that are missing or whose content does not parse are skipped with
    a message, and the usable ones are concatenated in order. *)
Lemma load_skips_missing_and_unparseable fs file_paths :
  Forall (fun fpath => fs fpath <> Unopenable) file_paths ->
  load_and_merge_data fs file_paths =
  Loaded (flat_map (complaint fs) file_paths) (flat_map (contents fs) file_paths).
Proof. intros F. unfold load_and_merge_data. now rewrite load_loop_tolerant. Qed.

Lemma load_loop_raises fs before fpath after printed all_data :
  Forall (fun q => fs q <> Unopenable) before ->
  fs fpath = Unopenable ->
  load_loop fs (before ++ fpath :: after) printed all_data = Raised fpath.
Proof.
  intros F U. revert printed all_data.
  induction F as [| q rest N _ IH]; intros printed all_data; cbn [load_loop app].
  - now rewrite U.
  - destruct (fs q); try congruence; apply IH.
Qed.

(** C8 fails on the code.  A source that exists but cannot be opened is not
    skipped: [open] stands outside the [try], so its exception leaves the
    loader, and neither the sources before it nor those after it are
    returned. *)
Theorem unopenable_source_aborts
    (fs : string -> source) (before after : list string) (fpath : string) :
  Forall (fun q => fs q <> Unopenable) before ->
  fs fpath = Unopenable ->
  load_and_merge_data fs (before ++ fpath :: after) = Raised fpath.
Proof. intros F U. now apply load_loop_raises. Qed.

Lemma unopenable_source_aborts_witness :
  load_and_merge_data only_a_directory ["."] = Raised ".".
Proof.
  apply (unopenable_source_aborts only_a_directory [] [] ".");
    [constructor | reflexivity].
Defined.

(** * Clusters *)

(** ** The order on names *)

Lemma str_lt_compare a b : str_lt a b <-> String.compare a b = Lt.
Proof.
  unfold str_lt, String.ltb. destruct (String.compare a b); split; congruence.
Qed.

Lemma str_le_compare a b : str_le a b <-> String.compare a b <> Gt.
Proof.
  unfold str_le, String.leb. destruct (String.compare a b); split; congruence.
Qed.

Lemma str_lt_trans a b c : str_lt a b -> str_lt b c -> str_lt a c.
Proof.
  rewrite !str_lt_compare. intros H1 H2.
  apply String_as_OT.cmp_lt in H1, H2. apply String_as_OT.cmp_lt.
  eapply String_as_OT.lt_trans; eauto.
Qed.

Lemma str_lt_irrefl a : ~ str_lt a a.
Proof.
  rewrite str_lt_compare. intros H.
  assert (E : String.compare a a = Eq) by now apply String_as_OT.cmp_eq.
  congruence.
Qed.

Lemma str_le_lt_eq a b : str_le a b <-> str_lt a b \/ a = b.
Proof.
  rewrite str_le_compare, str_lt_compare. split.
  - destruct (String.compare a b) eqn:E; intros H; try congruence; [right | now left].
    now apply String.compare_eq_iff.
  - intros [-> | ->]; [discriminate |].
    assert (E : String.compare b b = Eq) by now apply String_as_OT.cmp_eq.
    congruence.
Qed.

Lemma str_le_total a b : str_le a b \/ str_le b a.
Proof. apply String.leb_total. Qed.

(** ** [sorted] *)

Lemma insert_sorted_perm x l : Permutation (insert_sorted x l) (x :: l).
Proof.
  induction l as [| y l IH]; cbn [insert_sorted]; [reflexivity |].
  destruct (String.leb x y); [reflexivity |].
  rewrite IH. apply perm_swap.
Qed.

Lemma sorted_perm l : Permutation (sorted l) l.
Proof.
  induction l as [| x l IH]; cbn [sorted fold_right]; [reflexivity |].
  rewrite insert_sorted_perm. now constructor.
Qed.

Lemma sorted_In x l : In x (sorted l) <-> In x l.
Proof.
  split; apply Permutation_in; [apply sorted_perm | symmetry; apply sorted_perm].
Qed.

Lemma sorted_length l : List.length (sorted l) = List.length l.
Proof. apply Permutation_length, sorted_perm. Qed.

Lemma sorted_NoDup l : NoDup l -> NoDup (sorted l).
Proof. apply Permutation_NoDup. symmetry. apply sorted_perm. Qed.

Lemma insert_sorted_increasing x l :
  ~ In x l -> StronglySorted str_lt l -> StronglySorted str_lt (insert_sorted x l).
Proof.
  induction l as [| y l IH]; intros N S; cbn [insert_sorted].
  - repeat constructor.
  - apply StronglySorted_inv in S. destruct S as [S F].
    destruct (String.leb x y) eqn:L.
    + assert (Lt : str_lt x y).
      { apply str_le_lt_eq in L. destruct L as [L | ->]; [exact L |].
        exfalso. apply N. now left. }
      constructor; [now constructor |]. constructor; [exact Lt |].
      eapply Forall_impl; [| exact F]. intros z. now apply str_lt_trans.
    + assert (Lt : str_lt y x).
      { destruct (str_le_total x y) as [C | C]; [unfold str_le in C; congruence |].
        apply str_le_lt_eq in C. destruct C as [C | ->]; [exact C |].
        exfalso. apply N. now left. }
      constructor.
      * apply IH; [intros I; apply N; now right | exact S].
      * apply Forall_forall. intros z I.
        apply (Permutation_in _ (insert_sorted_perm x l)) in I.
        destruct I as [<- | I]; [exact Lt |].
        now apply (proj1 (Forall_forall _ _) F).
Qed.

Lemma sorted_increasing l : NoDup l -> StronglySorted str_lt (sorted l).
Proof.
  induction l as [| x l IH]; intros N; cbn [sorted fold_right]; [constructor |].
  inversion N as [| ? ? N1 N2]; subst.
  apply insert_sorted_increasing; [| now apply IH].
  intros I. apply N1. now apply sorted_In.
Qed.

Lemma increasing_NoDup l : StronglySorted str_lt l -> NoDup l.
Proof.
  induction 1 as [| a l S IH F]; constructor; [| exact IH].
  intros I. apply (proj1 (Forall_forall _ _) F) in I. now apply str_lt_irrefl in I.
Qed.

(** A set of names has one increasing enumeration. *)
Lemma increasing_unique l1 l2 :
  StronglySorted str_lt l1 -> StronglySorted str_lt l2 ->
  (forall x, In x l1 <-> In x l2) -> l1 = l2.
Proof.
  intros S1. revert l2. induction S1 as [| a l1 S1 IH F1]; intros l2 S2 E.
  - destruct l2 as [| b l2]; [reflexivity |].
    exfalso. apply (E b). now left.
  - destruct S2 as [| b l2 S2 F2].
    + exfalso. apply (E a). now left.
    + assert (Q : a = b).
      { destruct (proj1 (E a) (or_introl eq_refl)) as [Q | I]; [now symmetry |].
        destruct (proj2 (E b) (or_introl eq_refl)) as [Q | J]; [exact Q |].
        apply (proj1 (Forall_forall _ _) F2) in I.
        apply (proj1 (Forall_forall _ _) F1) in J.
        exfalso. apply (str_lt_irrefl a). eapply str_lt_trans; eauto. }
      subst b. f_equal. apply IH; [exact S2 |].
      intros x. split; intros I.
      * destruct (proj1 (E x) (or_intror I)) as [<- | J]; [| exact J].
        apply (proj1 (Forall_forall _ _) F1) in I. now apply str_lt_irrefl in I.
      * destruct (proj2 (E x) (or_intror I)) as [<- | J]; [| exact J].
        apply (proj1 (Forall_forall _ _) F2) in I. now apply str_lt_irrefl in I.
Qed.

(** ** One level of the search *)

Lemma In_neighbours es x y : In y (neighbours es x) <-> adjacent es x y.
Proof.
  unfold neighbours, adjacent. rewrite in_flat_map. split.
  - intros ([u v] & I & H). apply in_app_or in H.
    destruct H as [H | H].
    + destruct (String.eqb_spec x u) as [-> | _]; [| destruct H].
      destruct H as [<- | []]. now left.
    + destruct (String.eqb_spec x v) as [-> | _]; [| destruct H].
      destruct H as [<- | []]. now right.
  - intros [I | I].
    + exists (x, y). split; [exact I |]. rewrite String.eqb_refl.
      apply in_or_app. left. now left.
    + exists (y, x). split; [exact I |]. rewrite String.eqb_refl.
      apply in_or_app. right. now left.
Qed.

(** What a run of [visit] adds: the unseen names of [ws], once each. *)
Lemma visit_fold ws seen next :
  exists new,
    fold_left visit ws (seen, next) = (seen ++ new, next ++ new) /\
    (forall y, In y new -> In y ws /\ ~ In y seen) /\
    (forall y, In y ws -> In y (seen ++ new)) /\
    (NoDup seen -> NoDup (seen ++ new)).
Proof.
  revert seen next. induction ws as [| w ws IH]; intros seen next.
  - exists []. cbn [fold_left]. rewrite !app_nil_r.
    repeat split; auto; intros y [].
  - cbn [fold_left visit]. destruct (str_in w seen) eqn:S.
    + destruct (IH seen next) as (new & E & A & B & C).
      exists new. split; [exact E |]. split; [| split; [| exact C]].
      * intros y I. destruct (A y I). split; [now right | assumption].
      * intros y [<- | I]; [| now apply B].
        apply in_or_app. left. now apply str_in_In.
    + assert (Nw : ~ In w seen).
      { intros I. apply str_in_In in I. congruence. }
      destruct (IH (seen ++ [w]) (next ++ [w])) as (new & E & A & B & C).
      exists (w :: new). rewrite E, <- !app_assoc. cbn [app].
      split; [reflexivity |]. split; [| split].
      * intros y [<- | I]; [split; [now left | exact Nw] |].
        destruct (A y I) as [I1 I2]. split; [now right |].
        intros J. apply I2, in_or_app. now left.
      * intros y [<- | I].
        -- apply in_or_app. right. now left.
        -- specialize (B y I). now rewrite <- app_assoc in B.
      * intros N. rewrite <- app_assoc in C. apply C.
        apply NoDup_app; [exact N | repeat constructor; intros [] |].
        intros x I [<- | []]. now apply Nw.
Qed.

Lemma bfs_level_from es level seen next :
  exists new,
    fold_left (fun acc v => fold_left visit (neighbours es v) acc) level (seen, next)
      = (seen ++ new, next ++ new) /\
    (forall y, In y new -> ~ In y seen /\ exists v, In v level /\ adjacent es v y) /\
    (forall v y, In v level -> adjacent es v y -> In y (seen ++ new)) /\
    (NoDup seen -> NoDup (seen ++ new)).
Proof.
  revert seen next. induction level as [| v level IH]; intros seen next.
  - exists []. cbn [fold_left]. rewrite !app_nil_r.
    split; [reflexivity |]. split; [intros y [] |]. split; [intros v y [] | auto].
  - cbn [fold_left].
    destruct (visit_fold (neighbours es v) seen next) as (n1 & E1 & A1 & B1 & C1).
    rewrite E1.
    destruct (IH (seen ++ n1) (next ++ n1)) as (n2 & E2 & A2 & B2 & C2).
    exists (n1 ++ n2). rewrite E2, <- !app_assoc.
    split; [reflexivity |]. split; [| split].
    + intros y I. apply in_app_or in I. destruct I as [I | I].
      * destruct (A1 y I) as [I1 I2]. split; [exact I2 |].
        exists v. split; [now left | now apply In_neighbours].
      * destruct (A2 y I) as (I1 & w & Iw & Aw). split.
        -- intros J. apply I1, in_or_app. now left.
        -- exists w. split; [now right | exact Aw].
    + intros w y [<- | Iw] Aw.
      * apply In_neighbours, B1 in Aw. rewrite app_assoc.
        apply in_or_app. now left.
      * specialize (B2 w y Iw Aw). now rewrite <- app_assoc in B2.
    + intros N. rewrite <- app_assoc in C2. auto.
Qed.

Lemma bfs_level_spec es seen level :
  exists next,
    bfs_level es seen level = (seen ++ next, next) /\
    (forall y, In y next -> ~ In y seen /\ exists v, In v level /\ adjacent es v y) /\
    (forall v y, In v level -> adjacent es v y -> In y (seen ++ next)) /\
    (NoDup seen -> NoDup (seen ++ next)).
Proof.
  destruct (bfs_level_from es level seen []) as (new & E & A & B & C).
  exists new. unfold bfs_level. now rewrite E.
Qed.

(** ** The search reaches exactly the component *)

Lemma connected_step es x y z : connected es x y -> adjacent es y z -> connected es x z.
Proof.
  intros C A. eapply rt_trans; [exact C | now apply rt_step].
Qed.

Lemma adjacent_sym es x y : adjacent es x y -> adjacent es y x.
Proof. unfold adjacent. tauto. Qed.

Lemma connected_sym es x y : connected es x y -> connected es y x.
Proof.
  induction 1 as [x y A | x | x y z _ IH1 _ IH2].
  - apply rt_step. now apply adjacent_sym.
  - apply rt_refl.
  - eapply rt_trans; eauto.
Qed.

Lemma closed_connected es (c : list string) x y :
  (forall a b, In a c -> adjacent es a b -> In b c) ->
  connected es x y -> In x c -> In y c.
Proof.
  intros Cl C. induction C as [x y A | x | x y z _ IH1 _ IH2]; eauto.
Qed.

Lemma plain_bfs_spec es U v0 fuel seen level :
  (forall x y, adjacent es x y -> In y U) ->
  NoDup seen -> incl seen U -> incl level seen ->
  (forall x, In x seen -> connected es v0 x) ->
  (forall x y, In x seen -> ~ In x level -> adjacent es x y -> In y seen) ->
  (level <> [] -> List.length U < fuel + List.length seen) ->
  let c := plain_bfs fuel es seen level in
  NoDup c /\ incl seen c /\
  (forall x, In x c -> connected es v0 x) /\
  (forall x y, In x c -> adjacent es x y -> In y c).
Proof.
  intros HU. revert seen level.
  assert (Done : forall seen level,
             NoDup seen -> level = [] ->
             (forall x, In x seen -> connected es v0 x) ->
             (forall x y, In x seen -> ~ In x level -> adjacent es x y -> In y seen) ->
             NoDup seen /\ incl seen seen /\
             (forall x, In x seen -> connected es v0 x) /\
             (forall x y, In x seen -> adjacent es x y -> In y seen)).
  { intros seen level N -> Cn Cl. repeat split; auto using incl_refl.
    intros x y I A. apply (Cl x y I); auto. }
  induction fuel as [| fuel IH]; intros seen level N IU IL Cn Cl F c.
  - subst c. cbn [plain_bfs]. apply (Done seen level); auto.
    destruct level as [| l0 level]; [reflexivity |].
    exfalso. pose proof (NoDup_incl_length N IU).
    assert (l0 :: level <> []) by discriminate. specialize (F H0). lia.
  - subst c. cbn [plain_bfs]. destruct level as [| l0 level].
    + apply (Done seen []); auto.
    + destruct (bfs_level_spec es seen (l0 :: level)) as (next & E & A & B & C).
      rewrite E.
      assert (IU' : incl (seen ++ next) U).
      { intros x I. apply in_app_or in I. destruct I as [I | I]; [now apply IU |].
        destruct (A x I) as (_ & v & _ & Av). eapply HU; eauto. }
      destruct (IH (seen ++ next) next) as (R1 & R2 & R3 & R4); auto.
      * intros x I. apply in_or_app. now right.
      * intros x I. apply in_app_or in I. destruct I as [I | I]; [now apply Cn |].
        destruct (A x I) as (_ & v & Iv & Av).
        eapply connected_step; [apply Cn, IL, Iv | exact Av].
      * intros x y I Nn Ad. apply in_app_or in I.
        destruct I as [I | I]; [| contradiction].
        destruct (in_dec string_dec x (l0 :: level)) as [Il | Nl].
        -- now apply (B x y).
        -- apply in_or_app. left. now apply (Cl x y).
      * intros Ne. rewrite length_app.
        assert (0 < List.length next) by (destruct next; [congruence | simpl; lia]).
        assert (l0 :: level <> []) by discriminate. specialize (F H0). lia.
      * repeat split; auto. intros x I. apply R2, in_or_app. now left.
Qed.

(** The search from [v] returns the names connected to [v], each once. *)
Lemma plain_bfs_component es U v :
  (forall x y, adjacent es x y -> In y U) -> In v U ->
  let c := plain_bfs (List.length U) es [v] [v] in
  NoDup c /\ forall x, In x c <-> connected es v x.
Proof.
  intros HU Iv c.
  destruct (plain_bfs_spec es U v (List.length U) [v] [v]) as (R1 & R2 & R3 & R4);
    auto.
  - repeat constructor. intros [].
  - intros x [<- | []]. exact Iv.
  - apply incl_refl.
  - intros x [<- | []]. apply rt_refl.
  - intros x y I N. contradiction.
  - intros _. simpl. lia.
  - fold c in R1, R2, R3, R4. split; [exact R1 |]. intros x. split; [apply R3 |].
    intros C. apply (closed_connected es c v x R4 C). apply R2. now left.
Qed.

(** ** The components, one per unseen start *)

Lemma str_in_false x l : str_in x l = false <-> ~ In x l.
Proof.
  rewrite <- str_in_In. destruct (str_in x l); split; congruence.
Qed.

Lemma components_spec es U order seen :
  (forall x y, adjacent es x y -> In y U) -> incl order U ->
  (forall x y, In x seen -> connected es x y -> In y seen) ->
  let comps := components (List.length U) es order seen in
  (forall c, In c comps ->
     NoDup c /\ exists v, In v order /\ ~ In v seen /\
                          forall x, In x c <-> connected es v x) /\
  (forall x, In x seen -> filter (str_in x) comps = []) /\
  (forall x, ~ In x seen -> (exists v, In v order /\ connected es v x) ->
     List.length (filter (str_in x) comps) = 1).
Proof.
  intros HU. revert seen. induction order as [| v order IH]; intros seen IO Cl comps.
  - subst comps. cbn [components]. split; [intros c [] |]. split; [reflexivity |].
    intros x _ (w & [] & _).
  - assert (IO' : incl order U) by (intros x I; apply IO; now right).
    subst comps. cbn [components]. destruct (str_in v seen) eqn:S.
    + apply str_in_In in S.
      destruct (IH seen IO' Cl) as (R1 & R2 & R3). split; [| split].
      * intros c I. destruct (R1 c I) as (N & w & Iw & Rest).
        split; [exact N |]. exists w. split; [now right | exact Rest].
      * exact R2.
      * intros x Nx (w & [<- | Iw] & Cw).
        -- exfalso. apply Nx. eapply Cl; eauto.
        -- apply R3; eauto.
    + apply str_in_false in S.
      destruct (plain_bfs_component es U v HU (IO v (or_introl eq_refl))) as [Nc Mc].
      set (c := plain_bfs (List.length U) es [v] [v]) in *.
      assert (Cl' : forall x y, In x (seen ++ c) -> connected es x y -> In y (seen ++ c)).
      { intros x y I C. apply in_app_or in I. apply in_or_app.
        destruct I as [I | I]; [left; eapply Cl; eauto |].
        right. apply Mc. eapply rt_trans; [apply Mc, I | exact C]. }
      destruct (IH (seen ++ c) IO' Cl') as (R1 & R2 & R3).
      assert (Dis : forall x, In x seen -> ~ In x c).
      { intros x I J. apply S. apply (Cl x v I).
        apply connected_sym. now apply Mc. }
      split; [| split].
      * intros c' [<- | I].
        -- split; [exact Nc |]. exists v. split; [now left | split; [exact S | exact Mc]].
        -- destruct (R1 c' I) as (N & w & Iw & Nw & Rest).
           split; [exact N |]. exists w. split; [now right |]. split; [| exact Rest].
           intros J. apply Nw, in_or_app. now left.
      * intros x I. cbn [filter].
        rewrite (proj2 (str_in_false x c) (Dis x I)).
        apply R2, in_or_app. now left.
      * intros x Nx (w & Iw & Cw). cbn [filter].
        destruct (str_in x c) eqn:Sx.
        -- apply str_in_In in Sx. cbn [List.length].
           rewrite R2; [reflexivity | apply in_or_app; now right].
        -- apply str_in_false in Sx. apply R3.
           ++ intros I. apply in_app_or in I. tauto.
           ++ destruct Iw as [<- | Iw]; [exfalso; apply Sx; now apply Mc | eauto].
Qed.

(** ** Sorting and the size filter *)

Lemma str_in_sorted x c : str_in x (sorted c) = str_in x c.
Proof.
  destruct (str_in x c) eqn:S.
  - apply str_in_In. apply sorted_In. now apply str_in_In.
  - apply str_in_false. rewrite sorted_In. now apply str_in_false.
Qed.

Lemma In_clusters_of cl comps :
  In cl (clusters_of comps) <->
  exists c, In c comps /\ cl = sorted c /\ 2 < List.length c.
Proof.
  unfold clusters_of. rewrite in_flat_map. split.
  - intros (c & I & H). exists c. split; [exact I |].
    destruct (Nat.ltb_spec 2 (List.length (sorted c))) as [L | L];
      [| destruct H].
    destruct H as [<- | []]. split; [reflexivity |]. now rewrite sorted_length in L.
  - intros (c & I & -> & L). exists c. split; [exact I |].
    rewrite <- sorted_length in L. apply Nat.ltb_lt in L. rewrite L. now left.
Qed.

Lemma filter_clusters_of x comps :
  List.length (filter (str_in x) (clusters_of comps)) =
  List.length (filter (fun c => str_in x c && (2 <? List.length c)) comps).
Proof.
  unfold clusters_of. induction comps as [| c comps IH]; [reflexivity |].
  cbn [flat_map filter]. rewrite filter_app, length_app, IH, sorted_length.
  destruct (2 <? List.length c); cbn [filter]; rewrite ?str_in_sorted;
    destruct (str_in x c); reflexivity.
Qed.

Lemma filter_and_implied {A} (P Q : A -> bool) l :
  (forall a, In a l -> P a = true -> Q a = true) ->
  filter (fun a => P a && Q a) l = filter P l.
Proof.
  intros H. apply filter_ext_in. intros a I.
  destruct (P a) eqn:E; [| reflexivity]. now rewrite (H a I E).
Qed.

Lemma filter_none {A} (P : A -> bool) l :
  (forall a, In a l -> P a = false) -> filter P l = [].
Proof.
  induction l as [| a l IH]; intros H; [reflexivity |].
  cbn [filter]. rewrite (H a (or_introl eq_refl)). apply IH.
  intros b I. apply H. now right.
Qed.

Lemma filter_all {A} (P : A -> bool) l :
  (forall a, In a l -> P a = true) -> filter P l = l.
Proof.
  induction l as [| a l IH]; intros H; [reflexivity |].
  cbn [filter]. rewrite (H a (or_introl eq_refl)). f_equal. apply IH.
  intros b I. apply H. now right.
Qed.

Lemma three_members (a b d : string) c :
  In a c -> In b c -> In d c -> a <> b -> a <> d -> b <> d -> 2 < List.length c.
Proof.
  intros Ia Ib Id N1 N2 N3.
  assert (N : NoDup [a; b; d]).
  { repeat constructor; simpl; intuition congruence. }
  assert (I : incl [a; b; d] c).
  { intros x [<- | [<- | [<- | []]]]; assumption. }
  pose proof (NoDup_incl_length N I) as L. simpl in L. lia.
Qed.

Lemma two_others (v : string) (c : list string) :
  NoDup c -> 2 < List.length c -> In v c ->
  exists x y, In x c /\ In y c /\ x <> y /\ x <> v /\ y <> v.
Proof.
  intros N L I.
  destruct c as [| a [| b [| d c]]]; simpl in L; try lia.
  inversion N as [| ? ? Na N']; subst. inversion N' as [| ? ? Nb N'']; subst.
  inversion N'' as [| ? ? Nd _]; subst. simpl in Na, Nb.
  destruct (string_dec v a) as [-> | Va].
  - exists b, d. simpl. intuition congruence.
  - destruct (string_dec v b) as [-> | Vb].
    + exists a, d. simpl. intuition congruence.
    + exists a, b. simpl. intuition congruence.
Qed.

(** ** The co-author edges of a graph *)

Lemma In_co_edges G x y :
  graph_wf G -> (In (x, y) (co_edges G) <-> labelled CO_AUTHOR x y G).
Proof.
  intros W. unfold co_edges, labelled. rewrite in_flat_map. split.
  - intros ([[u v] d] & I & H). unfold is_coauthor_edge in H.
    destruct (contains CO_AUTHOR (relationship d)) eqn:C; [| destruct H].
    destruct H as [[= -> ->] | []]. exists d. split; [| exact C].
    now apply In_edges.
  - intros (d & E & C). exists (x, y, d). split; [now apply In_edges |].
    unfold is_coauthor_edge. rewrite C. now left.
Qed.

Lemma adjacent_co G x y :
  graph_wf G -> (adjacent (co_edges G) x y <-> co_adjacent G x y).
Proof.
  intros W. unfold adjacent, co_adjacent. now rewrite !In_co_edges.
Qed.

Lemma connected_co G x y :
  graph_wf G -> (connected (co_edges G) x y <-> co_connected G x y).
Proof.
  intros W. unfold connected, co_connected. split;
    (induction 1 as [x y A | x | x y z _ IH1 _ IH2];
     [apply rt_step; now apply (adjacent_co G x y W) | apply rt_refl
     | eapply rt_trans; eauto]).
Qed.

Lemma co_adjacent_in_co_nodes G x y :
  graph_wf G -> co_adjacent G x y -> In y (co_nodes G).
Proof.
  intros W A. unfold co_nodes. apply filter_In. split.
  - apply mem_keys. change (has_node y G = true).
    destruct A as [(d & E & _) | (d & E & _)].
    + apply (wf_dst W x y). unfold has_edge. now rewrite E.
    + destruct (has_node y G) eqn:H; [reflexivity |].
      apply (wf_src W) in H. unfold edge_at in E. now rewrite H in E.
  - unfold endpoint_of. apply existsb_exists.
    destruct A as [L | L]; apply (In_co_edges G) in L; try exact W.
    + exists (x, y). split; [exact L |]. rewrite String.eqb_refl. apply orb_true_r.
    + exists (y, x). split; [exact L |]. now rewrite String.eqb_refl.
Qed.

Lemma co_connected_sym G x y : co_connected G x y -> co_connected G y x.
Proof.
  induction 1 as [x y A | x | x y z _ IH1 _ IH2].
  - apply rt_step. unfold co_adjacent in *. tauto.
  - apply rt_refl.
  - eapply rt_trans; eauto.
Qed.

(** A name connected to another one touches a co-author edge. *)
Lemma co_connected_other G x y :
  co_connected G x y -> x <> y -> exists z, co_adjacent G z x.
Proof.
  intros C. apply clos_rt_rt1n in C.
  destruct C as [| z w A _]; [congruence |].
  intros _. exists z. unfold co_adjacent in *. tauto.
Qed.

(** ** The clusters of a graph *)

Lemma clusters_in_order_spec order G :
  graph_wf G ->
  (forall x y, co_adjacent G x y -> In y order) ->
  let cl := clusters_in_order order G in
  (forall c, In c cl ->
     2 < List.length c /\ StronglySorted str_lt c /\
     exists v, In v order /\ forall x, In x c <-> co_connected G v x) /\
  (forall v, In v order -> roomy G v -> List.length (filter (str_in v) cl) = 1) /\
  (forall v, ~ roomy G v -> filter (str_in v) cl = []).
Proof.
  intros W HU cl.
  assert (HU' : forall x y, adjacent (co_edges G) x y -> In y order).
  { intros x y A. apply (HU x y). now apply adjacent_co. }
  assert (Cl0 : forall x y : string,
             In x [] -> connected (co_edges G) x y -> In y [])
    by (intros x y []).
  destruct (components_spec (co_edges G) order order [] HU' (incl_refl _) Cl0)
    as (R1 & _ & R3).
  set (comps := components (List.length order) (co_edges G) order []) in *.
  assert (A : forall c, In c cl ->
     2 < List.length c /\ StronglySorted str_lt c /\
     exists v, In v order /\ forall x, In x c <-> co_connected G v x).
  { intros c I. apply In_clusters_of in I. destruct I as (c0 & I & -> & L).
    destruct (R1 c0 I) as (N & v & Iv & _ & M).
    split; [now rewrite sorted_length |]. split; [now apply sorted_increasing |].
    exists v. split; [exact Iv |]. intros x.
    now rewrite sorted_In, M, connected_co. }
  split; [exact A |]. split.
  - intros v Iv (x & y & Nxy & Nx & Ny & Cx & Cy).
    unfold cl, clusters_in_order. fold comps. rewrite filter_clusters_of.
    rewrite filter_and_implied.
    + apply R3; [intros [] |]. exists v. split; [exact Iv | apply rt_refl].
    + intros c I S. apply str_in_In in S. apply Nat.ltb_lt.
      destruct (R1 c I) as (_ & w & _ & _ & M).
      assert (Cw : forall t, co_connected G v t -> In t c).
      { intros t Ct. apply M, connected_co; [exact W |].
        eapply rt_trans; [| exact Ct]. apply connected_co; [exact W |].
        now apply M. }
      apply (three_members v x y c); auto. all: apply Cw, rt_refl.
  - intros v Nr. apply filter_none. intros c I. apply str_in_false. intros Iv.
    destruct (A c I) as (L & S & w & _ & M).
    destruct (two_others v c (increasing_NoDup c S) L Iv)
      as (x & y & Ix & Iy & Nxy & Nx & Ny).
    apply Nr. exists x, y. repeat split; auto.
    + eapply rt_trans; [apply co_connected_sym, M, Iv | now apply M].
    + eapply rt_trans; [apply co_connected_sym, M, Iv | now apply M].
Qed.

Lemma roomy_in_order G order v : scan_order G order -> roomy G v -> In v order.
Proof.
  intros O (x & _ & _ & Nx & _ & Cx & _).
  destruct (co_connected_other G v x Cx) as (z & A); [congruence |].
  now apply (O z v).
Qed.

Lemma co_nodes_scan_order G : graph_wf G -> scan_order G (co_nodes G).
Proof. intros W x y. now apply co_adjacent_in_co_nodes. Qed.

Lemma clusters_spec order G :
  graph_wf G -> scan_order G order ->
  let cl := clusters_in_order order G in
  (forall c, In c cl ->
     2 < List.length c /\ StronglySorted str_lt c /\
     exists v, forall x, In x c <-> co_connected G v x) /\
  (forall v, roomy G v -> List.length (filter (str_in v) cl) = 1) /\
  (forall v, ~ roomy G v -> filter (str_in v) cl = []).
Proof.
  intros W O cl.
  destruct (clusters_in_order_spec order G W O) as (A & B & C).
  split; [| split; [| exact C]].
  - intros c I. destruct (A c I) as (L & S & v & _ & M). eauto.
  - intros v R. apply B; [| exact R]. now apply (roomy_in_order G).
Qed.

(** ** The clusters of a single record *)

Lemma pairs_cover (a b : string) l :
  In a l -> In b l -> a <> b -> In (a, b) (pairs l) \/ In (b, a) (pairs l).
Proof.
  induction l as [| x l IH]; intros Ia Ib N; [destruct Ia |].
  cbn [pairs]. destruct Ia as [-> | Ia], Ib as [-> | Ib].
  - congruence.
  - left. apply in_or_app. left. now apply in_map.
  - right. apply in_or_app. left. now apply in_map.
  - destruct (IH Ia Ib N) as [I | I]; [left | right]; apply in_or_app; now right.
Qed.

Lemma co_adjacent_single e u v :
  co_adjacent (build_partially_directed_graph [e]) u v <->
  In (u, v) (pairs (entry_authors e)) \/ In (v, u) (pairs (entry_authors e)).
Proof.
  pose proof (build_built [e]) as B.
  assert (L : forall a b,
             labelled CO_AUTHOR a b (build_partially_directed_graph [e]) <->
             In (a, b) (pairs (entry_authors e)) \/ In (b, a) (pairs (entry_authors e))).
  { intros a b. rewrite (proj2 (built_labelled [e] _ a b B)), total_single.
    unfold co_contrib. rewrite <- !count_pos_In. lia. }
  unfold co_adjacent. rewrite !L. tauto.
Qed.

Lemma co_connected_single_closed e u v :
  co_connected (build_partially_directed_graph [e]) u v ->
  In u (entry_authors e) -> In v (entry_authors e).
Proof.
  induction 1 as [x y A | x | x y z _ IH1 _ IH2]; auto.
  intros _. apply co_adjacent_single in A.
  destruct A as [A | A]; apply In_pairs in A; tauto.
Qed.

Lemma co_connected_single_authors e u v :
  In u (entry_authors e) -> In v (entry_authors e) ->
  co_connected (build_partially_directed_graph [e]) u v.
Proof.
  intros Iu Iv. destruct (string_dec u v) as [-> | N]; [apply rt_refl |].
  apply rt_step, co_adjacent_single. now apply pairs_cover.
Qed.

Lemma cluster_members_single e order c :
  scan_order (build_partially_directed_graph [e]) order ->
  In c (clusters_in_order order (build_partially_directed_graph [e])) ->
  2 < List.length c /\ StronglySorted str_lt c /\
  forall t, In t c -> In t (entry_authors e).
Proof.
  intros O I.
  destruct (clusters_spec order _ (build_wf [e]) O) as (A & _ & _).
  destruct (A c I) as (L & S & v & M). split; [exact L |]. split; [exact S |].
  assert (Iv : In v c) by apply M, rt_refl.
  destruct (two_others v c (increasing_NoDup c S) L Iv) as (x & _ & Ix & _ & _ & Nx & _).
  apply M in Ix.
  destruct (co_connected_other _ v x Ix) as (z & Az); [congruence |].
  apply co_adjacent_single in Az.
  assert (Av : In v (entry_authors e)).
  { destruct Az as [Az | Az]; apply In_pairs in Az; tauto. }
  intros t It. apply M in It. eapply co_connected_single_closed; eauto.
Qed.

(** A record with at most two author entries gives no cluster. *)
Lemma small_record_no_cluster e order :
  scan_order (build_partially_directed_graph [e]) order ->
  List.length (entry_authors e) <= 2 ->
  clusters_in_order order (build_partially_directed_graph [e]) = [].
Proof.
  intros O L.
  destruct (clusters_in_order order (build_partially_directed_graph [e]))
    as [| c cl] eqn:E; [reflexivity |].
  exfalso. destruct (cluster_members_single e order c O) as (Lc & S & M).
  { rewrite E. now left. }
  pose proof (NoDup_incl_length (increasing_NoDup c S) M). lia.
Qed.

(** A record with three or more distinct authors gives one cluster: its
    authors in increasing order. *)
Lemma large_record_one_cluster e order :
  scan_order (build_partially_directed_graph [e]) order ->
  NoDup (entry_authors e) -> 2 < List.length (entry_authors e) ->
  clusters_in_order order (build_partially_directed_graph [e]) =
  [sorted (entry_authors e)].
Proof.
  intros O N L.
  set (G := build_partially_directed_graph [e]) in *.
  destruct (clusters_spec order G (build_wf [e]) O) as (A & B & _).
  set (cl := clusters_in_order order G) in *.
  assert (Is : forall c, In c cl -> c = sorted (entry_authors e)).
  { intros c I. destruct (cluster_members_single e order c O I) as (Lc & S & M).
    apply increasing_unique; [exact S | now apply sorted_increasing |].
    intros t. rewrite sorted_In. split; [apply M |]. intros It.
    destruct (A c I) as (_ & _ & v & Mv). apply Mv.
    apply co_connected_single_authors; [| exact It].
    apply M, Mv, rt_refl. }
  destruct (entry_authors e) as [| x [| y [| z rest]]] eqn:Au; simpl in L; try lia.
  assert (R : roomy G x).
  { inversion N as [| ? ? Nx N']; subst. inversion N' as [| ? ? Ny _]; subst.
    simpl in Nx, Ny. exists y, z.
    repeat split; try (intuition congruence);
      apply co_connected_single_authors; rewrite Au; simpl; auto. }
  specialize (B x R).
  assert (F : filter (str_in x) cl = cl).
  { apply filter_all. intros c I. rewrite (Is c I).
    apply str_in_In, sorted_In. now left. }
  rewrite F in B.
  destruct cl as [| c [| c' cl']]; simpl in B; try lia.
  f_equal. apply Is. now left.
Qed.

(** C6.  Whatever the order in which the scan meets the nodes ([co_nodes] is
    one such order), the kept edges are those whose label names [co_author];
    every reported cluster has more than two members, lists them in
    increasing order, and holds exactly the names connected to one of them by
    co-author edges taken in either direction; a name whose component has at
    least three members is in exactly one cluster and any other name in none.
    In particular one article by three distinct authors gives the single
    cluster of the three, and one article by two authors gives none. *)
Theorem coauthor_clusters_are_components :
  (forall G order, graph_wf G -> scan_order G order ->
     (forall x y, In (x, y) (co_edges G) <-> labelled CO_AUTHOR x y G) /\
     (forall c, In c (clusters_in_order order G) ->
        2 < List.length c /\ StronglySorted str_lt c /\
        exists v, forall x, In x c <-> co_connected G v x) /\
     (forall v, roomy G v ->
        List.length (filter (str_in v) (clusters_in_order order G)) = 1) /\
     (forall v, ~ roomy G v ->
        filter (str_in v) (clusters_in_order order G) = [])) /\
  (forall G, graph_wf G -> scan_order G (co_nodes G)) /\
  (forall e x y z,
     entry_authors e = [x; y; z] -> x <> y -> x <> z -> y <> z ->
     find_coauthor_clusters_directed (build_partially_directed_graph [e]) =
     [sorted [x; y; z]]) /\
  (forall e x y,
     entry_authors e = [x; y] ->
     find_coauthor_clusters_directed (build_partially_directed_graph [e]) = []).
Proof.
  split; [| split; [| split]].
  - intros G order W O. split; [intros x y; now apply In_co_edges |].
    apply (clusters_spec order G W O).
  - apply co_nodes_scan_order.
  - intros e x y z Au Nxy Nxz Nyz. rewrite <- Au.
    apply large_record_one_cluster.
    + apply co_nodes_scan_order, build_wf.
    + rewrite Au. repeat constructor; simpl; intuition congruence.
    + rewrite Au. simpl. lia.
  - intros e x y Au. apply small_record_no_cluster.
    + apply co_nodes_scan_order, build_wf.
    + rewrite Au. simpl. lia.
Qed.

Lemma coauthor_clusters_are_components_witness :
  find_coauthor_clusters_directed (build_partially_directed_graph [trio]) =
    [["xia"; "yan"; "zoe"]] /\
  find_coauthor_clusters_directed (build_partially_directed_graph [duo]) = [].
Proof.
  destruct coauthor_clusters_are_components as (_ & _ & T & D). split.
  - apply (T trio "zoe" "yan" "xia"); [reflexivity | | |]; discriminate.
  - apply (D duo "zoe" "yan"). reflexivity.
Defined.

(** * Further properties of the loader *)

(** X1.  [load_and_merge_data], lines 12-27.  When every listed path is missing,
    unparseable or usable, the loader returns: it prints one line per skipped
    path, in order, and the records are those of the usable paths, in the
    order of the list and with repetitions kept. *)
Theorem load_tolerates_missing_and_malformed
    (fs : string -> source) (file_paths : list string) :
  Forall (fun fpath => fs fpath <> Unopenable) file_paths ->
  load_and_merge_data fs file_paths =
  Loaded (flat_map (complaint fs) file_paths) (flat_map (contents fs) file_paths).
Proof. intros F. unfold load_and_merge_data. now rewrite load_loop_tolerant. Qed.

Lemma load_tolerates_missing_and_malformed_witness :
  load_and_merge_data patchy_files ["a.json"; "zz.json"; "b.json"; "c.json"; "a.json"]
  = Loaded [File_not_found "zz.json"; Error_reading "b.json"]
           (edited_then ++ [coauthored] ++ edited_then).
Proof.
  apply (load_tolerates_missing_and_malformed patchy_files
           ["a.json"; "zz.json"; "b.json"; "c.json"; "a.json"]).
  repeat constructor; discriminate.
Defined.

(** * Further properties of the builder *)

Lemma co_contrib_pos u v e :
  0 < co_contrib u v e <->
  In (u, v) (pairs (entry_authors e)) \/ In (v, u) (pairs (entry_authors e)).
Proof. unfold co_contrib. rewrite <- !count_pos_In. lia. Qed.

(** X2.  [build_partially_directed_graph], lines 63-72.  The nodes of the built
    graph are exactly the normalized names that occur among the editors or
    the authors of some record; a node's [name] is its key and its two
    counters are the numbers of its occurrences as editor and as author over
    all records. *)
Theorem nodes_are_the_names (articles : list entry) (n : string) :
  (has_node n (build_partially_directed_graph articles) = true <->
   exists e, In e articles /\
             (In n (entry_editors e) \/ In n (entry_authors e))) /\
  (forall a, node_at n (build_partially_directed_graph articles) = Some a ->
     name a = n /\
     editor_count a = Z.of_nat (total (editor_occ n) articles) /\
     author_count a = Z.of_nat (total (author_occ n) articles)).
Proof.
  pose proof (built_node _ _ (build_built articles) n) as O.
  unfold has_node, Dict.mem. fold (node_at n (build_partially_directed_graph articles)).
  destruct (node_at n (build_partially_directed_graph articles)) as [a |];
    unfold node_ok in O.
  - destruct O as (Na & Ce & Ca & P). split.
    + split; [intros _ | reflexivity].
      destruct (Nat.eq_dec (total (editor_occ n) articles) 0) as [Z | NZ].
      * assert (Q : 0 < total (author_occ n) articles) by lia.
        apply total_pos in Q. destruct Q as (e & I & Q).
        exists e. split; [exact I |]. right. now apply count_pos_In in Q.
      * assert (Q : 0 < total (editor_occ n) articles) by lia.
        apply total_pos in Q. destruct Q as (e & I & Q).
        exists e. split; [exact I |]. left. now apply count_pos_In in Q.
    + intros a' [= <-]. auto.
  - destruct O as [Ze Za]. split; [| intros a' H; discriminate].
    split; [discriminate |]. intros (e & I & [H | H]); exfalso.
    + apply (count_pos_In n) in H.
      pose proof (total_ge (editor_occ n) articles e I). unfold editor_occ in *. lia.
    + apply (count_pos_In n) in H.
      pose proof (total_ge (author_occ n) articles e I). unfold author_occ in *. lia.
Qed.

(** X3.  Lines 74-120.  The built graph has an edge from [u] to [v] exactly when
    some record lists [u] among its editors and [v] among its authors, or
    lists the two among its authors at two different positions; a name that
    edits its own article or is listed twice as author gets a self-loop. *)
Theorem edges_are_the_relations (articles : list entry) (u v : string) :
  has_edge u v (build_partially_directed_graph articles) = true <->
  exists e, In e articles /\
    ((In u (entry_editors e) /\ In v (entry_authors e)) \/
     In (u, v) (pairs (entry_authors e)) \/
     In (v, u) (pairs (entry_authors e))).
Proof.
  pose proof (built_edge _ _ (build_built articles) u v) as O.
  unfold has_edge.
  destruct (edge_at u v (build_partially_directed_graph articles)) as [d |];
    unfold edge_ok in O.
  - destruct O as (L & _). apply label_ok_pos in L. split; [intros _ | reflexivity].
    destruct (Nat.eq_dec (total (ed_contrib u v) articles) 0) as [Z | NZ].
    + assert (Q : 0 < total (co_contrib u v) articles) by lia.
      apply total_pos in Q. destruct Q as (e & I & Q).
      exists e. split; [exact I |]. right. now apply co_contrib_pos.
    + assert (Q : 0 < total (ed_contrib u v) articles) by lia.
      apply total_pos in Q. destruct Q as (e & I & Q).
      exists e. split; [exact I |]. left. now apply ed_contrib_pos.
  - destruct O as [Ze Zc]. split; [discriminate |].
    intros (e & I & [H | H]); exfalso.
    + apply ed_contrib_pos in H.
      pose proof (total_ge (ed_contrib u v) articles e I). lia.
    + apply co_contrib_pos in H.
      pose proof (total_ge (co_contrib u v) articles e I). lia.
Qed.

(** X4.  Lines 74-120.  Every edge of a built graph carries one of four labels,
    at least one venue, as many titles as venues, and joins two nodes of the
    graph. *)
Theorem built_edge_shape (articles : list entry) (u v : string) (d : edge_attr) :
  edge_at u v (build_partially_directed_graph articles) = Some d ->
  In (relationship d)
     ["editor_to_author"; "co_author";
      "editor_to_author,co_author"; "co_author,editor_to_author"] /\
  issues d <> [] /\
  List.length (issues d) = List.length (titles d) /\
  has_node u (build_partially_directed_graph articles) = true /\
  has_node v (build_partially_directed_graph articles) = true.
Proof.
  intros E. pose proof (build_built articles) as B.
  pose proof (built_edge _ _ B u v) as O. rewrite E in O.
  destruct O as (L & I & T). pose proof (label_ok_pos _ _ _ L) as P.
  split; [| split; [| split; [| split]]].
  - destruct L as [(_ & _ & ->) | [(_ & _ & ->) | (_ & _ & [-> | ->])]];
      simpl; auto.
  - intros Z. rewrite Z in I. simpl in I. lia.
  - congruence.
  - destruct (has_node u (build_partially_directed_graph articles)) eqn:H;
      [reflexivity |].
    apply (wf_src (built_wf _ _ B)) in H. unfold edge_at in E. now rewrite H in E.
  - apply (wf_dst (built_wf _ _ B) u v). unfold has_edge. now rewrite E.
Qed.

Lemma built_edge_shape_witness :
  In (relationship {| relationship := "editor_to_author,co_author";
                      issues := ["J :: S"; "J :: S"]; titles := ["T1"; "T1"] |})
     ["editor_to_author"; "co_author";
      "editor_to_author,co_author"; "co_author,editor_to_author"] /\
  ["J :: S"; "J :: S"] <> [] /\
  List.length ["J :: S"; "J :: S"] = List.length ["T1"; "T1"] /\
  has_node "a" (build_partially_directed_graph editor_among_authors) = true /\
  has_node "b" (build_partially_directed_graph editor_among_authors) = true.
Proof.
  apply (built_edge_shape editor_among_authors "a" "b"
           {| relationship := "editor_to_author,co_author";
              issues := ["J :: S"; "J :: S"]; titles := ["T1"; "T1"] |}).
  reflexivity.
Defined.

Lemma total_perm f l l' : Permutation l l' -> total f l = total f l'.
Proof.
  induction 1 as [| x l l' _ IH | x y l | l l' l'' _ IH1 _ IH2];
    rewrite ?total_cons; lia.
Qed.

(** X5.  Lines 50-122.  The order of the records does not matter for what the
    graph holds: two orders of the same records give the same nodes with
    the same attributes and the same edges, with venue and title lists of the
    same lengths and labels naming the same kinds. *)
Theorem build_ignores_record_order (articles articles' : list entry) :
  Permutation articles articles' ->
  (forall n, node_at n (build_partially_directed_graph articles') =
             node_at n (build_partially_directed_graph articles)) /\
  (forall u v, has_edge u v (build_partially_directed_graph articles') =
               has_edge u v (build_partially_directed_graph articles)) /\
  (forall u v d d',
     edge_at u v (build_partially_directed_graph articles) = Some d ->
     edge_at u v (build_partially_directed_graph articles') = Some d' ->
     List.length (issues d') = List.length (issues d) /\
     List.length (titles d') = List.length (titles d) /\
     is_editor_edge d' = is_editor_edge d /\
     is_coauthor_edge d' = is_coauthor_edge d).
Proof.
  intros P.
  pose proof (build_built articles) as B. pose proof (build_built articles') as B'.
  assert (N : forall n, node_at n (build_partially_directed_graph articles') =
                        node_at n (build_partially_directed_graph articles)).
  { intros n. pose proof (built_node _ _ B n) as O.
    pose proof (built_node _ _ B' n) as O'.
    rewrite <- (total_perm (editor_occ n) _ _ P),
            <- (total_perm (author_occ n) _ _ P) in O'.
    destruct (node_at n (build_partially_directed_graph articles)) as [a |],
             (node_at n (build_partially_directed_graph articles')) as [a' |];
      unfold node_ok in O, O'; try reflexivity.
    - destruct a, a'; simpl in *.
      destruct O as (-> & -> & -> & _), O' as (-> & -> & -> & _). reflexivity.
    - exfalso. destruct O as (_ & _ & _ & ?), O'. lia.
    - exfalso. destruct O' as (_ & _ & _ & ?), O. lia. }
  assert (E : forall u v,
             edge_ok (total (ed_contrib u v) articles) (total (co_contrib u v) articles)
                     (edge_at u v (build_partially_directed_graph articles'))).
  { intros u v. rewrite (total_perm (ed_contrib u v) _ _ P),
                        (total_perm (co_contrib u v) _ _ P).
    apply (built_edge _ _ B'). }
  split; [exact N |]. split.
  - intros u v. unfold has_edge. pose proof (built_edge _ _ B u v) as O.
    specialize (E u v).
    destruct (edge_at u v (build_partially_directed_graph articles)) as [d |],
             (edge_at u v (build_partially_directed_graph articles')) as [d' |];
      unfold edge_ok in O, E; try reflexivity; exfalso.
    + destruct O as (L & _). apply label_ok_pos in L. lia.
    + destruct E as (L & _). apply label_ok_pos in L. lia.
  - intros u v d d' H H'. pose proof (built_edge _ _ B u v) as O.
    specialize (E u v). rewrite H in O. rewrite H' in E.
    destruct O as (L & -> & ->), E as (L' & -> & ->).
    apply label_ok_reads in L, L'. unfold is_editor_edge, is_coauthor_edge.
    destruct L as (-> & -> & _), L' as (-> & -> & _). auto.
Qed.

Lemma build_ignores_record_order_witness :
  node_at "a" (build_partially_directed_graph (rev mutual_editors)) =
  node_at "a" (build_partially_directed_graph mutual_editors) /\
  has_edge "a" "b" (build_partially_directed_graph (rev mutual_editors)) =
  has_edge "a" "b" (build_partially_directed_graph mutual_editors).
Proof.
  destruct (build_ignores_record_order mutual_editors (rev mutual_editors))
    as (N & E & _).
  - apply Permutation_rev.
  - split; [apply N | apply E].
Defined.

(** ** The graph only grows *)

Lemma str_app_nil_r (s : string) : (s ++ "")%string = s.
Proof. induction s as [| c s IH]; simpl; congruence. Qed.

Lemma str_app_assoc (a b c : string) :
  ((a ++ b) ++ c)%string = (a ++ (b ++ c))%string.
Proof. induction a as [| x a IH]; simpl; congruence. Qed.

Lemma extends_refl d : extends d d.
Proof.
  exists "", [], []. now rewrite str_app_nil_r, !app_nil_r.
Qed.

Lemma extends_trans d1 d2 d3 : extends d1 d2 -> extends d2 d3 -> extends d1 d3.
Proof.
  intros (r & i & t & R & I & T) (r' & i' & t' & R' & I' & T').
  exists (r ++ r')%string, (i ++ i'), (t ++ t').
  rewrite R', I', T', R, I, T. now rewrite str_app_assoc, <- !app_assoc.
Qed.

Lemma extends_merge k iss t d : extends d (merge_edge k iss t d).
Proof.
  unfold merge_edge.
  destruct (contains k (relationship d)); cbn [negb].
  - exists "", [iss], [t]. cbn [relationship issues titles].
    now rewrite str_app_nil_r.
  - exists ("," ++ k)%string, [iss], [t]. auto.
Qed.

Lemma link_extends u v d k iss t a b G :
  edge_at u v G = Some d ->
  exists d', edge_at u v (link k iss t a b G) = Some d' /\ extends d d'.
Proof.
  intros E. rewrite edge_at_link.
  destruct (keqb_spec (u, v) (a, b)) as [Q | _].
  - injection Q as <- <-. rewrite E. cbn [upsert]. eexists. split; [reflexivity |].
    apply extends_merge.
  - exists d. split; [exact E | apply extends_refl].
Qed.

Lemma apply_ops_extends u v d iss t ops G :
  edge_at u v G = Some d ->
  exists d', edge_at u v (apply_ops iss t ops G) = Some d' /\ extends d d'.
Proof.
  revert d G. induction ops as [| op ops IH]; intros d G E.
  - exists d. split; [exact E | apply extends_refl].
  - unfold apply_ops; cbn [fold_left]. unfold link_op at 2.
    destruct (link_extends u v d (fst op) iss t (fst (snd op)) (snd (snd op)) G E)
      as (d1 & E1 & X1).
    destruct (IH d1 _ E1) as (d2 & E2 & X2).
    exists d2. split; [exact E2 | eapply extends_trans; eauto].
Qed.

Lemma add_entry_extends u v d G e :
  graph_wf G -> edge_at u v G = Some d ->
  exists d', edge_at u v (add_entry G e) = Some d' /\ extends d d'.
Proof.
  intros W E. rewrite add_entry_ops.
  destruct (add_entry_counted G e W) as (_ & Eq & _).
  apply apply_ops_extends. now rewrite Eq.
Qed.

Lemma build_from_extends u v d articles G :
  graph_wf G -> edge_at u v G = Some d ->
  exists d', edge_at u v (build_from G articles) = Some d' /\ extends d d'.
Proof.
  revert d G. induction articles as [| e l IH]; intros d G W E.
  - exists d. split; [exact E | apply extends_refl].
  - cbn [build_from fold_left].
    destruct (add_entry_extends u v d G e W E) as (d1 & E1 & X1).
    destruct (IH d1 _ (add_entry_wf G e W) E1) as (d2 & E2 & X2).
    exists d2. split; [exact E2 | eapply extends_trans; eauto].
Qed.

(** X6.  Lines 50-122.  Ingesting further records removes nothing and rewrites
    nothing: every edge is still there, its label, venues and titles now
    begin with what they were, and every node is still there with counters
    that have not decreased. *)
Theorem build_only_grows (articles more : list entry) :
  (forall u v d,
     edge_at u v (build_partially_directed_graph articles) = Some d ->
     exists d',
       edge_at u v (build_partially_directed_graph (articles ++ more)) = Some d' /\
       extends d d') /\
  (forall n a,
     node_at n (build_partially_directed_graph articles) = Some a ->
     exists a',
       node_at n (build_partially_directed_graph (articles ++ more)) = Some a' /\
       name a' = name a /\
       (editor_count a <= editor_count a')%Z /\
       (author_count a <= author_count a')%Z).
Proof.
  split.
  - intros u v d E. unfold build_partially_directed_graph. rewrite build_from_app.
    apply build_from_extends; [apply build_from_wf, graph_wf_empty | exact E].
  - intros n a H.
    pose proof (built_node _ _ (build_built articles) n) as O.
    pose proof (built_node _ _ (build_built (articles ++ more)) n) as O'.
    rewrite !total_app in O'. rewrite H in O. unfold node_ok in O.
    destruct O as (Na & Ce & Ca & P).
    destruct (node_at n (build_partially_directed_graph (articles ++ more)))
      as [a' |]; unfold node_ok in O'.
    + exists a'. destruct O' as (Na' & Ce' & Ca' & _).
      split; [reflexivity |]. split; [congruence |]. lia.
    + exfalso. lia.
Qed.

(** ** Where the venues and titles of an edge come from *)

Lemma combine_snoc {A B} (l : list A) (l' : list B) x y :
  List.length l = List.length l' ->
  combine (l ++ [x]) (l' ++ [y]) = combine l l' ++ [(x, y)].
Proof.
  revert l'. induction l as [| a l IH]; intros [| b l'] L; simpl in *;
    try discriminate; [reflexivity |].
  f_equal. apply IH. lia.
Qed.

Lemma sourced_upsert (Q : string -> string -> Prop) k iss t o :
  sourced Q o -> Q iss t -> sourced Q (Some (upsert k iss t o)).
Proof.
  destruct o as [d |]; cbn [sourced upsert].
  - intros (L & S) q. cbn [merge_edge issues titles]. split.
    + rewrite !length_app. simpl. lia.
    + intros i' t' I. rewrite combine_snoc in I by exact L.
      apply in_app_or in I. destruct I as [I | [[= <- <-] | []]]; auto.
  - intros _ q. cbn [fresh_edge issues titles]. split; [reflexivity |].
    intros i' t' [[= <- <-] | []]. exact q.
Qed.

Lemma apply_ops_sourced (Q : string -> string -> Prop) u v iss t ops G :
  sourced Q (edge_at u v G) ->
  ((exists k, In (k, (u, v)) ops) -> Q iss t) ->
  sourced Q (edge_at u v (apply_ops iss t ops G)).
Proof.
  revert G. induction ops as [| [k [a b]] ops IH]; intros G S H; [exact S |].
  unfold apply_ops; cbn [fold_left]. apply IH.
  - unfold link_op; cbn [fst snd]. rewrite edge_at_link.
    destruct (keqb_spec (u, v) (a, b)) as [E | _]; [| exact S].
    injection E as <- <-. apply sourced_upsert; [exact S |].
    apply H. exists k. now left.
  - intros (k' & I). apply H. exists k'. now right.
Qed.

Lemma sourced_weaken (Q Q' : string -> string -> Prop) o :
  (forall i t, Q i t -> Q' i t) -> sourced Q o -> sourced Q' o.
Proof.
  intros W. destruct o as [d |]; cbn [sourced]; [| auto].
  intros (L & S). split; [exact L | auto].
Qed.

Lemma entry_op_contributes k u v e :
  In (k, (u, v)) (entry_ops e) -> 0 < ed_contrib u v e + co_contrib u v e.
Proof.
  unfold entry_ops. intros I. apply in_app_or in I. destruct I as [I | I].
  - unfold ed_ops in I. apply in_flat_map in I. destruct I as (ed & Ie & I).
    apply in_map_iff in I. destruct I as (au & [= _ <- <-] & Ia).
    assert (0 < ed_contrib ed au e) by now apply ed_contrib_pos. lia.
  - unfold co_ops in I. apply in_flat_map in I. destruct I as ([a b] & Ip & I).
    cbn [fst snd] in I.
    assert (0 < co_contrib u v e); [| lia].
    apply co_contrib_pos.
    destruct I as [[= _ <- <-] | [[= _ <- <-] | []]]; auto.
Qed.

Lemma add_entry_sourced pre u v G e :
  graph_wf G ->
  sourced (from_record pre u v) (edge_at u v G) ->
  sourced (from_record (pre ++ [e]) u v) (edge_at u v (add_entry G e)).
Proof.
  intros W S. rewrite add_entry_ops.
  destruct (add_entry_counted G e W) as (_ & Eq & _).
  apply apply_ops_sourced.
  - rewrite Eq. eapply sourced_weaken; [| exact S].
    intros i t (e' & I & H). exists e'. split; [| exact H].
    apply in_or_app. now left.
  - intros (k & I). exists e. split; [apply in_or_app; right; now left |].
    split; [reflexivity |]. split; [reflexivity |].
    eapply entry_op_contributes; eauto.
Qed.

Lemma build_from_sourced articles pre u v G :
  graph_wf G ->
  sourced (from_record pre u v) (edge_at u v G) ->
  sourced (from_record (pre ++ articles) u v) (edge_at u v (build_from G articles)).
Proof.
  revert pre G. induction articles as [| e l IH]; intros pre G W S.
  - now rewrite app_nil_r.
  - cbn [build_from fold_left].
    replace (pre ++ e :: l) with ((pre ++ [e]) ++ l) by now rewrite <- app_assoc.
    apply IH; [now apply add_entry_wf | now apply add_entry_sourced].
Qed.

(** X7.  Lines 74-120.  The venues and titles of an edge are aligned: the venue
    and the title at the same position of the two lists are the venue and
    the title of one record of the input, and that record relates the two
    names of the edge, as editor and author or as co-authors. *)
Theorem edge_items_come_from_records
    (articles : list entry) (u v : string) (d : edge_attr) (i t : string) :
  edge_at u v (build_partially_directed_graph articles) = Some d ->
  In (i, t) (combine (issues d) (titles d)) ->
  exists e, In e articles /\ i = issue_id e /\ t = entry_title e /\
            0 < ed_contrib u v e + co_contrib u v e.
Proof.
  intros E I.
  pose proof (build_from_sourced articles [] u v empty_graph graph_wf_empty) as S.
  cbn [app] in S. specialize (S Logic.I).
  fold (build_partially_directed_graph articles) in S. rewrite E in S.
  destruct S as (_ & S). exact (S i t I).
Qed.

Lemma edge_items_come_from_records_witness :
  exists e, In e editor_among_authors /\
            "J :: S" = issue_id e /\ "T1" = entry_title e /\
            0 < ed_contrib "a" "b" e + co_contrib "a" "b" e.
Proof.
  apply (edge_items_come_from_records editor_among_authors "a" "b"
           {| relationship := "editor_to_author,co_author";
              issues := ["J :: S"; "J :: S"]; titles := ["T1"; "T1"] |}
           "J :: S" "T1").
  - reflexivity.
  - simpl. auto.
Defined.

(** * Further properties of the detector *)

Lemma roles_fold_no_editor es m :
  (forall e, In e es -> is_editor_edge (snd e) = false) ->
  fold_left roles_step es m = m.
Proof.
  revert m. induction es as [| [[u v] d] es IH]; intros m H; [reflexivity |].
  cbn [fold_left roles_step].
  pose proof (H (u, v, d) (or_introl eq_refl)) as Hd. cbn [snd] in Hd.
  rewrite Hd. apply IH.
  intros e I. apply H. now right.
Qed.

Lemma ed_au_fold_no_editor es m :
  (forall e, In e es -> is_editor_edge (snd e) = false) ->
  fold_left ed_au_step es m = m.
Proof.
  revert m. induction es as [| [[u v] d] es IH]; intros m H; [reflexivity |].
  cbn [fold_left ed_au_step].
  pose proof (H (u, v, d) (or_introl eq_refl)) as Hd. cbn [snd] in Hd.
  rewrite Hd. apply IH.
  intros e I. apply H. now right.
Qed.

(** X8.  [detect_suspicious_patterns] after [build_partially_directed_graph],
    lines 141-174.  A corpus in which no record has an editor raises no
    suspicion at all, whatever its co-authorships. *)
Theorem no_editor_no_suspicion (articles : list entry) :
  (forall e, In e articles -> entry_editors e = []) ->
  detect_suspicious_patterns (build_partially_directed_graph articles) =
  {| self_overlap := []; reciprocal := [] |}.
Proof.
  intros H.
  set (G := build_partially_directed_graph articles).
  assert (N : forall e, In e (edges G) -> is_editor_edge (snd e) = false).
  { intros [[u v] d] I. cbn [snd].
    destruct (is_editor_edge d) eqn:L; [| reflexivity]. exfalso.
    apply (In_edges u v d G (build_wf articles)) in I.
    assert (Lb : labelled EDITOR_TO_AUTHOR u v G) by (exists d; auto).
    apply (built_labelled articles G u v (build_built articles)) in Lb.
    apply total_pos in Lb. destruct Lb as (e & Ie & P).
    apply ed_contrib_pos in P. rewrite (H e Ie) in P. destruct P as [[] _]. }
  unfold detect_suspicious_patterns.
  rewrite person_issue_roles_fold, ed_au_map_fold.
  now rewrite (roles_fold_no_editor _ _ N), (ed_au_fold_no_editor _ _ N).
Qed.

Lemma no_editor_no_suspicion_witness :
  detect_suspicious_patterns (build_partially_directed_graph [coauthored]) =
  {| self_overlap := []; reciprocal := [] |}.
Proof.
  apply (no_editor_no_suspicion [coauthored]).
  intros e [<- | []]. reflexivity.
Defined.

Lemma editor_issues_some o l :
  editor_issues o = Some l ->
  exists d, o = Some d /\ is_editor_edge d = true /\ issues d = l.
Proof.
  destruct o as [d |]; cbn [editor_issues]; [| discriminate].
  destruct (is_editor_edge d) eqn:L; [| discriminate].
  destruct (issues d) eqn:I; [discriminate |].
  intros [= <-]. exists d. auto.
Qed.

Lemma In_reciprocals_of r l :
  In r l -> In r (reciprocals_of (personA r) (personB r) l).
Proof.
  intros I. unfold reciprocals_of. apply filter_In. split; [exact I |].
  apply keqb_refl.
Qed.

(** X9.  Lines 157-174.  Every reciprocal record is backed by the graph: both
    people have an [editor_to_author] edge to the other and the record
    carries the venue lists of these two edges; and the record read from the
    other side is reported as well. *)
Theorem reciprocal_records_are_mutual (G : DiGraph) (r : reciprocal_rec) :
  graph_wf G ->
  In r (reciprocal (detect_suspicious_patterns G)) ->
  (exists dAB dBA,
     edge_at (personA r) (personB r) G = Some dAB /\
     is_editor_edge dAB = true /\ issues_A_ed_B_auth r = issues dAB /\
     edge_at (personB r) (personA r) G = Some dBA /\
     is_editor_edge dBA = true /\ issues_B_ed_A_auth r = issues dBA) /\
  In (mirror r) (reciprocal (detect_suspicious_patterns G)).
Proof.
  intros W I. apply In_reciprocals_of in I.
  pose proof (detect_reciprocals_of G (personA r) (personB r) W) as X.
  pose proof (detect_reciprocals_of G (personB r) (personA r) W) as Y.
  destruct (editor_issues (edge_at (personA r) (personB r) G)) as [l1 |] eqn:E1;
    [| rewrite X in I; destruct I].
  destruct (editor_issues (edge_at (personB r) (personA r) G)) as [l2 |] eqn:E2;
    [| rewrite X in I; destruct I].
  rewrite X in I. destruct I as [<- | []]. cbn [personA personB] in *.
  apply editor_issues_some in E1, E2.
  destruct E1 as (dAB & EA & LA & IA), E2 as (dBA & EB & LB & IB).
  split.
  - exists dAB, dBA. cbn. repeat split; congruence.
  - unfold mirror; cbn.
    assert (M : In {| personA := personB r; personB := personA r;
                      issues_A_ed_B_auth := l2; issues_B_ed_A_auth := l1 |}
                  (reciprocals_of (personB r) (personA r)
                     (reciprocal (detect_suspicious_patterns G))))
      by (rewrite Y; now left).
    unfold reciprocals_of in M. apply filter_In in M. apply M.
Qed.

Lemma reciprocal_records_are_mutual_witness :
  In (mirror {| personA := "a"; personB := "b";
                issues_A_ed_B_auth := ["J :: V1"];
                issues_B_ed_A_auth := ["J :: V2"] |})
     (reciprocal (detect_suspicious_patterns
                    (build_partially_directed_graph mutual_editors))).
Proof.
  apply (reciprocal_records_are_mutual
           (build_partially_directed_graph mutual_editors)
           {| personA := "a"; personB := "b";
              issues_A_ed_B_auth := ["J :: V1"];
              issues_B_ed_A_auth := ["J :: V2"] |}).
  - apply build_wf.
  - simpl. auto.
Defined.

(** * Further properties of the scorer *)

Lemma sum_scores_bump k p m : sum_scores (bump k p m) = (sum_scores m + k)%Z.
Proof.
  unfold bump. induction m as [| [q x] m IH]; cbn [Dict.set Dict.get_or Dict.get].
  - cbn. lia.
  - unfold Dict.get_or in *. cbn [Dict.get]. norm_keys.
    destruct (String.eqb p q); cbn [sum_scores fold_right snd] in *.
    + lia.
    + fold (sum_scores m). fold (sum_scores
        (Dict.set p (match Dict.get p m with Some v => v | None => 0 end + k)%Z m)).
      rewrite IH. lia.
Qed.

Lemma bump_at_least k p (m : score_map) :
  (2 <= k)%Z -> Forall (fun kv => (2 <= snd kv)%Z) m ->
  Forall (fun kv => (2 <= snd kv)%Z) (bump k p m).
Proof.
  intros K. unfold bump. induction 1 as [| [q x] m X F IH];
    cbn [Dict.set Dict.get_or Dict.get].
  - repeat constructor. cbn. lia.
  - unfold Dict.get_or in *. cbn [Dict.get]. norm_keys.
    destruct (String.eqb p q).
    + constructor; [cbn in *; lia | exact F].
    + constructor; [exact X | exact IH].
Qed.

(** X11.  [score_suspicion], lines 186-204.  The score map lists each person once,
    every listed score is at least 2, and the scores add up to three per
    self-overlap entry plus four per reciprocal entry. *)
Theorem scores_add_up (s : suspicions) :
  sum_scores (score_suspicion s) =
    (3 * Z.of_nat (List.length (self_overlap s)) +
     4 * Z.of_nat (List.length (reciprocal s)))%Z /\
  NoDup (Dict.keys (score_suspicion s)) /\
  Forall (fun kv => (2 <= snd kv)%Z) (score_suspicion s).
Proof.
  unfold score_suspicion.
  assert (A : forall l (m : score_map),
             sum_scores (fold_left score_self l m) =
               (sum_scores m + 3 * Z.of_nat (List.length l))%Z /\
             (NoDup (Dict.keys m) -> NoDup (Dict.keys (fold_left score_self l m))) /\
             (Forall (fun kv => (2 <= snd kv)%Z) m ->
              Forall (fun kv => (2 <= snd kv)%Z) (fold_left score_self l m))).
  { induction l as [| x l IH]; intros m; cbn [fold_left List.length].
    - split; [lia | auto].
    - destruct (IH (score_self m x)) as (S & N & F). unfold score_self in *.
      rewrite S, sum_scores_bump. split; [lia |]. split.
      + intros Nm. apply N. unfold bump. now apply NoDup_keys_set.
      + intros Fm. apply F. apply bump_at_least; [lia | exact Fm]. }
  assert (B : forall l (m : score_map),
             sum_scores (fold_left score_recip l m) =
               (sum_scores m + 4 * Z.of_nat (List.length l))%Z /\
             (NoDup (Dict.keys m) -> NoDup (Dict.keys (fold_left score_recip l m))) /\
             (Forall (fun kv => (2 <= snd kv)%Z) m ->
              Forall (fun kv => (2 <= snd kv)%Z) (fold_left score_recip l m))).
  { induction l as [| x l IH]; intros m; cbn [fold_left List.length].
    - split; [lia | auto].
    - destruct (IH (score_recip m x)) as (S & N & F). unfold score_recip in *.
      rewrite S, !sum_scores_bump. split; [lia |]. split.
      + intros Nm. apply N. unfold bump. now apply NoDup_keys_set, NoDup_keys_set.
      + intros Fm. apply F. apply bump_at_least; [lia |].
        apply bump_at_least; [lia | exact Fm]. }
  destruct (B (reciprocal s) (fold_left score_self (self_overlap s) []))
    as (S2 & N2 & F2).
  destruct (A (self_overlap s) []) as (S1 & N1 & F1).
  rewrite S2, S1. split; [cbn; lia |]. split.
  - apply N2, N1. constructor.
  - apply F2, F1. constructor.
Qed.

(** ** Scores in the whole pipeline *)

Lemma count_perm {K} `{Key K} (k : K) l l' :
  Permutation l l' -> count k l = count k l'.
Proof.
  intros P. unfold count.
  induction P as [| x l l' _ IH | x y l | l l' l'' _ IH1 _ IH2]; cbn [filter].
  - reflexivity.
  - destruct (keqb k x); cbn [List.length]; congruence.
  - destruct (keqb k x), (keqb k y); reflexivity.
  - congruence.
Qed.

Lemma pairs_of_rows (m part : pair_map) :
  map pair_of (flat_map (recip_row m) part) =
  filter (fun k => Dict.mem (swap_pair k) m) (map fst part).
Proof.
  induction part as [| [[u v] l] part IH]; [reflexivity |].
  cbn [flat_map map filter fst]. rewrite map_app, IH.
  unfold swap_pair, Dict.mem; cbn [fst snd recip_row].
  destruct (Dict.get (v, u) m); reflexivity.
Qed.

Lemma reciprocal_pairs_NoDup G :
  NoDup (map pair_of (reciprocal (detect_suspicious_patterns G))).
Proof.
  cbn [detect_suspicious_patterns reciprocal].
  rewrite reciprocals_rows, pairs_of_rows.
  apply NoDup_filter. apply ed_au_map_NoDup.
Qed.

Lemma swap_pair_invol k : swap_pair (swap_pair k) = k.
Proof. now destruct k. Qed.

(** A duplicate-free list of pairs that holds the reverse of each of its
    pairs has every name as often on the left as on the right. *)
Lemma swap_closed_counts (p : string) (ks : list (string * string)) :
  NoDup ks -> (forall k, In k ks -> In (swap_pair k) ks) ->
  count p (map snd ks) = count p (map fst ks).
Proof.
  intros N C.
  assert (P : Permutation (map swap_pair ks) ks).
  { apply NoDup_Permutation; [| exact N |].
    - apply Finite.Injective_map_NoDup; [| exact N].
      intros a b E. rewrite <- (swap_pair_invol a), E. apply swap_pair_invol.
    - intros k. split.
      + intros I. apply in_map_iff in I. destruct I as (k' & <- & I). auto.
      + intros I. apply in_map_iff. exists (swap_pair k).
        split; [apply swap_pair_invol | auto]. }
  rewrite <- (count_perm p _ _ (Permutation_map fst P)).
  rewrite map_map. reflexivity.
Qed.

Lemma recip_counts_mirror G p :
  graph_wf G ->
  count p (map personB (reciprocal (detect_suspicious_patterns G))) =
  count p (map personA (reciprocal (detect_suspicious_patterns G))).
Proof.
  intros W.
  set (rs := reciprocal (detect_suspicious_patterns G)).
  replace (map personB rs) with (map snd (map pair_of rs))
    by (rewrite map_map; reflexivity).
  replace (map personA rs) with (map fst (map pair_of rs))
    by (rewrite map_map; reflexivity).
  apply swap_closed_counts; [apply reciprocal_pairs_NoDup |].
  intros k I. apply in_map_iff in I. destruct I as (r & <- & I).
  pose proof (detect_reciprocals_of G (personA r) (personB r) W) as X.
  pose proof (detect_reciprocals_of G (personB r) (personA r) W) as Y.
  fold rs in X, Y. apply In_reciprocals_of in I.
  destruct (editor_issues (edge_at (personA r) (personB r) G)) as [l1 |];
    [| rewrite X in I; destruct I].
  destruct (editor_issues (edge_at (personB r) (personA r) G)) as [l2 |];
    [| rewrite X in I; destruct I].
  apply in_map_iff.
  exists {| personA := personB r; personB := personA r;
            issues_A_ed_B_auth := l2; issues_B_ed_A_auth := l1 |}.
  split; [reflexivity |].
  assert (M : In {| personA := personB r; personB := personA r;
                    issues_A_ed_B_auth := l2; issues_B_ed_A_auth := l1 |}
                (reciprocals_of (personB r) (personA r) rs))
    by (rewrite Y; now left).
  unfold reciprocals_of in M. apply filter_In in M. apply M.
Qed.

(** X12.  [score_suspicion] after [detect_suspicious_patterns], lines 157-204.  On
    the detector's own output a reciprocal relation is worth four points to
    each of its two people, because the detector reports it from both sides:
    a person's score is three times their self-overlap entries plus four
    times the reciprocal entries that start with them. *)
Theorem pipeline_score (G : DiGraph) (p : string) :
  graph_wf G ->
  Dict.get p (score_suspicion (detect_suspicious_patterns G)) =
  if count p (map person (self_overlap (detect_suspicious_patterns G))) +
     count p (map personA (reciprocal (detect_suspicious_patterns G))) =? 0
  then None
  else Some
         (3 * Z.of_nat
                (count p (map person (self_overlap (detect_suspicious_patterns G)))) +
          4 * Z.of_nat
                (count p (map personA (reciprocal (detect_suspicious_patterns G)))))%Z.
Proof.
  intros W. rewrite score_suspicion_get, (recip_counts_mirror G p W).
  set (ns := count p (map person (self_overlap (detect_suspicious_patterns G)))).
  set (na := count p (map personA (reciprocal (detect_suspicious_patterns G)))).
  destruct (Nat.eqb_spec (ns + na + na) 0), (Nat.eqb_spec (ns + na) 0);
    try reflexivity; try lia. f_equal. lia.
Qed.

Lemma pipeline_score_witness :
  Dict.get "a"
    (score_suspicion
       (detect_suspicious_patterns
          (build_partially_directed_graph mutual_then_coauthored))) = Some 7%Z.
Proof.
  rewrite (pipeline_score (build_partially_directed_graph mutual_then_coauthored) "a").
  - reflexivity.
  - apply build_wf.
Defined.

(** * Properties of the visualization *)

Lemma colour_of_score (G : DiGraph) (p : string) :
  graph_wf G ->
  node_colour
    (Dict.get_or p 0%Z (score_suspicion (detect_suspicious_patterns G))) =
  let n := count p (map person (self_overlap (detect_suspicious_patterns G))) +
           count p (map personA (reciprocal (detect_suspicious_patterns G))) in
  if n =? 0 then "#00ff00" else if n =? 1 then "#ff9900" else "#ff0000".
Proof.
  intros W. cbv zeta.
  pose proof (recip_counts_mirror G p W) as M.
  destruct (score_recip_fold p (reciprocal (detect_suspicious_patterns G))
              (fold_left score_self (self_overlap (detect_suspicious_patterns G)) []))
    as [S _].
  destruct (score_self_fold p (self_overlap (detect_suspicious_patterns G)) [])
    as [S' _].
  unfold score_suspicion. rewrite S, S', M. cbn [Dict.get_or Dict.get].
  set (ns := count p (map person (self_overlap (detect_suspicious_patterns G)))).
  set (na := count p (map personA (reciprocal (detect_suspicious_patterns G)))).
  unfold node_colour.
  destruct (Nat.eqb_spec (ns + na) 0) as [Z | NZ].
  - destruct (Z.ltb_spec 0 (0 + 3 * Z.of_nat ns + 2 * Z.of_nat na + 2 * Z.of_nat na));
      [lia | reflexivity].
  - destruct (Z.ltb_spec 0 (0 + 3 * Z.of_nat ns + 2 * Z.of_nat na + 2 * Z.of_nat na));
      [| lia].
    destruct (Nat.eqb_spec (ns + na) 1) as [O | NO];
      destruct (Z.ltb_spec (0 + 3 * Z.of_nat ns + 2 * Z.of_nat na + 2 * Z.of_nat na) 5);
      try reflexivity; lia.
Qed.

(** X13.  [visualize_partially_directed], lines 249-258, on the scores of the
    pipeline.  Every node is drawn once, in node order, labelled with its
    name, and its colour counts the suspicion entries about the person, a
    reciprocal relation counting once: green for none, orange for exactly
    one, red for two or more. *)
Theorem colour_counts_entries (G : DiGraph) :
  graph_wf G ->
  map node_id
    (drawn_nodes G (score_suspicion (detect_suspicious_patterns G))) =
    Dict.keys (nodes G) /\
  forall dn,
    In dn (drawn_nodes G (score_suspicion (detect_suspicious_patterns G))) ->
    node_label dn = node_id dn /\
    node_color dn =
      let n := count (node_id dn)
                 (map person (self_overlap (detect_suspicious_patterns G))) +
               count (node_id dn)
                 (map personA (reciprocal (detect_suspicious_patterns G))) in
      if n =? 0 then "#00ff00" else if n =? 1 then "#ff9900" else "#ff0000".
Proof.
  intros W. unfold drawn_nodes. split.
  - rewrite map_map. cbn [node_id]. apply map_id.
  - intros dn I. apply in_map_iff in I. destruct I as (n & <- & _).
    cbn [node_label node_id node_color]. split; [reflexivity |].
    now apply colour_of_score.
Qed.

Lemma colour_counts_entries_witness :
  map node_id
    (drawn_nodes (build_partially_directed_graph mutual_editors)
       (score_suspicion
          (detect_suspicious_patterns
             (build_partially_directed_graph mutual_editors)))) =
    Dict.keys (nodes (build_partially_directed_graph mutual_editors)) /\
  forall dn,
    In dn (drawn_nodes (build_partially_directed_graph mutual_editors)
             (score_suspicion
                (detect_suspicious_patterns
                   (build_partially_directed_graph mutual_editors)))) ->
    node_label dn = node_id dn /\
    node_color dn =
      let n := count (node_id dn)
                 (map person
                    (self_overlap
                       (detect_suspicious_patterns
                          (build_partially_directed_graph mutual_editors)))) +
               count (node_id dn)
                 (map personA
                    (reciprocal
                       (detect_suspicious_patterns
                          (build_partially_directed_graph mutual_editors)))) in
      if n =? 0 then "#00ff00" else if n =? 1 then "#ff9900" else "#ff0000".
Proof.
  apply (colour_counts_entries (build_partially_directed_graph mutual_editors)).
  apply build_wf.
Defined.

Lemma built_edge_label (articles : list entry) (u v : string) (d : edge_attr) :
  edge_at u v (build_partially_directed_graph articles) = Some d ->
  edge_label (relationship d) =
  if 0 <? total (ed_contrib u v) articles then "editor->author" else "co_author".
Proof.
  intros E. pose proof (built_edge _ _ (build_built articles) u v) as O.
  rewrite E in O. destruct O as (L & _).
  pose proof (label_ok_pos _ _ _ L) as P.
  apply label_ok_reads in L. destruct L as (Le & Lc & _).
  unfold edge_label. rewrite Le, Lc.
  destruct (Nat.ltb_spec 0 (total (ed_contrib u v) articles)); [reflexivity |].
  destruct (Nat.ltb_spec 0 (total (co_contrib u v) articles)); [reflexivity | lia].
Qed.

(** X14.  [visualize_partially_directed], lines 263-279, on a built graph.  The
    edges drawn are the edges of the graph, each with one of the two fixed
    labels and never with its raw label: [editor->author] when some record
    makes the source an editor of the target, also when the two are
    co-authors as well, and [co_author] otherwise. *)
Theorem edges_drawn_with_fixed_labels (articles : list entry) (u v lbl : string) :
  In (u, v, lbl) (drawn_edges (build_partially_directed_graph articles)) <->
  has_edge u v (build_partially_directed_graph articles) = true /\
  lbl = if 0 <? total (ed_contrib u v) articles
        then "editor->author" else "co_author".
Proof.
  unfold drawn_edges, has_edge. rewrite in_map_iff. split.
  - intros ([[a b] d] & [= -> -> <-] & I). cbn [fst snd] in *.
    apply (In_edges u v d _ (build_wf articles)) in I. rewrite I.
    split; [reflexivity | now apply built_edge_label].
  - intros (H & ->).
    destruct (edge_at u v (build_partially_directed_graph articles)) as [d |] eqn:E;
      [| discriminate].
    exists (u, v, d). cbn [fst snd]. split.
    + now rewrite (built_edge_label articles u v d E).
    + now apply (In_edges u v d _ (build_wf articles)).
Qed.

(** * The score listing of [main] *)

Lemma insert_by_score_perm x l : Permutation (insert_by_score x l) (x :: l).
Proof.
  induction l as [| y l IH]; cbn [insert_by_score]; [reflexivity |].
  destruct (- snd x <=? - snd y)%Z; [reflexivity |].
  rewrite IH. apply perm_swap.
Qed.

Lemma insert_by_score_sorted x l :
  StronglySorted (fun a b => (snd b <= snd a)%Z) l ->
  StronglySorted (fun a b => (snd b <= snd a)%Z) (insert_by_score x l).
Proof.
  induction l as [| y l IH]; intros S; cbn [insert_by_score].
  - repeat constructor.
  - apply StronglySorted_inv in S. destruct S as [S F].
    destruct (Z.leb_spec (- snd x) (- snd y)).
    + constructor; [now constructor |]. constructor; [lia |].
      eapply Forall_impl; [| exact F]. cbn. intros z Hz. lia.
    + constructor; [now apply IH |].
      apply Forall_forall. intros z I.
      apply (Permutation_in _ (insert_by_score_perm x l)) in I.
      destruct I as [<- | I]; [lia |].
      now apply (proj1 (Forall_forall _ _) F).
Qed.

Lemma insert_by_score_stable k x l :
  StronglySorted (fun a b => (snd b <= snd a)%Z) l ->
  filter (fun a => (snd a =? k)%Z) (insert_by_score x l) =
  filter (fun a => (snd a =? k)%Z) (x :: l).
Proof.
  induction l as [| y l IH]; intros S; cbn [insert_by_score]; [reflexivity |].
  apply StronglySorted_inv in S. destruct S as [S F].
  destruct (Z.leb_spec (- snd x) (- snd y)); [reflexivity |].
  cbn [filter] in *. rewrite (IH S).
  destruct (Z.eqb_spec (snd x) k), (Z.eqb_spec (snd y) k); try reflexivity. lia.
Qed.

Lemma by_score_desc_sorted l :
  StronglySorted (fun a b => (snd b <= snd a)%Z) (by_score_desc l).
Proof.
  induction l as [| x l IH]; cbn [by_score_desc fold_right]; [constructor |].
  now apply insert_by_score_sorted.
Qed.

(** X15.  [main], line 324.  The score listing holds every entry of the score map
    once, in decreasing order of score, and people with the same score stay
    in the order of the score map. *)
Theorem score_listing_sorted (items : list (string * Z)) :
  Permutation (by_score_desc items) items /\
  StronglySorted (fun a b => (snd b <= snd a)%Z) (by_score_desc items) /\
  forall k, filter (fun a => (snd a =? k)%Z) (by_score_desc items) =
            filter (fun a => (snd a =? k)%Z) items.
Proof.
  split; [| split; [apply by_score_desc_sorted |]].
  - induction items as [| x l IH]; cbn [by_score_desc fold_right]; [reflexivity |].
    rewrite insert_by_score_perm. now constructor.
  - intros k. induction items as [| x l IH]; [reflexivity |].
    cbn [by_score_desc fold_right].
    fold (by_score_desc l). rewrite insert_by_score_stable by apply by_score_desc_sorted.
    cbn [filter]. now rewrite IH.
Qed.

(** * Further properties of the clusters *)

Lemma cluster_member_roomy order G c v :
  graph_wf G -> scan_order G order ->
  In c (clusters_in_order order G) -> In v c -> roomy G v.
Proof.
  intros W O I Iv.
  destruct (clusters_spec order G W O) as (A & _ & _).
  destruct (A c I) as (L & S & w & M).
  destruct (two_others v c (increasing_NoDup c S) L Iv)
    as (x & y & Ix & Iy & Nxy & Nx & Ny).
  exists x, y. repeat split; auto.
  - eapply rt_trans; [apply co_connected_sym, M, Iv | now apply M].
  - eapply rt_trans; [apply co_connected_sym, M, Iv | now apply M].
Qed.

(** X16.  [find_coauthor_clusters_directed], lines 224-231.  No name is reported
    in two clusters, in whatever order the nodes are scanned. *)
Theorem one_cluster_per_name (order : list string) (G : DiGraph) (v : string) :
  graph_wf G -> scan_order G order ->
  List.length (filter (str_in v) (clusters_in_order order G)) <= 1.
Proof.
  intros W O.
  destruct (filter (str_in v) (clusters_in_order order G)) as [| c rest] eqn:F;
    [simpl; lia |].
  assert (I : In c (filter (str_in v) (clusters_in_order order G)))
    by (rewrite F; now left).
  apply filter_In in I. destruct I as [I S]. apply str_in_In in S.
  destruct (clusters_spec order G W O) as (_ & B & _).
  rewrite <- F, (B v (cluster_member_roomy order G c v W O I S)). lia.
Qed.

Lemma one_cluster_per_name_witness :
  List.length
    (filter (str_in "yan")
       (clusters_in_order (co_nodes (build_partially_directed_graph [trio]))
          (build_partially_directed_graph [trio]))) <= 1.
Proof.
  apply (one_cluster_per_name
           (co_nodes (build_partially_directed_graph [trio]))
           (build_partially_directed_graph [trio]) "yan").
  - apply build_wf.
  - apply co_nodes_scan_order, build_wf.
Defined.

Lemma co_adjacent_authors articles x z :
  co_adjacent (build_partially_directed_graph articles) z x ->
  exists e, In e articles /\ In x (entry_authors e).
Proof.
  pose proof (build_built articles) as B.
  assert (L : forall a b,
             labelled CO_AUTHOR a b (build_partially_directed_graph articles) ->
             exists e, In e articles /\ In a (entry_authors e) /\
                       In b (entry_authors e)).
  { intros a b H. apply (built_labelled articles _ a b B) in H.
    apply total_pos in H. destruct H as (e & I & P).
    apply co_contrib_pos in P. exists e. split; [exact I |].
    destruct P as [P | P]; apply In_pairs in P; tauto. }
  intros [H | H]; destruct (L _ _ H) as (e & I & Ia & Ib); eauto.
Qed.

(** X17.  Lines 216-231 after the builder.  Every member of a reported cluster is
    an author of some record: a person who only ever edits is in no
    cluster. *)
Theorem cluster_members_are_authors
    (articles : list entry) (c : list string) (x : string) :
  In c (find_coauthor_clusters_directed (build_partially_directed_graph articles)) ->
  In x c ->
  exists e, In e articles /\ In x (entry_authors e).
Proof.
  intros I Ix.
  set (G := build_partially_directed_graph articles) in *.
  assert (W : graph_wf G) by apply build_wf.
  destruct (cluster_member_roomy (co_nodes G) G c x W (co_nodes_scan_order G W) I Ix)
    as (y & _ & _ & Ny & _ & Cy & _).
  destruct (co_connected_other G x y Cy) as (z & A); [congruence |].
  now apply (co_adjacent_authors articles x z).
Qed.

Lemma cluster_members_are_authors_witness :
  exists e, In e [trio] /\ In "yan" (entry_authors e).
Proof.
  apply (cluster_members_are_authors [trio] ["xia"; "yan"; "zoe"] "yan").
  - vm_compute. auto.
  - simpl. auto.
Defined.

(** X18.  Lines 216-231 after the builder.  In any corpus, the authors of a record
    with at least three different authors are all in one reported cluster. *)
Theorem coauthors_share_a_cluster
    (articles : list entry) (e : entry) (x y z : string) :
  In e articles ->
  In x (entry_authors e) -> In y (entry_authors e) -> In z (entry_authors e) ->
  x <> y -> x <> z -> y <> z ->
  exists c,
    In c (find_coauthor_clusters_directed (build_partially_directed_graph articles)) /\
    forall a, In a (entry_authors e) -> In a c.
Proof.
  intros I Ix Iy Iz Nxy Nxz Nyz.
  set (G := build_partially_directed_graph articles) in *.
  assert (W : graph_wf G) by apply build_wf.
  assert (Adj : forall a b, In a (entry_authors e) -> In b (entry_authors e) ->
                            co_connected G a b).
  { intros a b Ia Ib. destruct (string_dec a b) as [-> | N]; [apply rt_refl |].
    apply rt_step. left.
    apply (built_labelled articles G a b (build_built articles)).
    assert (P : 0 < co_contrib a b e) by (apply co_contrib_pos; now apply pairs_cover).
    pose proof (total_ge (co_contrib a b) articles e I). lia. }
  assert (R : roomy G x).
  { exists y, z. repeat split; auto. }
  destruct (clusters_spec (co_nodes G) G W (co_nodes_scan_order G W)) as (A & B & _).
  specialize (B x R). fold (find_coauthor_clusters_directed G) in A, B.
  destruct (filter (str_in x) (find_coauthor_clusters_directed G))
    as [| c rest] eqn:F; [simpl in B; lia |].
  assert (Ic : In c (filter (str_in x) (find_coauthor_clusters_directed G)))
    by (rewrite F; now left).
  apply filter_In in Ic. destruct Ic as [Ic Sx]. apply str_in_In in Sx.
  exists c. split; [exact Ic |]. intros a Ia.
  destruct (A c Ic) as (_ & _ & w & M). apply M.
  eapply rt_trans; [apply M, Sx | now apply Adj].
Qed.

Lemma coauthors_share_a_cluster_witness :
  exists c,
    In c (find_coauthor_clusters_directed
            (build_partially_directed_graph (mutual_editors ++ [trio]))) /\
    forall a, In a (entry_authors trio) -> In a c.
Proof.
  apply (coauthors_share_a_cluster (mutual_editors ++ [trio]) trio "zoe" "yan" "xia");
    try discriminate; vm_compute; auto.
Defined.

(** * Properties of [normalize_name] *)

Lemma is_space_lower c : is_space (lower_ascii c) = is_space c.
Proof.
  destruct c as [[] [] [] [] [] [] [] []]; reflexivity.
Qed.

Lemma lower_ascii_idem c : lower_ascii (lower_ascii c) = lower_ascii c.
Proof.
  destruct c as [[] [] [] [] [] [] [] []]; reflexivity.
Qed.

Lemma lower_idem s : lower (lower s) = lower s.
Proof.
  induction s as [| c s IH]; cbn [lower]; [reflexivity |].
  now rewrite lower_ascii_idem, IH.
Qed.

Lemma lstrip_lower s : lstrip (lower s) = lower (lstrip s).
Proof.
  induction s as [| c s IH]; cbn [lower lstrip]; [reflexivity |].
  rewrite is_space_lower. destruct (is_space c); [exact IH | reflexivity].
Qed.

Lemma rstrip_lower s : rstrip (lower s) = lower (rstrip s).
Proof.
  induction s as [| c s IH]; cbn [lower rstrip]; [reflexivity |].
  rewrite IH, is_space_lower.
  destruct (rstrip s); cbn [lower]; [destruct (is_space c) |]; reflexivity.
Qed.

Lemma strip_lower s : strip (lower s) = lower (strip s).
Proof. unfold strip. now rewrite lstrip_lower, rstrip_lower. Qed.

Lemma rstrip_idem s : rstrip (rstrip s) = rstrip s.
Proof.
  induction s as [| c s IH]; cbn [rstrip]; [reflexivity |].
  destruct (rstrip s) as [| c' t] eqn:R.
  - destruct (is_space c) eqn:S; cbn [rstrip]; [reflexivity | now rewrite S].
  - cbn [rstrip]. cbn [rstrip] in IH. rewrite IH. reflexivity.
Qed.

Lemma no_lead_lstrip s : no_lead (lstrip s).
Proof.
  induction s as [| c s IH]; cbn [lstrip]; [exact I |].
  destruct (is_space c) eqn:S; [exact IH | exact S].
Qed.

Lemma lstrip_no_lead s : no_lead s -> lstrip s = s.
Proof. destruct s as [| c s]; cbn; [reflexivity | now intros ->]. Qed.

Lemma no_lead_rstrip s : no_lead s -> no_lead (rstrip s).
Proof.
  destruct s as [| c s]; cbn [no_lead rstrip]; [auto |].
  intros S. destruct (rstrip s); [rewrite S |]; exact S.
Qed.

Lemma strip_idem s : strip (strip s) = strip s.
Proof.
  unfold strip.
  rewrite (lstrip_no_lead (rstrip (lstrip s))) by apply no_lead_rstrip, no_lead_lstrip.
  apply rstrip_idem.
Qed.

(** X19.  [normalize_name], lines 34-40 (names as ASCII strings).  A normalized
    name is left alone by a second normalization, and already by each of its
    two steps. *)
Theorem normalize_name_idempotent (s : string) :
  normalize_name (normalize_name s) = normalize_name s /\
  strip (normalize_name s) = normalize_name s /\
  lower (normalize_name s) = normalize_name s.
Proof.
  unfold normalize_name. rewrite !strip_lower, !strip_idem, !lower_idem. auto.
Qed.

Lemma rstrip_all_space w : all_space w = true -> rstrip w = "".
Proof.
  induction w as [| c w IH]; cbn [all_space rstrip]; [reflexivity |].
  intros H. apply andb_true_iff in H. destruct H as [S A].
  now rewrite (IH A), S.
Qed.

Lemma lstrip_app_space w s : all_space w = true -> lstrip (w ++ s) = lstrip s.
Proof.
  induction w as [| c w IH]; cbn [all_space append lstrip]; [reflexivity |].
  intros H. apply andb_true_iff in H. destruct H as [S A]. now rewrite S, IH.
Qed.

Lemma rstrip_app_space s w : all_space w = true -> rstrip (s ++ w) = rstrip s.
Proof.
  intros A. induction s as [| c s IH]; cbn [append rstrip].
  - now apply rstrip_all_space.
  - now rewrite IH.
Qed.

Lemma strip_app_space s w : all_space w = true -> strip (s ++ w) = strip s.
Proof.
  intros A. unfold strip. induction s as [| c s IH]; cbn [append lstrip].
  - rewrite (rstrip_all_space (lstrip w)); [reflexivity |].
    clear - A. induction w as [| c w IH]; cbn [lstrip all_space] in *; [reflexivity |].
    apply andb_true_iff in A. destruct A as [S A]. rewrite S. auto.
  - destruct (is_space c); [exact IH |].
    change (String c (s ++ w)) with (String c s ++ w)%string.
    now apply rstrip_app_space.
Qed.

(** X20.  Lines 34-40, for names made of ASCII characters only.  Two such raw
    names that differ only in the case of their letters and in surrounding
    ASCII whitespace have the same normalized name, so they are one node of
    the graph. *)
Theorem normalize_name_merges_variants (pre post s t : string) :
  isascii s = true -> isascii t = true ->
  all_space pre = true -> all_space post = true -> lower s = lower t ->
  normalize_name (pre ++ s ++ post) = normalize_name t.
Proof.
  intros _ _ A B E. unfold normalize_name.
  rewrite <- !strip_lower.
  assert (L : forall a b, lower (a ++ b) = (lower a ++ lower b)%string).
  { intros a b. induction a as [| c a IH]; cbn; congruence. }
  assert (S : forall w, all_space w = true -> all_space (lower w) = true).
  { induction w as [| c w IH]; cbn [all_space lower]; [reflexivity |].
    intros H. apply andb_true_iff in H. destruct H as [H1 H2].
    now rewrite is_space_lower, H1, IH. }
  rewrite !L. unfold strip at 1.
  rewrite lstrip_app_space by now apply S.
  fold (strip (lower s ++ lower post)).
  rewrite strip_app_space by now apply S.
  now rewrite E.
Qed.

Lemma normalize_name_merges_variants_witness :
  normalize_name ("  " ++ "Jane Doe" ++ " ") = normalize_name "jane doe".
Proof.
  apply (normalize_name_merges_variants "  " " " "Jane Doe" "jane doe");
    reflexivity.
Defined.

(** * The scraper: journal and year *)

Lemma split_on_nonempty sep s : split_on sep s <> [].
Proof.
  destruct s as [| c s]; cbn [split_on]; [discriminate |].
  destruct (Ascii.eqb c sep); [discriminate |].
  destruct (split_on sep s); discriminate.
Qed.

Lemma split_on_plain sep s : has_char sep s = false -> split_on sep s = [s].
Proof.
  induction s as [| c s IH]; cbn [has_char split_on]; [reflexivity |].
  intros H. apply orb_false_iff in H. destruct H as [H1 H2].
  now rewrite H1, (IH H2).
Qed.

Lemma split_on_first sep j rest :
  has_char sep j = false ->
  split_on sep (j ++ String sep rest) = j :: split_on sep rest.
Proof.
  induction j as [| c j IH]; cbn [has_char split_on append].
  - intros _. now rewrite Ascii.eqb_refl.
  - intros H. apply orb_false_iff in H. destruct H as [H1 H2].
    now rewrite H1, (IH H2).
Qed.

Lemma split_on_single sep s w :
  split_on sep s = [w] -> has_char sep s = false.
Proof.
  revert w. induction s as [| c s IH]; intros w; cbn [has_char split_on];
    [reflexivity |].
  destruct (Ascii.eqb c sep).
  - intros H. exfalso. injection H as _ H. now apply split_on_nonempty in H.
  - destruct (split_on sep s) as [| w' ws] eqn:E; [now apply split_on_nonempty in E |].
    intros [= _ ->]. cbn [orb]. now apply (IH w').
Qed.

(** X21.  [scrape_mdpi_articles], lines 86-91.  Splitting the grey line of a search
    result into journal and year fails with an uncaught [IndexError], which
    ends the whole scrape, exactly when the stripped line has no comma. *)
Theorem journal_line_needs_a_comma (text : string) :
  journal_and_year text = None <-> has_char "," (strip text) = false.
Proof.
  unfold journal_and_year.
  destruct (split_on "," (strip text)) as [| j [| y more]] eqn:E.
  - now apply split_on_nonempty in E.
  - split; [intros _; now apply (split_on_single _ _ j) | reflexivity].
  - split; [discriminate |]. intros H.
    rewrite (split_on_plain _ _ H) in E. discriminate.
Qed.

(** X22.  [scrape_mdpi_articles], lines 86-91.  For a line [journal, year] or [journal, year, more] the
    journal is the stripped text before the first comma, without the two
    emphasis tags, and the year the stripped text between the first comma and
    the next one. *)
Theorem journal_line_split (text j y more : string) :
  has_char "," j = false -> has_char "," y = false ->
  (strip text = (j ++ String "," y)%string \/
   strip text = (j ++ String "," (y ++ String "," more))%string) ->
  journal_and_year text =
  Some (replace "</em>" "" (replace "<em>" "" (strip j)), strip y).
Proof.
  intros Hj Hy [E | E]; unfold journal_and_year; rewrite E, (split_on_first _ _ _ Hj).
  - now rewrite (split_on_plain _ _ Hy).
  - now rewrite (split_on_first _ _ _ Hy).
Qed.

Lemma journal_line_split_witness :
  journal_and_year " <em>Sustainability</em> , 2024 , 16(3) " =
  Some ("Sustainability", "2024").
Proof.
  apply (journal_line_split " <em>Sustainability</em> , 2024 , 16(3) "
           "<em>Sustainability</em> " " 2024 " " 16(3)");
    [reflexivity | reflexivity | right; reflexivity].
Defined.
